(** * mongodb-queue: a lease-based message queue over a document store

    A shallow embedding of [mongodb-queue.js] and the properties of its
    message life cycle.

    Modelling choices, all of them visible in the definitions below:
    - a timestamp is the ISO-8601 string of [Date.prototype.toISOString];
      for four-digit years these strings have a fixed width and the store's
      string order on them is the order of the instants, so a timestamp is
      modelled by its instant, in milliseconds, as a [Z];
    - an identifier is a value of the store's totally ordered [_id] domain,
      modelled by [Z] with its order; an ack token is the hex string of
      sixteen random bytes;
    - the database is a finite map from collection names to the documents
      of the collection in natural (insertion) order; a missing collection
      is an empty one, as in the store;
    - what a call draws from outside (the clock, the random bytes, the
      driver's fresh identifiers) is an explicit input [Env.t]; a call
      reads the clock at one instant, and each call it chains in a
      callback reads it anew;
    - a callback invoked with an error is a result [Err]; the store keeps
      whatever was written before the error;
    - the store and its driver are not part of the sources: [Store] gives
      the primitives the queue calls the meaning the queue relies on, and
      their results the shape they have in the driver the code is written
      against (the one whose [insertMany] result has [ops] and
      [insertedIds]): the result of [updateOne] carries [matchedCount],
      [modifiedCount], [upsertedCount] and [upsertedId], and no property
      [nUpserted], which is the one [addIfMissing] reads.
      [createIndexes] is left out: with its unique index on [ack] the
      store would refuse a token that a document already carries, which
      the statements below ask of the token where it matters. *)

From stdpp Require Import base option list gmap strings.
From Stdlib Require Import ZArith Lia.

Open Scope Z_scope.

(** ** Data model *)

Definition time := Z.
Definition ident := Z.
Definition token := string.

(** The external representation of a message, built by [get]. Its fields
    are copies of fields of the stored document and are missing where the
    document's are. *)
Module Msg.
Record t (V : Type) := mk {
  id : ident;
  ack : option token;
  payload : V;
  tries : option Z;
}.
Arguments mk {V}.
Arguments id {V}.
Arguments ack {V}.
Arguments payload {V}.
Arguments tries {V}.
End Msg.

(** A payload is any value of the host language. The code looks at a
    payload only to tell an Array from the rest, and builds one kind of
    object itself: the message view it forwards to the dead-letter queue. *)
#[local] Unset Elimination Schemes.
Inductive value :=
  | Atom (s : string)
  | Arr (items : list value)
  | Obj (m : Msg.t value).
#[local] Set Elimination Schemes.

(** A stored document. [add] and [addIfMissing] write [_id], [visible] and
    [payload] only; [ack], [tries] and [deleted] are absent until an update
    sets them. *)
Module Doc.
Record t := mk {
  _id : ident;
  visible : time;
  payload : value;
  ack : option token;
  tries : option Z;
  deleted : option time;
}.

Definition set_visible (v : time) (d : t) : t :=
  mk (_id d) v (payload d) (ack d) (tries d) (deleted d).
Definition set_ack (a : token) (d : t) : t :=
  mk (_id d) (visible d) (payload d) (Some a) (tries d) (deleted d).
Definition set_deleted (v : time) (d : t) : t :=
  mk (_id d) (visible d) (payload d) (ack d) (tries d) (Some v).
(** [$inc]: a missing field counts as zero. *)
Definition inc_tries (n : Z) (d : t) : t :=
  mk (_id d) (visible d) (payload d) (ack d) (Some (default 0 (tries d) + n))
     (deleted d).
End Doc.

(** The inputs a call takes from its environment. *)
Module Env.
Record t := mk {
  clock : nat → time;          (* the instant of this call, of the call chained
                                  after it, of the next one, ... *)
  randomBytes : nat → token;   (* the k-th draw of crypto.randomBytes(16), in hex *)
  objectId : nat → ident;      (* the k-th identifier the driver generates *)
}.

(** The environment of the call chained after this one, in its callback. *)
Definition next (e : t) : t :=
  mk (λ k, clock e (S k)) (λ k, randomBytes e (S k)) (λ k, objectId e (S k)).
End Env.

Inductive error :=
  | ProvideClient                           (* "mongodb-queue: provide a mongodb.MongoClient" *)
  | ProvideName                             (* "mongodb-queue: provide a queue name" *)
  | ArrayPayloadEmpty                       (* "Queue.add(): Array payload length must be greater than 0" *)
  | UnidentifiedAck (op : string) (ack : option token)
                                            (* "Queue.<op>(): Unidentified ack : " + ack *)
  | UnidentifiedId (id : ident)             (* "Queue.cancel(): Unidentified id : " + id *)
  | DuplicateKey (c : string) (id : ident). (* the store's duplicate key error on _id *)

Inductive result (A : Type) :=
  | Ok (a : A)
  | Err (e : error).
Arguments Ok {A}.
Arguments Err {A}.

(** ** The document store *)

Abbreviation DB := (gmap string (list Doc.t)).

Definition docs (db : DB) (c : string) : list Doc.t := default [] (db !! c).

Inductive sort := Natural | ById.

Module Store.

Definition has_id (i : ident) (col : list Doc.t) : bool :=
  existsb (λ d, Doc._id d =? i) col.

(** First match in natural order. *)
Fixpoint first_match (query : Doc.t → bool) (col : list Doc.t)
  : option (nat * Doc.t) :=
  match col with
  | [] => None
  | d :: col' =>
      if query d then Some (O, d)
      else prod_map S (λ x, x) <$> first_match query col'
  end.

(** First match in ascending [_id] order: the match with the least
    identifier, the earliest of them in natural order. *)
Fixpoint least_match (query : Doc.t → bool) (col : list Doc.t)
  : option (nat * Doc.t) :=
  match col with
  | [] => None
  | d :: col' =>
      let rest := prod_map S (λ x, x) <$> least_match query col' in
      if query d then
        match rest with
        | Some (j, m) => if Doc._id m <? Doc._id d then Some (j, m) else Some (O, d)
        | None => Some (O, d)
        end
      else rest
  end.

Definition select (s : sort) (query : Doc.t → bool) (col : list Doc.t)
  : option (nat * Doc.t) :=
  match s with
  | Natural => first_match query col
  | ById => least_match query col
  end.

(** findOneAndUpdate with [returnOriginal : false]: the first match in
    sort order is updated in place and returned as updated. *)
Definition findOneAndUpdate (c : string) (query : Doc.t → bool)
    (update : Doc.t → Doc.t) (s : sort) (db : DB) : option Doc.t * DB :=
  match select s query (docs db c) with
  | Some (i, d) => (Some (update d), <[c := <[i := update d]> (docs db c)]> db)
  | None => (None, db)
  end.

(** The result object of updateOne, and the value of one of its
    properties. *)
Record UpdateResult := mkUpdateResult {
  matchedCount : nat;
  modifiedCount : nat;
  upsertedCount : nat;
  upsertedId : option ident;
}.

Inductive field :=
  | Count (n : nat)
  | Upserted (x : option ident).

(** A property of the result read by name, as [result.name] reads it: a
    name the object does not have reads as undefined, here [None]. *)
Definition prop (r : UpdateResult) (name : string) : option field :=
  if String.eqb name "matchedCount" then Some (Count (matchedCount r))
  else if String.eqb name "modifiedCount" then Some (Count (modifiedCount r))
  else if String.eqb name "upsertedCount" then Some (Count (upsertedCount r))
  else if String.eqb name "upsertedId" then Some (Upserted (upsertedId r))
  else None.

(** [v === 1]. *)
Definition is_one (v : option field) : bool :=
  match v with
  | Some (Count 1) => true
  | _ => false
  end.

(** updateOne with [upsert : true] and an update made of [$setOnInsert]
    only: a match is left as it is; without one the document is
    inserted. *)
Definition updateOne (c : string) (query : Doc.t → bool)
    (setOnInsert : Doc.t) (db : DB) : UpdateResult * DB :=
  match first_match query (docs db c) with
  | Some _ => (mkUpdateResult 1 0 0 None, db)
  | None => (mkUpdateResult 0 0 1 (Some (Doc._id setOnInsert)),
             <[c := docs db c ++ [setOnInsert]]> db)
  end.

(** Ordered insert of documents that carry their identifiers: it stops
    at the first identifier already in the collection. *)
Fixpoint insert_each (c : string) (news : list Doc.t) (col : list Doc.t)
  : option error * list Doc.t :=
  match news with
  | [] => (None, col)
  | d :: news' =>
      if has_id (Doc._id d) col then (Some (DuplicateKey c (Doc._id d)), col)
      else insert_each c news' (col ++ [d])
  end.

(** insertMany: the driver gives the k-th document the k-th fresh
    identifier, then inserts in order. The result is the documents as
    sent ([ops]). *)
Definition insertMany (c : string) (gen : nat → ident)
    (msgs : list (ident → Doc.t)) (db : DB) : result (list Doc.t) * DB :=
  let ops := imap (λ k m, m (gen k)) msgs in
  match insert_each c ops (docs db c) with
  | (None, col') => (Ok ops, <[c := col']> db)
  | (Some err, col') => (Err err, <[c := col']> db)
  end.

Definition count (query : Doc.t → bool) (col : list Doc.t) : nat :=
  length (List.filter query col).

(** deleteMany: the result is the number of documents deleted. *)
Definition deleteMany (c : string) (query : Doc.t → bool) (db : DB) : nat * DB :=
  (count query (docs db c),
   <[c := List.filter (λ d, negb (query d)) (docs db c)]> db).

End Store.

(** ** Values of the host language *)

(** [a || b] on numbers: [a] unless it is missing or zero. *)
Definition js_or (a : option Z) (b : Z) : Z :=
  match a with
  | Some v => if v =? 0 then b else v
  | None => b
  end.

(** [a > b] on numbers: false when either side is missing. *)
Definition js_gt (a b : option Z) : bool :=
  match a, b with
  | Some x, Some y => y <? x
  | _, _ => false
  end.

Definition is_null {A} (o : option A) : bool :=
  match o with None => true | Some _ => false end.

Definition exists_ {A} (o : option A) : bool :=
  match o with None => false | Some _ => true end.

Definition eq_token (a b : option token) : bool := bool_decide (a = b).

(** ** The queue *)

Module Opts.
(** An options object; every field is optional. [deadQueue] is given
    its type below. *)
Record t (Q : Type) := mk {
  visibility : option Z;
  delay : option Z;
  deadQueue : option Q;
  maxRetries : option Z;
}.
Arguments mk {Q}.
Arguments visibility {Q}.
Arguments delay {Q}.
Arguments deadQueue {Q}.
Arguments maxRetries {Q}.

(** The empty object [{}]. *)
Definition none {Q} : t Q := mk None None None None.
End Opts.

(** What [add] hands to its callback: one identifier for a single payload,
    the identifiers in order for an Array. *)
Inductive added :=
  | One (i : ident)
  | Many (ids : list ident).

Module Queue.

(** The Queue object. [col] is the handle of the queue's collection;
    [maxRetries] is set only together with [deadQueue]. *)
#[local] Unset Elimination Schemes.
Inductive t := mk {
  name : string;
  col : string;
  visibility : Z;
  delay : Z;
  deadQueue : option t;
  maxRetries : option Z;
}.
#[local] Set Elimination Schemes.

(** some helper functions *)
Definition id (e : Env.t) : token := Env.randomBytes e O.

Definition now (e : Env.t) : time := Env.clock e O.

Definition nowPlusSecs (e : Env.t) (secs : Z) : time := Env.clock e O + secs * 1000.

(** The constructor. [mongoDbClient] tells whether a client was given;
    the client is the handle of the database, and a collection handle
    is the collection's name in it. *)
Definition new (mongoDbClient : bool) (name : string) (opts : Opts.t t)
  : result t :=
  if negb mongoDbClient then Err ProvideClient
  else if bool_decide (name = "") then Err ProvideName
  else Ok (mk name name
             (js_or (Opts.visibility opts) 30)
             (js_or (Opts.delay opts) 0)
             (Opts.deadQueue opts)
             (match Opts.deadQueue opts with
              | Some _ => Some (js_or (Opts.maxRetries opts) 5)
              | None => None
              end)).

(** The document [{ _id, visible, payload }]. *)
Definition msg (visible : time) (payload : value) (_id : ident) : Doc.t :=
  Doc.mk _id visible payload None None None.

Definition addIfMissing (self : t) (id : ident) (payload : value)
    (opts : Opts.t t) (e : Env.t) (db : DB) : result (option ident) * DB :=
  let delay := js_or (Opts.delay opts) (delay self) in
  let visible := if delay =? 0 then now e else nowPlusSecs e delay in
  let '(result, db') :=
    Store.updateOne (col self) (λ d, Doc._id d =? id) (msg visible payload id) db in
  (Ok (if Store.is_one (Store.prop result "nUpserted") then Some id else None), db').

Definition add (self : t) (payload : value) (opts : Opts.t t) (e : Env.t)
    (db : DB) : result added * DB :=
  let delay := js_or (Opts.delay opts) (delay self) in
  let visible := if delay =? 0 then now e else nowPlusSecs e delay in
  match payload with
  | Arr [] => (Err ArrayPayloadEmpty, db)
  | Arr items =>
      match Store.insertMany (col self) (Env.objectId e) (msg visible <$> items) db with
      | (Err err, db') => (Err err, db')
      | (Ok ops, db') => (Ok (Many (Doc._id <$> ops)), db')
      end
  | _ =>
      match Store.insertMany (col self) (Env.objectId e) [msg visible payload] db with
      | (Err err, db') => (Err err, db')
      | (Ok ops, db') => (Ok (One (default 0 (Doc._id <$> head ops))), db')
      end
  end.

Definition ping (self : t) (ack : option token) (opts : Opts.t t) (e : Env.t)
    (db : DB) : result ident * DB :=
  let visibility := js_or (Opts.visibility opts) (visibility self) in
  let query d :=
    eq_token (Doc.ack d) ack && (now e <? Doc.visible d) && is_null (Doc.deleted d) in
  let update := Doc.set_visible (nowPlusSecs e visibility) in
  match Store.findOneAndUpdate (col self) query update Natural db with
  | (None, db') => (Err (UnidentifiedAck "ping" ack), db')
  | (Some m, db') => (Ok (Doc._id m), db')
  end.

Definition ack (self : t) (ack : option token) (e : Env.t) (db : DB)
  : result ident * DB :=
  let query d :=
    eq_token (Doc.ack d) ack && (now e <? Doc.visible d) && is_null (Doc.deleted d) in
  let update := Doc.set_deleted (now e) in
  match Store.findOneAndUpdate (col self) query update Natural db with
  | (None, db') => (Err (UnidentifiedAck "ack" ack), db')
  | (Some m, db') => (Ok (Doc._id m), db')
  end.

(** convert to an external representation *)
Definition view (d : Doc.t) : Msg.t value :=
  Msg.mk (Doc._id d) (Doc.ack d) (Doc.payload d) (Doc.tries d).

(** [get] calls itself after it has forwarded a message to the dead
    queue; [fuel] bounds the depth of these calls, and [None] is a call
    that has not returned within it. *)
Fixpoint get (fuel : nat) (self : t) (opts : Opts.t t) (e : Env.t) (db : DB)
  : option (result (option (Msg.t value)) * DB) :=
  match fuel with
  | O => None
  | S fuel' =>
      let visibility := js_or (Opts.visibility opts) (visibility self) in
      let query d := is_null (Doc.deleted d) && (Doc.visible d <=? now e) in
      let update d :=
        Doc.set_visible (nowPlusSecs e visibility)
          (Doc.set_ack (id e) (Doc.inc_tries 1 d)) in
      match Store.findOneAndUpdate (col self) query update ById db with
      | (None, db1) => Some (Ok None, db1)
      | (Some doc, db1) =>
          let msg := view doc in
          (* if we have a deadQueue, then check the tries, else don't *)
          match deadQueue self with
          | Some dq =>
              if js_gt (Msg.tries msg) (maxRetries self) then
                (* 1) add this message to the deadQueue
                   2) ack this message from the regular queue
                   3) call ourself to return a new message (if exists) *)
                let e1 := Env.next e in
                match add dq (Obj msg) Opts.none e1 db1 with
                | (Err err, db2) => Some (Err err, db2)
                | (Ok _, db2) =>
                    let e2 := Env.next e1 in
                    match ack self (Msg.ack msg) e2 db2 with
                    | (Err err, db3) => Some (Err err, db3)
                    | (Ok _, db3) => get fuel' self Opts.none (Env.next e2) db3
                    end
                end
              else Some (Ok (Some msg), db1)
          | None => Some (Ok (Some msg), db1)
          end
      end
  end.

Definition clean (self : t) (db : DB) : result nat * DB :=
  let query d := exists_ (Doc.deleted d) in
  let '(n, db') := Store.deleteMany (col self) query db in
  (Ok n, db').

Definition total (self : t) (db : DB) : result nat :=
  Ok (Store.count (λ _, true) (docs db (col self))).

Definition size (self : t) (e : Env.t) (db : DB) : result nat :=
  let query d := is_null (Doc.deleted d) && (Doc.visible d <=? now e) in
  Ok (Store.count query (docs db (col self))).

Definition inFlight (self : t) (e : Env.t) (db : DB) : result nat :=
  let query d :=
    exists_ (Doc.ack d) && (now e <? Doc.visible d) && is_null (Doc.deleted d) in
  Ok (Store.count query (docs db (col self))).

Definition done (self : t) (db : DB) : result nat :=
  let query d := exists_ (Doc.deleted d) in
  Ok (Store.count query (docs db (col self))).

Definition cancel (self : t) (id : ident) (e : Env.t) (db : DB)
  : result unit * DB :=
  let query d :=
    (Doc._id d =? id) && is_null (Doc.deleted d) && (Doc.visible d <=? now e) in
  let update := Doc.set_deleted (now e) in
  match Store.findOneAndUpdate (col self) query update Natural db with
  | (None, db') => (Err (UnidentifiedId id), db')
  | (Some _, db') => (Ok tt, db')
  end.

End Queue.

(** * Vocabulary of the properties *)

(** ** What the calls send to the store *)

(** The query and the update of [get]. *)
Definition get_query (e : Env.t) (d : Doc.t) : bool :=
  is_null (Doc.deleted d) && (Doc.visible d <=? Queue.now e).

Definition get_update (e : Env.t) (visibility : Z) (d : Doc.t) : Doc.t :=
  Doc.set_visible (Queue.nowPlusSecs e visibility)
    (Doc.set_ack (Queue.id e) (Doc.inc_tries 1 d)).

(** The query of [ping] and [ack]. *)
Definition ack_query (a : option token) (e : Env.t) (d : Doc.t) : bool :=
  eq_token (Doc.ack d) a && (Queue.now e <? Doc.visible d) && is_null (Doc.deleted d).

(** Whether [get] forwards the message it has just claimed. *)
Definition redirects (self : Queue.t) (m : Msg.t value) : bool :=
  match Queue.deadQueue self with
  | Some _ => js_gt (Msg.tries m) (Queue.maxRetries self)
  | None => false
  end.

(** The payloads of the messages [add] makes of its argument. *)
Definition payloads (payload : value) : list value :=
  match payload with
  | Arr items => items
  | _ => [payload]
  end.

(** What [add] hands back for the documents inserted. *)
Definition added_of (payload : value) (ops : list Doc.t) : added :=
  match payload with
  | Arr _ => Many (Doc._id <$> ops)
  | _ => One (default 0 (Doc._id <$> head ops))
  end.

Definition is_ok {A} (r : result A) : bool :=
  match r with Ok _ => true | Err _ => false end.

(** ** States of a message *)

(** A message that [get] may claim at instant [now]. *)
Definition claimable (now : time) (d : Doc.t) : Prop :=
  Doc.deleted d = None ∧ Doc.visible d ≤ now.

(** A message held at instant [now] under the ack token [a], and one
    held under some token. *)
Definition leased (a : option token) (now : time) (d : Doc.t) : Prop :=
  Doc.ack d = a ∧ now < Doc.visible d ∧ Doc.deleted d = None.

Definition in_flight (now : time) (d : Doc.t) : Prop :=
  is_Some (Doc.ack d) ∧ now < Doc.visible d ∧ Doc.deleted d = None.

(** A message that is finalized. *)
Definition finalized (d : Doc.t) : Prop := is_Some (Doc.deleted d).

(** A document as [add] and [addIfMissing] write it: pending, with no
    ack token and no [tries]. *)
Definition pending_at (visible : time) (m : Doc.t) : Prop :=
  Doc.visible m = visible ∧ Doc.ack m = None ∧ Doc.tries m = None ∧ Doc.deleted m = None.

#[local] Instance claimable_dec now d : Decision (claimable now d).
Proof. unfold claimable. apply _. Defined.

#[local] Instance in_flight_dec now d : Decision (in_flight now d).
Proof. unfold in_flight. apply _. Defined.

#[local] Instance finalized_dec d : Decision (finalized d).
Proof. unfold finalized. apply _. Defined.

(** The document at place [i] is the match with the least identifier,
    the earliest of them: the one picked in ascending [_id] order. *)
Definition least (query : Doc.t → bool) (col : list Doc.t) (i : nat) (d : Doc.t) : Prop :=
  col !! i = Some d ∧ query d = true ∧
  ∀ j d', col !! j = Some d' → query d' = true →
    Doc._id d ≤ Doc._id d' ∧ (Doc._id d' = Doc._id d → (i ≤ j)%nat).

(** The messages of a collection that are not finalized. *)
Definition undeleted (col : list Doc.t) : nat :=
  Store.count (λ d, is_null (Doc.deleted d)) col.

(** ** How a call changes the store *)

(** Identifiers are unique within a collection. *)
Definition wf (db : DB) : Prop := ∀ c, NoDup (Doc._id <$> docs db c).

(** Every document stays at its place, and its old and new contents are
    related by [R]. *)
Definition evolves (R : relation Doc.t) (db db' : DB) : Prop :=
  ∀ c i d, docs db c !! i = Some d → ∃ d', docs db' c !! i = Some d' ∧ R d d'.

(** The steps of the life cycle of a message: a claim, an extension of
    a lease, a finalization. *)
Definition respects (R : relation Doc.t) : Prop :=
  (∀ e vis d, claimable (Queue.now e) d → R d (get_update e vis d))
  ∧ (∀ now a vis d, leased a now d → R d (Doc.set_visible (now + vis * 1000) d))
  ∧ (∀ now d, Doc.deleted d = None → R d (Doc.set_deleted now d)).

(** A finalized document is left as it is. *)
Definition keeps_finalized (d d' : Doc.t) : Prop :=
  is_Some (Doc.deleted d) → d' = d.

Definition same_tries (d d' : Doc.t) : Prop := Doc.tries d' = Doc.tries d.

(** [visible] is kept or set to a later instant. *)
Definition not_earlier (d d' : Doc.t) : Prop := Doc.visible d ≤ Doc.visible d'.

(** Between two stores, every [visible] that changes moves to a strictly
    later instant. *)
Definition moves_forward (db db' : DB) : Prop :=
  ∀ c i d d',
    docs db c !! i = Some d → docs db' c !! i = Some d' →
    Doc.visible d' ≠ Doc.visible d → Doc.visible d < Doc.visible d'.

(** ** The queue as a transition system *)

(** A call of the interface that may write to the store. *)
Inductive call :=
  | Add (self : Queue.t) (payload : value) (opts : Opts.t Queue.t)
  | AddIfMissing (self : Queue.t) (id : ident) (payload : value) (opts : Opts.t Queue.t)
  | Get (fuel : nat) (self : Queue.t) (opts : Opts.t Queue.t)
  | Ping (self : Queue.t) (ack : option token) (opts : Opts.t Queue.t)
  | Ack (self : Queue.t) (ack : option token)
  | Cancel (self : Queue.t) (id : ident)
  | Clean (self : Queue.t).

(** The store a call leaves when it has returned. *)
Definition run (k : call) (e : Env.t) (db : DB) : option DB :=
  match k with
  | Add self payload opts => Some (Queue.add self payload opts e db).2
  | AddIfMissing self id payload opts => Some (Queue.addIfMissing self id payload opts e db).2
  | Get fuel self opts => snd <$> Queue.get fuel self opts e db
  | Ping self ack opts => Some (Queue.ping self ack opts e db).2
  | Ack self ack => Some (Queue.ack self ack e db).2
  | Cancel self id => Some (Queue.cancel self id e db).2
  | Clean self => Some (Queue.clean self db).2
  end.

Definition is_get (k : call) : bool :=
  match k with Get _ _ _ => true | _ => false end.

Definition is_clean (k : call) : bool :=
  match k with Clean _ => true | _ => false end.

(** The stores that calls, of any queues and at any instants, lead to
    from the empty database. *)
Inductive reachable : DB → Prop :=
  | reachable_empty : reachable ∅
  | reachable_step k e db db' :
      reachable db → run k e db = Some db' → reachable db'.

(** ** Further vocabulary: documents written, kept and counted *)

(** The first [n] identifiers the driver generates in a call, and the
    documents [add] writes under identifiers [ids] for payloads [ps]. *)
Definition generated (e : Env.t) (n : nat) : list ident := Env.objectId e <$> seq 0 n.

Definition new_docs (ids : list ident) (visible : time) (ps : list value) : list Doc.t :=
  zip_with (λ i p, Doc.mk i visible p None None None) ids ps.

(** What [add] hands back for identifiers [ids]. *)
Definition added_ids (payload : value) (ids : list ident) : added :=
  match payload with
  | Arr _ => Many ids
  | _ => One (default 0 (head ids))
  end.

(** The query of [cancel], and the documents it may finalize. *)
Definition cancel_query (x : ident) (e : Env.t) (d : Doc.t) : bool :=
  (Doc._id d =? x) && is_null (Doc.deleted d) && (Doc.visible d <=? Queue.now e).

Definition cancelable (x : ident) (now : time) (d : Doc.t) : Prop :=
  Doc._id d = x ∧ claimable now d.

(** The documents [clean] keeps. *)
Definition kept (d : Doc.t) : bool := negb (exists_ (Doc.deleted d)).

(** What no call takes from a stored message: its identifier and its
    payload stay, [tries] does not decrease, and [ack], [tries] and
    [deleted], once set, stay set. *)
Definition keeps_identity (d d' : Doc.t) : Prop :=
  Doc._id d' = Doc._id d ∧ Doc.payload d' = Doc.payload d
  ∧ default 0 (Doc.tries d) ≤ default 0 (Doc.tries d')
  ∧ (is_Some (Doc.ack d) → is_Some (Doc.ack d'))
  ∧ (is_Some (Doc.tries d) → is_Some (Doc.tries d'))
  ∧ (is_Some (Doc.deleted d) → is_Some (Doc.deleted d')).

(** The message stays, and hidden at least as long. *)
Definition held_on (d d' : Doc.t) : Prop :=
  Doc._id d' = Doc._id d ∧ Doc.visible d ≤ Doc.visible d'.

(** The ack token [tok] is carried by at most one document of the
    collection. *)
Definition token_of_one (tok : token) (col : list Doc.t) : Prop :=
  ∀ j1 j2 d1 d2, col !! j1 = Some d1 → col !! j2 = Some d2 →
    Doc.ack d1 = Some tok → Doc.ack d2 = Some tok → j1 = j2.

(** A property of every document of the store; and the shape of a
    document as to its claims: never claimed, with no ack token and no
    [tries], or claimed, with a token and a count of at least one. *)
Definition all_docs (P : Doc.t → Prop) (db : DB) : Prop := ∀ c, Forall P (docs db c).

Definition claimed_shape (d : Doc.t) : Prop :=
  match Doc.ack d, Doc.tries d with
  | None, None => True
  | Some _, Some n => 1 ≤ n
  | _, _ => False
  end.

(** A property that new documents have and that the updates of the
    calls keep. *)
Definition stable (P : Doc.t → Prop) : Prop :=
  (∀ d, Doc.ack d = None → Doc.tries d = None → Doc.deleted d = None → P d)
  ∧ (∀ e vis d, P d → P (get_update e vis d))
  ∧ (∀ t d, P d → P (Doc.set_visible t d))
  ∧ (∀ t d, P d → P (Doc.set_deleted t d)).

(** ** Concrete queues and stores, on which the statements are run *)

Module Sample.

(** The clock reads [t] and is a millisecond later at every chained
    call; the k-th token is "t" followed by k primes; the k-th generated
    identifier is [100 + k]. *)
Definition env (t : time) : Env.t :=
  Env.mk (λ k, t + Z.of_nat k)
         (λ k, String.append "t" (String.concat "" (repeat "'" k)))
         (λ k, 100 + Z.of_nat k).

(** A queue with the default settings, and one with a dead queue and a
    retry ceiling of two. *)
Definition dead : Queue.t := Queue.mk "dead" "dead" 30 0 None None.
Definition plain : Queue.t := Queue.mk "jobs" "jobs" 30 0 None None.
Definition capped : Queue.t := Queue.mk "jobs" "jobs" 30 0 (Some dead) (Some 2).

Definition visibility (v : Z) : Opts.t Queue.t := Opts.mk (Some v) None None None.
Definition delay (s : Z) : Opts.t Queue.t := Opts.mk None (Some s) None None.

(** One pending message, added at instant 0. *)
Definition one : DB := {[ "jobs" := [Doc.mk 100 0 (Atom "a") None None None] ]}.

(** The same message, claimed at instant 0 for thirty seconds. *)
Definition held : DB :=
  {[ "jobs" := [Doc.mk 100 30000 (Atom "a") (Some "t") (Some 1) None] ]}.

(** Two messages added at instant 0; then the first claimed at once;
    then acknowledged a second later. *)
Definition pair : DB :=
  {[ "jobs" := [Doc.mk 100 0 (Atom "a") None None None;
                Doc.mk 101 0 (Atom "b") None None None] ]}.
Definition pair_held : DB :=
  {[ "jobs" := [Doc.mk 100 30000 (Atom "a") (Some "t") (Some 1) None;
                Doc.mk 101 0 (Atom "b") None None None] ]}.
Definition pair_acked : DB :=
  {[ "jobs" := [Doc.mk 100 30000 (Atom "a") (Some "t") (Some 1) (Some 1000);
                Doc.mk 101 0 (Atom "b") None None None] ]}.

(** Two messages, the first claimed twice and visible again at 70000. *)
Definition twice : DB :=
  {[ "jobs" := [Doc.mk 100 70000 (Atom "a") (Some "s") (Some 2) None;
                Doc.mk 101 0 (Atom "b") None None None] ]}.

End Sample.

(** * Lemmas *)

(** ** The store's primitives *)

Section store_facts.
Implicit Types (query : Doc.t → bool) (col : list Doc.t) (d : Doc.t) (db : DB).

Lemma docs_insert_eq db c col : docs (<[c := col]> db) c = col.
Proof. unfold docs. by rewrite lookup_insert_eq. Qed.

Lemma docs_insert_ne db c c' col : c ≠ c' → docs (<[c := col]> db) c' = docs db c'.
Proof. intros. unfold docs. by rewrite lookup_insert_ne. Qed.

Lemma docs_empty c : docs ∅ c = [].
Proof. unfold docs. by rewrite lookup_empty. Qed.

Lemma first_match_Some query col i d :
  Store.first_match query col = Some (i, d) ↔
  col !! i = Some d ∧ query d = true ∧
  ∀ j d', col !! j = Some d' → (j < i)%nat → query d' = false.
Proof.
  revert i d. induction col as [|x col IH]; intros i d; simpl.
  { split; [done | by intros [? _]]. }
  destruct (query x) eqn:Hx.
  - split.
    + intros [= <- <-]. split_and!; [done..|]. intros; lia.
    + intros (Hi & Hd & Hleast). destruct i as [|i]; simpl in *.
      * by simplify_eq.
      * specialize (Hleast O x eq_refl ltac:(lia)). congruence.
  - split.
    + destruct (Store.first_match query col) as [[k y]|]; simpl; [|done].
      intros [= <- <-]. destruct (proj1 (IH k y) eq_refl) as (? & ? & Hleast).
      split_and!; [done..|]. intros [|j] d'; simpl; [congruence|].
      intros ??. apply (Hleast j); [done | lia].
    + intros (Hi & Hd & Hleast). destruct i as [|i]; simpl in *.
      { congruence. }
      rewrite (proj2 (IH i d)); [done|]. split_and!; [done..|].
      intros j d' ??. apply (Hleast (S j)); [done | lia].
Qed.

Lemma first_match_None query col :
  Store.first_match query col = None ↔ Forall (λ d, query d = false) col.
Proof.
  induction col as [|x col IH]; simpl.
  { split; [constructor | done]. }
  destruct (query x) eqn:Hx.
  - split; [done|]. intros Hall. apply Forall_cons in Hall as [??]. congruence.
  - rewrite Forall_cons, <- IH.
    destruct (Store.first_match query col) as [[??]|]; simpl;
      intuition congruence.
Qed.

Lemma least_match_None query col :
  Store.least_match query col = None ↔ Forall (λ d, query d = false) col.
Proof.
  induction col as [|x col IH]; simpl.
  { split; [constructor | done]. }
  rewrite Forall_cons, <- IH.
  destruct (query x) eqn:Hx, (Store.least_match query col) as [[j m]|]; simpl;
    try destruct (Doc._id m <? Doc._id x); intuition congruence.
Qed.

Lemma least_unique query col i1 d1 i2 d2 :
  least query col i1 d1 → least query col i2 d2 → i1 = i2 ∧ d1 = d2.
Proof.
  intros (H1 & Hq1 & Hm1) (H2 & Hq2 & Hm2).
  destruct (Hm1 _ _ H2 Hq2) as [Ha Hb], (Hm2 _ _ H1 Hq1) as [Hc Hd].
  assert (i1 = i2) as -> by lia. split; [done | congruence].
Qed.

Lemma least_match_least query col i d :
  Store.least_match query col = Some (i, d) → least query col i d.
Proof.
  revert i d. induction col as [|x col IH]; intros i d; simpl; [done|].
  destruct (Store.least_match query col) as [[j m]|] eqn:Hrec; simpl.
  - destruct (IH _ _ eq_refl) as (Hj & Hm & Hleast).
    destruct (query x) eqn:Hx.
    + destruct (Doc._id m <? Doc._id x) eqn:Hlt.
      * apply Z.ltb_lt in Hlt. intros [= <- <-]. split_and!; [done..|].
        intros [|k] d'; simpl.
        -- intros [= <-] _. lia.
        -- intros Hk Hd'. destruct (Hleast _ _ Hk Hd'). lia.
      * apply Z.ltb_ge in Hlt. intros [= <- <-]. split_and!; [done..|].
        intros [|k] d'; simpl.
        -- intros [= <-] _. lia.
        -- intros Hk Hd'. destruct (Hleast _ _ Hk Hd'). lia.
    + intros [= <- <-]. split_and!; [done..|].
      intros [|k] d'; simpl.
      * intros [= <-]. congruence.
      * intros Hk Hd'. destruct (Hleast _ _ Hk Hd'). lia.
  - apply least_match_None in Hrec. destruct (query x) eqn:Hx; [|done].
    intros [= <- <-]. split_and!; [done..|].
    intros [|k] d'; simpl.
    + intros [= <-] _. lia.
    + intros Hk Hd'. rewrite Forall_lookup in Hrec. specialize (Hrec _ _ Hk).
      simpl in Hrec. congruence.
Qed.

Lemma least_match_Some query col i d :
  Store.least_match query col = Some (i, d) ↔ least query col i d.
Proof.
  split; [apply least_match_least|]. intros Hl.
  destruct (Store.least_match query col) as [[j m]|] eqn:Hrec.
  - apply least_match_least in Hrec.
    by destruct (least_unique _ _ _ _ _ _ Hl Hrec) as [-> ->].
  - apply least_match_None in Hrec. destruct Hl as (Hi & Hq & _).
    rewrite Forall_lookup in Hrec. specialize (Hrec _ _ Hi). simpl in Hrec.
    congruence.
Qed.

Lemma select_Some_lookup s query col i d :
  Store.select s query col = Some (i, d) → col !! i = Some d ∧ query d = true.
Proof.
  destruct s; simpl.
  - intros (? & ? & _)%first_match_Some. done.
  - intros (? & ? & _)%least_match_Some. done.
Qed.

Lemma select_None s query col :
  Store.select s query col = None ↔ Forall (λ d, query d = false) col.
Proof. destruct s; [apply first_match_None | apply least_match_None]. Qed.

Lemma has_id_true i col :
  Store.has_id i col = true ↔ Exists (λ d, Doc._id d = i) col.
Proof.
  unfold Store.has_id. rewrite existsb_exists, Exists_exists.
  split; intros (d & Hin & Hd); exists d.
  - apply list_elem_of_In in Hin. split; [done | lia].
  - apply list_elem_of_In in Hin. split; [done | lia].
Qed.

Lemma has_id_false i col :
  Store.has_id i col = false ↔ Forall (λ d, Doc._id d ≠ i) col.
Proof.
  rewrite <- not_true_iff_false, has_id_true, <- Forall_Exists_neg.
  done.
Qed.

End store_facts.

(** ** The queries, and one level of [get] *)

Section queue_facts.
Implicit Types (d : Doc.t) (db : DB) (e : Env.t) (self : Queue.t).

Lemma is_null_true {A} (o : option A) : is_null o = true ↔ o = None.
Proof. destruct o; simpl; split; congruence. Qed.

Lemma exists_true {A} (o : option A) : exists_ o = true ↔ is_Some o.
Proof.
  destruct o; simpl; split; try done; by intros [??].
Qed.

Lemma get_query_true e d : get_query e d = true ↔ claimable (Queue.now e) d.
Proof.
  unfold get_query, claimable, Queue.now.
  rewrite andb_true_iff, is_null_true, Z.leb_le. done.
Qed.

Lemma get_query_false e d : get_query e d = false ↔ ¬ claimable (Queue.now e) d.
Proof. rewrite <- get_query_true. destruct (get_query e d); intuition congruence. Qed.

Lemma ack_query_true a e d : ack_query a e d = true ↔ leased a (Queue.now e) d.
Proof.
  unfold ack_query, leased, eq_token, Queue.now.
  rewrite !andb_true_iff, is_null_true, Z.ltb_lt, bool_decide_eq_true. tauto.
Qed.

Lemma ack_query_false a e d : ack_query a e d = false ↔ ¬ leased a (Queue.now e) d.
Proof. rewrite <- ack_query_true. destruct (ack_query a e d); intuition congruence. Qed.

Lemma findOneAndUpdate_None c query update s db :
  Forall (λ d, query d = false) (docs db c) →
  Store.findOneAndUpdate c query update s db = (None, db).
Proof.
  intros Hall. unfold Store.findOneAndUpdate.
  by rewrite (proj2 (select_None s query (docs db c)) Hall).
Qed.

Lemma findOneAndUpdate_Some c query update s db i d :
  Store.select s query (docs db c) = Some (i, d) →
  Store.findOneAndUpdate c query update s db =
    (Some (update d), <[c := <[i := update d]> (docs db c)]> db).
Proof. intros Hsel. unfold Store.findOneAndUpdate. by rewrite Hsel. Qed.

(** One level of [get]. *)
Lemma get_S fuel self opts e db :
  Queue.get (S fuel) self opts e db =
    match Store.findOneAndUpdate (Queue.col self) (get_query e)
            (get_update e (js_or (Opts.visibility opts) (Queue.visibility self)))
            ById db with
    | (None, db1) => Some (Ok None, db1)
    | (Some doc, db1) =>
        match Queue.deadQueue self with
        | Some dq =>
            if redirects self (Queue.view doc) then
              match Queue.add dq (Obj (Queue.view doc)) Opts.none (Env.next e) db1 with
              | (Err err, db2) => Some (Err err, db2)
              | (Ok _, db2) =>
                  match Queue.ack self (Doc.ack doc) (Env.next (Env.next e)) db2 with
                  | (Err err, db3) => Some (Err err, db3)
                  | (Ok _, db3) =>
                      Queue.get fuel self Opts.none (Env.next (Env.next (Env.next e))) db3
                  end
              end
            else Some (Ok (Some (Queue.view doc)), db1)
        | None => Some (Ok (Some (Queue.view doc)), db1)
        end
    end.
Proof.
  unfold redirects. cbn [Queue.get]. unfold get_query, get_update.
  destruct (Store.findOneAndUpdate _ _ _ _ _) as [[doc|] db1]; [|done].
  by destruct (Queue.deadQueue self).
Qed.

Lemma get_none fuel self opts e db :
  Forall (λ d, ¬ claimable (Queue.now e) d) (docs db (Queue.col self)) →
  Queue.get (S fuel) self opts e db = Some (Ok None, db).
Proof.
  intros Hall. rewrite get_S, findOneAndUpdate_None; [done|].
  eapply Forall_impl; [exact Hall|]. intros d. apply get_query_false.
Qed.

Lemma get_direct fuel self opts e db i d :
  let d' := get_update e (js_or (Opts.visibility opts) (Queue.visibility self)) d in
  Store.least_match (get_query e) (docs db (Queue.col self)) = Some (i, d) →
  redirects self (Queue.view d') = false →
  Queue.get (S fuel) self opts e db =
    Some (Ok (Some (Queue.view d')),
          <[Queue.col self := <[i := d']> (docs db (Queue.col self))]> db).
Proof.
  intros d' Hsel Hred.
  rewrite get_S, (findOneAndUpdate_Some _ _ _ ById _ i d Hsel). fold d'.
  rewrite Hred. by destruct (Queue.deadQueue self).
Qed.

Lemma get_redirect fuel self opts e db i d :
  let d' := get_update e (js_or (Opts.visibility opts) (Queue.visibility self)) d in
  let db1 := <[Queue.col self := <[i := d']> (docs db (Queue.col self))]> db in
  Store.least_match (get_query e) (docs db (Queue.col self)) = Some (i, d) →
  redirects self (Queue.view d') = true →
  ∃ dq, Queue.deadQueue self = Some dq ∧
  Queue.get (S fuel) self opts e db =
    match Queue.add dq (Obj (Queue.view d')) Opts.none (Env.next e) db1 with
    | (Err err, db2) => Some (Err err, db2)
    | (Ok _, db2) =>
        match Queue.ack self (Doc.ack d') (Env.next (Env.next e)) db2 with
        | (Err err, db3) => Some (Err err, db3)
        | (Ok _, db3) =>
            Queue.get fuel self Opts.none (Env.next (Env.next (Env.next e))) db3
        end
    end.
Proof.
  intros d' db1 Hsel Hred.
  rewrite get_S, (findOneAndUpdate_Some _ _ _ ById _ i d Hsel). fold d' db1.
  rewrite Hred. unfold redirects in Hred.
  destruct (Queue.deadQueue self) as [dq|]; [|done]. by exists dq.
Qed.

End queue_facts.

(** ** Extending and finalizing a lease *)

Section lease_facts.
Implicit Types (d : Doc.t) (db : DB) (e : Env.t) (self : Queue.t).

Lemma ping_eq self a opts e db :
  Queue.ping self a opts e db =
    match Store.findOneAndUpdate (Queue.col self) (ack_query a e)
            (Doc.set_visible
               (Queue.nowPlusSecs e (js_or (Opts.visibility opts) (Queue.visibility self))))
            Natural db with
    | (None, db') => (Err (UnidentifiedAck "ping" a), db')
    | (Some m, db') => (Ok (Doc._id m), db')
    end.
Proof. reflexivity. Qed.

Lemma ack_eq self a e db :
  Queue.ack self a e db =
    match Store.findOneAndUpdate (Queue.col self) (ack_query a e)
            (Doc.set_deleted (Queue.now e)) Natural db with
    | (None, db') => (Err (UnidentifiedAck "ack" a), db')
    | (Some m, db') => (Ok (Doc._id m), db')
    end.
Proof. reflexivity. Qed.

Lemma leased_none_first_match a e db c :
  Forall (λ d, ¬ leased a (Queue.now e) d) (docs db c) →
  Forall (λ d, ack_query a e d = false) (docs db c).
Proof. intros Hall. eapply Forall_impl; [exact Hall|]. intros d. apply ack_query_false. Qed.

Lemma leased_dichotomy a now (col : list Doc.t) :
  Forall (λ d, ¬ leased a now d) col ∨ Exists (leased a now) col.
Proof.
  destruct (Forall_Exists_dec (λ d, ¬ leased a now d) (leased a now)) with (l := col)
    as [Hall|Hex]; [|by left|by right].
  intros d. destruct (ack_query a (Env.mk (λ _, now) (λ _, "") (λ _, 0)) d) eqn:Hq.
  - right. by apply ack_query_true in Hq.
  - left. by apply ack_query_false in Hq.
Qed.

Lemma leased_some_first_match a e db c :
  Exists (leased a (Queue.now e)) (docs db c) →
  ∃ i d, Store.first_match (ack_query a e) (docs db c) = Some (i, d).
Proof.
  intros Hex. destruct (Store.first_match _ _) as [[i d]|] eqn:Hm; [by eauto|].
  apply first_match_None in Hm. apply Exists_exists in Hex as (d & Hin & Hd).
  rewrite Forall_forall in Hm. specialize (Hm d Hin). simpl in Hm.
  by apply ack_query_false in Hm.
Qed.

End lease_facts.

(** ** Idempotent insertion *)

Section insert_facts.
Implicit Types (d : Doc.t) (db : DB) (e : Env.t) (self : Queue.t).

Lemma addIfMissing_eq self x payload opts e db :
  Queue.addIfMissing self x payload opts e db =
    let m := Doc.mk x (Queue.now e + js_or (Opts.delay opts) (Queue.delay self) * 1000)
               payload None None None in
    match Store.first_match (λ d, Doc._id d =? x) (docs db (Queue.col self)) with
    | Some _ => (Ok None, db)
    | None => (Ok None, <[Queue.col self := docs db (Queue.col self) ++ [m]]> db)
    end.
Proof.
  unfold Queue.addIfMissing, Store.updateOne, Queue.msg, Queue.nowPlusSecs.
  fold (Queue.now e).
  destruct (js_or (Opts.delay opts) (Queue.delay self) =? 0) eqn:Hz.
  - apply Z.eqb_eq in Hz. rewrite Hz, Z.mul_0_l, Z.add_0_r.
    by destruct (Store.first_match _ _).
  - by destruct (Store.first_match _ _).
Qed.

Lemma first_match_id_None x (col : list Doc.t) :
  Store.first_match (λ d, Doc._id d =? x) col = None ↔ Forall (λ d, Doc._id d ≠ x) col.
Proof.
  rewrite first_match_None. apply Forall_proper; [|done].
  intros d. simpl. by rewrite Z.eqb_neq.
Qed.

Lemma first_match_id_Some x (col : list Doc.t) :
  Exists (λ d, Doc._id d = x) col →
  ∃ r, Store.first_match (λ d, Doc._id d =? x) col = Some r.
Proof.
  intros Hex. destruct (Store.first_match _ _) as [r|] eqn:Hm; [by eauto|].
  apply first_match_id_None in Hm. apply Exists_exists in Hex as (d & Hin & Hd).
  rewrite Forall_forall in Hm. by specialize (Hm d Hin).
Qed.

Lemma filter_id_absent x (col : list Doc.t) :
  Forall (λ d, Doc._id d ≠ x) col → List.filter (λ d, Doc._id d =? x) col = [].
Proof.
  induction 1 as [|d col Hd _ IH]; simpl; [done|].
  by rewrite (proj2 (Z.eqb_neq _ _) Hd).
Qed.

End insert_facts.

(** ** Adding messages *)

Section add_facts.
Implicit Types (d : Doc.t) (db : DB) (e : Env.t) (self : Queue.t).

Lemma add_eq self payload opts e db :
  Queue.add self payload opts e db =
    let visible := Queue.now e + js_or (Opts.delay opts) (Queue.delay self) * 1000 in
    let ops := imap (λ k m, m (Env.objectId e k)) (Queue.msg visible <$> payloads payload) in
    match payloads payload with
    | [] => (Err ArrayPayloadEmpty, db)
    | _ :: _ =>
        match Store.insert_each (Queue.col self) ops (docs db (Queue.col self)) with
        | (None, col') => (Ok (added_of payload ops), <[Queue.col self := col']> db)
        | (Some err, col') => (Err err, <[Queue.col self := col']> db)
        end
    end.
Proof.
  unfold Queue.add, Store.insertMany, Queue.nowPlusSecs. fold (Queue.now e).
  assert ((if js_or (Opts.delay opts) (Queue.delay self) =? 0 then Queue.now e
           else Queue.now e + js_or (Opts.delay opts) (Queue.delay self) * 1000)
          = Queue.now e + js_or (Opts.delay opts) (Queue.delay self) * 1000) as ->.
  { destruct (_ =? 0) eqn:Hz; [|done]. apply Z.eqb_eq in Hz. lia. }
  destruct payload as [s|[|p items]|m]; cbn [payloads added_of]; [|done| |].
  - by destruct (Store.insert_each _ _ _) as [[err|] col'].
  - by destruct (Store.insert_each _ _ _) as [[err|] col'].
  - by destruct (Store.insert_each _ _ _) as [[err|] col'].
Qed.

Lemma insert_each_spec c (news col : list Doc.t) r col' :
  Store.insert_each c news col = (r, col') →
  ∃ pre, col' = col ++ pre ∧ pre `prefix_of` news ∧ (r = None → pre = news) ∧
         (NoDup (Doc._id <$> col) → NoDup (Doc._id <$> col')).
Proof.
  revert col. induction news as [|d news IH]; intros col; simpl.
  - intros [= <- <-]. exists []. rewrite app_nil_r. done.
  - destruct (Store.has_id (Doc._id d) col) eqn:Hid.
    + intros [= <- <-]. exists []. rewrite app_nil_r.
      split_and!; [done | apply prefix_nil | done | done].
    + intros (pre & -> & Hpre & Hall & Hnd)%IH. exists (d :: pre).
      split_and!; [by rewrite <- app_assoc | by apply prefix_cons | | ].
      * intros Hr. by rewrite (Hall Hr).
      * intros Hcol. apply Hnd. rewrite fmap_app. simpl.
        apply NoDup_app. split_and!; [done | | apply NoDup_singleton].
        intros i Hi [= ->]%list_elem_of_singleton.
        apply has_id_false in Hid. rewrite Forall_forall in Hid.
        apply list_elem_of_fmap in Hi as (d' & Heq & Hin). by apply (Hid d' Hin).
Qed.

Lemma count_filter (query : Doc.t → bool) (P : Doc.t → Prop) `{∀ d, Decision (P d)}
    (col : list Doc.t) :
  (∀ d, query d = true ↔ P d) → Store.count query col = length (filter P col).
Proof.
  intros Hq. unfold Store.count. induction col as [|d col IH]; simpl; [done|].
  rewrite filter_cons. destruct (query d) eqn:Hd.
  - apply Hq in Hd. rewrite decide_True by done. simpl. by rewrite IH.
  - rewrite decide_False; [done|]. rewrite <- Hq. congruence.
Qed.

End add_facts.

(** ** Counting *)

Lemma three_way_count {A} (P Q R : A → Prop)
    `{∀ x, Decision (P x)} `{∀ x, Decision (Q x)} `{∀ x, Decision (R x)} (l : list A) :
  (∀ x, ¬ (P x ∧ Q x)) → (∀ x, ¬ (P x ∧ R x)) → (∀ x, ¬ (Q x ∧ R x)) →
  (length (filter P l) + length (filter Q l) + length (filter R l) ≤ length l)%nat.
Proof.
  intros HPQ HPR HQR. induction l as [|x l IH]; simpl; [done|].
  rewrite !filter_cons.
  destruct (decide (P x)), (decide (Q x)), (decide (R x)); simpl; try lia.
  - by destruct (HPQ x).
  - by destruct (HPQ x).
  - by destruct (HPR x).
  - by destruct (HQR x).
Qed.

(** ** How an operation changes the store *)

Section evolution.
Implicit Types (d : Doc.t) (db : DB) (e : Env.t) (self : Queue.t).
Context (R : relation Doc.t) `{!PreOrder R}.

Lemma evolves_refl db : evolves R db db.
Proof. intros c i d Hi. by exists d. Qed.

Lemma evolves_trans db1 db2 db3 :
  evolves R db1 db2 → evolves R db2 db3 → evolves R db1 db3.
Proof.
  intros H12 H23 c i d Hi. destruct (H12 c i d Hi) as (d2 & Hi2 & HR2).
  destruct (H23 c i d2 Hi2) as (d3 & Hi3 & HR3). exists d3.
  split; [done | by etrans].
Qed.

Lemma evolves_append db c news : evolves R db (<[c := docs db c ++ news]> db).
Proof.
  intros c' i d Hi. exists d. split; [|done].
  destruct (decide (c = c')) as [<-|Hne].
  - rewrite docs_insert_eq. by apply lookup_app_l_Some.
  - by rewrite docs_insert_ne.
Qed.

Lemma evolves_update db c i d d' :
  docs db c !! i = Some d → R d d' →
  evolves R db (<[c := <[i := d']> (docs db c)]> db).
Proof.
  intros Hi HR c' j x Hj.
  destruct (decide (c = c')) as [<-|Hne].
  - rewrite docs_insert_eq. destruct (decide (i = j)) as [<-|Hij].
    + exists d'. rewrite list_lookup_insert_eq by (by eapply lookup_lt_Some).
      split; [done | congruence].
    + exists x. by rewrite list_lookup_insert_ne.
  - exists x. by rewrite docs_insert_ne.
Qed.

Lemma wf_insert db c (col : list Doc.t) :
  wf db → NoDup (Doc._id <$> col) → wf (<[c := col]> db).
Proof.
  intros Hwf Hnd c'. destruct (decide (c = c')) as [<-|Hne].
  - by rewrite docs_insert_eq.
  - rewrite docs_insert_ne by done. apply Hwf.
Qed.

Lemma wf_update db c i d d' :
  wf db → docs db c !! i = Some d → Doc._id d' = Doc._id d →
  wf (<[c := <[i := d']> (docs db c)]> db).
Proof.
  intros Hwf Hi Hid. apply wf_insert; [done|].
  rewrite list_fmap_insert, Hid, list_insert_id; [apply Hwf|].
  by rewrite list_lookup_fmap, Hi.
Qed.

Lemma findOneAndUpdate_inv c query update s db :
  (∀ d, query d = true → R d (update d)) →
  (∀ d, Doc._id (update d) = Doc._id d) →
  let db' := (Store.findOneAndUpdate c query update s db).2 in
  evolves R db db' ∧ (wf db → wf db').
Proof.
  intros HR Hid. unfold Store.findOneAndUpdate.
  destruct (Store.select s query (docs db c)) as [[i d]|] eqn:Hsel; simpl.
  - apply select_Some_lookup in Hsel as [Hi Hq]. split.
    + eapply evolves_update; eauto.
    + intros Hwf. eapply wf_update; eauto.
  - split; [apply evolves_refl | done].
Qed.

Lemma add_inv self payload opts e db :
  let db' := (Queue.add self payload opts e db).2 in
  evolves R db db' ∧ (wf db → wf db').
Proof.
  rewrite add_eq. cbv zeta. destruct (payloads payload) as [|p ps] eqn:Hp.
  { split; [apply evolves_refl | done]. }
  destruct (Store.insert_each _ _ _) as [r col'] eqn:Hins.
  apply insert_each_spec in Hins as (pre & -> & _ & _ & Hnd).
  assert (evolves R db (<[Queue.col self := docs db (Queue.col self) ++ pre]> db)
          ∧ (wf db → wf (<[Queue.col self := docs db (Queue.col self) ++ pre]> db)))
    as Hgoal.
  { split; [apply evolves_append|]. intros Hwf. apply wf_insert; [done|].
    apply Hnd, Hwf. }
  by destruct r.
Qed.

Lemma addIfMissing_inv self x payload opts e db :
  let db' := (Queue.addIfMissing self x payload opts e db).2 in
  evolves R db db' ∧ (wf db → wf db').
Proof.
  rewrite addIfMissing_eq. cbv zeta.
  destruct (Store.first_match _ _) as [r|] eqn:Hm; simpl.
  { split; [apply evolves_refl | done]. }
  split; [apply evolves_append|]. intros Hwf. apply wf_insert; [done|].
  rewrite fmap_app. simpl. apply NoDup_app. split_and!; [apply Hwf | | apply NoDup_singleton].
  intros i Hi [= ->]%list_elem_of_singleton.
  apply first_match_id_None in Hm. rewrite Forall_forall in Hm.
  apply list_elem_of_fmap in Hi as (d' & Heq & Hin). by apply (Hm d' Hin).
Qed.

Lemma ping_inv self a opts e db :
  (∀ d, leased a (Queue.now e) d →
        R d (Doc.set_visible (Queue.now e
               + js_or (Opts.visibility opts) (Queue.visibility self) * 1000) d)) →
  let db' := (Queue.ping self a opts e db).2 in
  evolves R db db' ∧ (wf db → wf db').
Proof.
  intros HR. rewrite ping_eq.
  pose proof (findOneAndUpdate_inv (Queue.col self) (ack_query a e)
    (Doc.set_visible
       (Queue.nowPlusSecs e (js_or (Opts.visibility opts) (Queue.visibility self))))
    Natural db) as Hinv.
  destruct (Store.findOneAndUpdate _ _ _ _ _) as [[m|] db1]; simpl in *;
    apply Hinv; try done; intros d Hq%ack_query_true; by apply HR.
Qed.

Lemma ack_inv self a e db :
  (∀ d, leased a (Queue.now e) d → R d (Doc.set_deleted (Queue.now e) d)) →
  let db' := (Queue.ack self a e db).2 in
  evolves R db db' ∧ (wf db → wf db').
Proof.
  intros HR. rewrite ack_eq.
  pose proof (findOneAndUpdate_inv (Queue.col self) (ack_query a e)
    (Doc.set_deleted (Queue.now e)) Natural db) as Hinv.
  destruct (Store.findOneAndUpdate _ _ _ _ _) as [[m|] db1]; simpl in *;
    apply Hinv; try done; intros d Hq%ack_query_true; by apply HR.
Qed.

Lemma cancel_inv self x e db :
  (∀ d, claimable (Queue.now e) d → R d (Doc.set_deleted (Queue.now e) d)) →
  let db' := (Queue.cancel self x e db).2 in
  evolves R db db' ∧ (wf db → wf db').
Proof.
  intros HR. unfold Queue.cancel.
  match goal with
  | |- context [Store.findOneAndUpdate ?c ?q ?u ?s ?db] =>
      pose proof (findOneAndUpdate_inv c q u s db) as Hinv;
      destruct (Store.findOneAndUpdate c q u s db) as [[m|] db1]
  end; simpl in *; apply Hinv; try done; intros d Hq;
    apply HR; unfold claimable, Queue.now in *;
    rewrite !andb_true_iff, is_null_true, Z.leb_le in Hq; tauto.
Qed.

End evolution.

Section get_facts.
Implicit Types (d : Doc.t) (db : DB) (e : Env.t) (self : Queue.t).

Lemma get_update_id e vis d : Doc._id (get_update e vis d) = Doc._id d.
Proof. done. Qed.

Lemma get_update_deleted e vis d : Doc.deleted (get_update e vis d) = Doc.deleted d.
Proof. done. Qed.

Lemma get_update_visible e vis d :
  Doc.visible (get_update e vis d) = Queue.now e + vis * 1000.
Proof. done. Qed.

(** What every level of one [get] does to the documents: a claim of a
    claimable document, with the visibility of the call or of the queue,
    and the finalizing of a leased one. *)
Lemma get_inv (R : relation Doc.t) `{!PreOrder R} fuel self opts e db r db' :
  (∀ e' vis d,
     vis = js_or (Opts.visibility opts) (Queue.visibility self) ∨
     vis = Queue.visibility self →
     claimable (Queue.now e') d → R d (get_update e' vis d)) →
  (∀ now a d, leased a now d → R d (Doc.set_deleted now d)) →
  Queue.get fuel self opts e db = Some (r, db') →
  evolves R db db' ∧ (wf db → wf db').
Proof.
  revert opts e db. induction fuel as [|fuel IH]; intros opts e db Hclaim Hdel; [done|].
  rewrite get_S.
  pose proof (findOneAndUpdate_inv R (Queue.col self) (get_query e)
    (get_update e (js_or (Opts.visibility opts) (Queue.visibility self))) ById db)
    as [Hev1 Hwf1].
  { intros d Hq%get_query_true. apply Hclaim; auto. }
  { done. }
  destruct (Store.findOneAndUpdate _ _ _ _ _) as [[doc|] db1]; simpl in Hev1, Hwf1.
  2:{ by intros [= <- <-]. }
  destruct (Queue.deadQueue self) as [dq|]; [|by intros [= <- <-]].
  destruct (redirects self (Queue.view doc)); [|by intros [= <- <-]].
  pose proof (add_inv R dq (Obj (Queue.view doc)) Opts.none (Env.next e) db1)
    as [Hev2 Hwf2].
  destruct (Queue.add dq _ _ _ _) as [[?|err] db2]; simpl in Hev2, Hwf2.
  2:{ intros [= <- <-]. split; [by eapply evolves_trans | auto]. }
  pose proof (ack_inv R self (Doc.ack doc) (Env.next (Env.next e)) db2 (Hdel _ _))
    as [Hev3 Hwf3].
  destruct (Queue.ack self _ _ _) as [[?|err] db3]; simpl in Hev3, Hwf3.
  2:{ intros [= <- <-]. split; [|by auto].
      eapply evolves_trans; [done | | done]. by eapply evolves_trans. }
  intros Hget. apply IH in Hget as [Hev4 Hwf4].
  - split; [|by auto].
    eapply evolves_trans; [done | | done].
    eapply evolves_trans; [done | | done]. by eapply evolves_trans.
  - intros e' vis d Hvis. apply Hclaim.
    right. by destruct Hvis as [-> | ->].
  - done.
Qed.

(** The message [get] returns is, in the store it leaves, a document
    that is not finalized and that [get] does not forward; its lease
    runs from the instant of the call that claimed it: for the
    visibility of the call when that is the first one, and for the
    visibility of the queue when it is a chained one. *)
Lemma get_returned fuel self opts e db m db' :
  Queue.get fuel self opts e db = Some (Ok (Some m), db') →
  ∃ i d' k vis,
    docs db' (Queue.col self) !! i = Some d' ∧ Queue.view d' = m ∧
    Doc.deleted d' = None ∧ is_Some (Doc.tries d') ∧ redirects self m = false ∧
    Doc.visible d' = Env.clock e k + vis * 1000 ∧
    (k = O ∧ vis = js_or (Opts.visibility opts) (Queue.visibility self) ∨
     k ≠ O ∧ vis = Queue.visibility self) ∧
    (fuel = 1%nat → k = O).
Proof.
  revert opts e db. induction fuel as [|fuel IH]; intros opts e db; [done|].
  rewrite get_S. unfold Store.findOneAndUpdate.
  destruct (Store.select ById _ _) as [[i d]|] eqn:Hsel; [|done].
  apply select_Some_lookup in Hsel as [Hi [Hdel _]%get_query_true].
  set (d' := get_update e (js_or (Opts.visibility opts) (Queue.visibility self)) d).
  assert (Queue.deadQueue self = None ∨ redirects self (Queue.view d') = false →
          Some (Ok (Some (Queue.view d')),
                <[Queue.col self := <[i := d']> (docs db (Queue.col self))]> db)
            = Some (Ok (Some m), db') →
          ∃ i d' k vis,
            docs db' (Queue.col self) !! i = Some d' ∧ Queue.view d' = m ∧
            Doc.deleted d' = None ∧ is_Some (Doc.tries d') ∧ redirects self m = false ∧
            Doc.visible d' = Env.clock e k + vis * 1000 ∧
            (k = O ∧ vis = js_or (Opts.visibility opts) (Queue.visibility self) ∨
             k ≠ O ∧ vis = Queue.visibility self) ∧
            (S fuel = 1%nat → k = O))
    as Hdirect.
  { intros Hno [= <- <-].
    exists i, d', O, (js_or (Opts.visibility opts) (Queue.visibility self)).
    rewrite docs_insert_eq, list_lookup_insert_eq by (by eapply lookup_lt_Some).
    split_and!; [done..|by eexists| |done|by left|done].
    destruct Hno as [Hno|Hno]; [|done]. unfold redirects. by rewrite Hno. }
  destruct (Queue.deadQueue self) as [dq|] eqn:Hdq; [|by apply Hdirect; left].
  destruct (redirects self (Queue.view d')) eqn:Hred; [|by apply Hdirect; right].
  destruct (Queue.add dq _ _ _ _) as [[?|err] db2]; [|done].
  destruct (Queue.ack self _ _ _) as [[?|err] db3]; [|done].
  intros Hget.
  pose proof Hget as (j & d2 & k & vis & Hj & Hview & Hd2 & Ht2 & Hred2 & Hvis & Hor & _)%IH.
  exists j, d2, (3 + k)%nat, vis. split_and!; [done..| |].
  - right. split; [lia|]. by destruct Hor as [[_ ->] | [_ ->]].
  - intros [= ->]. done.
Qed.

(** A [get] that returns a message without calling itself has claimed
    the least claimable document. *)
Lemma get_1_returned self opts e db m db' :
  let c := Queue.col self in
  let d' d := get_update e (js_or (Opts.visibility opts) (Queue.visibility self)) d in
  Queue.get 1 self opts e db = Some (Ok (Some m), db') →
  ∃ i d,
    least (get_query e) (docs db c) i d ∧ m = Queue.view (d' d) ∧
    db' = <[c := <[i := d' d]> (docs db c)]> db.
Proof.
  intros c d'. rewrite get_S. unfold Store.findOneAndUpdate. simpl Store.select.
  destruct (Store.least_match _ _) as [[i d]|] eqn:Hsel; [|done].
  apply least_match_Some in Hsel. fold c (d' d).
  assert (Some (Ok (Some (Queue.view (d' d))), <[c := <[i := d' d]> (docs db c)]> db)
            = Some (Ok (Some m), db') →
          ∃ i d, least (get_query e) (docs db c) i d ∧ m = Queue.view (d' d) ∧
                 db' = <[c := <[i := d' d]> (docs db c)]> db) as Hdirect.
  { intros [= <- <-]. by exists i, d. }
  destruct (Queue.deadQueue self) as [dq|]; [|done].
  destruct (redirects self (Queue.view (d' d))); [|done].
  destruct (Queue.add dq _ _ _ _) as [[?|err] db2]; [|done].
  by destruct (Queue.ack self _ _ _) as [[?|err] db3].
Qed.

Lemma clean_wf self db : wf db → wf (Queue.clean self db).2.
Proof.
  intros Hwf. unfold Queue.clean, Store.deleteMany. simpl.
  apply wf_insert; [done|].
  specialize (Hwf (Queue.col self)).
  induction (docs db (Queue.col self)) as [|d col IH]; simpl; [done|].
  simpl in Hwf. apply NoDup_cons in Hwf as [Hd Hnd].
  destruct (negb _); simpl; [|by auto].
  apply NoDup_cons. split; [|by auto].
  intros (d' & Hid & Hin%list_elem_of_In)%list_elem_of_fmap.
  apply filter_In in Hin as [Hin%list_elem_of_In _].
  apply Hd, list_elem_of_fmap. eauto.
Qed.

End get_facts.

(** ** The queue as a transition system *)

#[local] Instance keeps_finalized_preorder : PreOrder keeps_finalized.
Proof.
  split.
  - by intros d _.
  - intros d1 d2 d3 H12 H23 Hd. rewrite (H23 ltac:(by rewrite (H12 Hd))). auto.
Qed.

#[local] Instance any_preorder : PreOrder (λ _ _ : Doc.t, True).
Proof. by split. Qed.

Section transition_facts.
Implicit Types (d : Doc.t) (db : DB) (e : Env.t) (self : Queue.t).

Lemma respects_keeps_finalized : respects keeps_finalized.
Proof.
  split_and!.
  - intros e vis d [Hd _] [t Ht]. congruence.
  - intros now a vis d (_ & _ & Hd) [t Ht]. congruence.
  - intros now d Hd [t Ht]. congruence.
Qed.

Lemma run_inv (R : relation Doc.t) `{!PreOrder R} k e db db' :
  respects R → run k e db = Some db' →
  (is_clean k = false → evolves R db db') ∧ (wf db → wf db').
Proof.
  intros (Hclaim & Hping & Hdel) Hrun. destruct k; simpl in Hrun.
  - injection Hrun as <-.
    destruct (add_inv R self payload opts e db) as [??]. done.
  - injection Hrun as <-.
    destruct (addIfMissing_inv R self id payload opts e db) as [??]. done.
  - destruct (Queue.get _ _ _ _ _) as [[r db1]|] eqn:Hget; [|done].
    injection Hrun as <-. eapply (get_inv R) in Hget as [??]; [done| |].
    + intros e' vis d _. by apply Hclaim.
    + intros now a d (_ & _ & Hd). by apply Hdel.
  - injection Hrun as <-.
    destruct (ping_inv R self ack opts e db) as [??]; [|done].
    intros d. apply Hping.
  - injection Hrun as <-.
    destruct (ack_inv R self ack e db) as [??]; [|done].
    intros d (_ & _ & Hd). by apply Hdel.
  - injection Hrun as <-.
    destruct (cancel_inv R self id e db) as [??]; [|done].
    intros d [Hd _]. by apply Hdel.
  - injection Hrun as <-. split; [done|]. apply clean_wf.
Qed.

Lemma reachable_wf db : reachable db → wf db.
Proof.
  induction 1 as [|k e db db' _ IH Hrun].
  - intros c. rewrite docs_empty. constructor.
  - eapply (run_inv (λ _ _, True)) in Hrun as [_ Hwf]; [by auto|].
    by split_and!.
Qed.

End transition_facts.

(** ** Forwarding to the dead queue *)

Section forward_facts.
Implicit Types (d : Doc.t) (db : DB) (e : Env.t) (self : Queue.t).

(** [add] of one payload that is not an Array, under a fresh identifier. *)
Lemma add_one self payload e db :
  let c := Queue.col self in
  let m := Doc.mk (Env.objectId e O) (Queue.now e + Queue.delay self * 1000) payload
             None None None in
  payloads payload = [payload] →
  Forall (λ x, Doc._id x ≠ Env.objectId e O) (docs db c) →
  Queue.add self payload Opts.none e db =
    (Ok (added_of payload [m]), <[c := docs db c ++ [m]]> db).
Proof.
  intros c m Hp Hfresh. rewrite add_eq. cbv zeta. rewrite Hp. simpl.
  fold c. by rewrite (proj2 (has_id_false _ _) Hfresh).
Qed.

(** The queue's collection after the dead queue's [add], up to the
    length it had. *)
Lemma lookup_after_dead_add db c cd (col : list Doc.t) news j :
  (j < length col)%nat →
  docs (<[cd := docs (<[c := col]> db) cd ++ news]> (<[c := col]> db)) c !! j = col !! j.
Proof.
  intros Hj. destruct (decide (cd = c)) as [->|Hne].
  - rewrite !docs_insert_eq. by apply lookup_app_l.
  - by rewrite docs_insert_ne, docs_insert_eq.
Qed.

End forward_facts.

(** ** The instant a message becomes visible *)

#[local] Instance not_earlier_preorder : PreOrder not_earlier.
Proof.
  split.
  - intros d. unfold not_earlier. lia.
  - intros d1 d2 d3. unfold not_earlier. lia.
Qed.

(** ** Options of a call, and the start of a message *)

#[local] Instance same_tries_preorder : PreOrder same_tries.
Proof.
  split.
  - by intros d.
  - intros d1 d2 d3 H12 H23. unfold same_tries in *. congruence.
Qed.

Section start_facts.
Implicit Types (d : Doc.t) (db : DB) (e : Env.t) (self : Queue.t).

(** [add] appends its messages to the queue's collection: all of them
    when it succeeds, and each with one of the payloads, pending and
    visible at [now + delay]. *)
Lemma add_appends self payload opts e db :
  let c := Queue.col self in
  let visible := Queue.now e + js_or (Opts.delay opts) (Queue.delay self) * 1000 in
  let r := Queue.add self payload opts e db in
  ∃ news,
    docs r.2 c = docs db c ++ news
    ∧ Forall (λ m, pending_at visible m ∧ Doc.payload m ∈ payloads payload) news
    ∧ (is_ok r.1 = true → length news = length (payloads payload) ∧ news ≠ []).
Proof.
  intros c visible r. unfold r. rewrite add_eq. fold c visible. cbv zeta.
  destruct (payloads payload) as [|p ps] eqn:Hp.
  { exists []. simpl. rewrite app_nil_r. split_and!; [done | constructor | done]. }
  rewrite <- Hp.
  set (ops := imap _ _).
  assert (Forall (λ m, pending_at visible m ∧ Doc.payload m ∈ payloads payload) ops)
    as Hops.
  { apply Forall_lookup_2. intros k m. unfold ops.
    rewrite list_lookup_imap, list_lookup_fmap.
    destruct (payloads payload !! k) as [pk|] eqn:Hk; [|done].
    intros [= <-]. simpl. split; [done|]. by eapply list_elem_of_lookup_2. }
  assert (length ops = length (payloads payload)) as Hlen.
  { unfold ops. by rewrite length_imap, length_fmap. }
  destruct (Store.insert_each c ops (docs db c)) as [err col'] eqn:Hins.
  apply insert_each_spec in Hins as (pre & -> & [rest Hrest] & Hall & _).
  assert (Forall (λ m, pending_at visible m ∧ Doc.payload m ∈ payloads payload) pre)
    as Hpre.
  { rewrite Hrest in Hops. by apply Forall_app in Hops as [? _]. }
  exists pre. destruct err as [err|]; simpl; rewrite docs_insert_eq.
  - split_and!; [done..|]. done.
  - split_and!; [done..|]. intros _. rewrite (Hall eq_refl). split; [done|].
    intros Hnil. by rewrite Hnil, Hp in Hlen.
Qed.

Lemma run_same_tries k e db db' :
  match k with Get _ _ _ | Clean _ => False | _ => True end →
  run k e db = Some db' → evolves same_tries db db'.
Proof.
  intros Hk Hrun. destruct k; simpl in Hrun; try done; injection Hrun as <-.
  - by destruct (add_inv same_tries self payload opts e db).
  - by destruct (addIfMissing_inv same_tries self id payload opts e db).
  - by destruct (ping_inv same_tries self ack opts e db).
  - by destruct (ack_inv same_tries self ack e db).
  - by destruct (cancel_inv same_tries self id e db).
Qed.

End start_facts.

Section fuel_facts.
Implicit Types (d : Doc.t) (db : DB) (e : Env.t) (self : Queue.t).

(** [fuel] is a bound only: a call that has returned within it returns
    the same within any larger one. *)
Lemma get_fuel_mono fuel fuel' self opts e db r :
  (fuel ≤ fuel')%nat →
  Queue.get fuel self opts e db = Some r → Queue.get fuel' self opts e db = Some r.
Proof.
  revert fuel' opts e db. induction fuel as [|fuel IH]; intros fuel' opts e db Hle; [done|].
  destruct fuel' as [|fuel']; [lia|]. rewrite !get_S.
  destruct (Store.findOneAndUpdate _ _ _ _ _) as [[doc|] db1]; [|done].
  destruct (Queue.deadQueue self) as [dq|]; [|done].
  destruct (redirects self (Queue.view doc)); [|done].
  destruct (Queue.add dq _ _ _ _) as [[?|err] db2]; [|done].
  destruct (Queue.ack self _ _ _) as [[?|err] db3]; [|done].
  apply IH. lia.
Qed.

Lemma js_or_Some v b : v ≠ 0 → js_or (Some v) b = v.
Proof. intros Hv. simpl. by rewrite (proj2 (Z.eqb_neq _ _) Hv). Qed.

End fuel_facts.

(** ** Termination of [get] *)

Section termination.
Implicit Types (d : Doc.t) (db : DB) (e : Env.t) (self : Queue.t).

Lemma count_insert_same (query : Doc.t → bool) (col : list Doc.t) i d d' :
  col !! i = Some d → query d' = query d →
  Store.count query (<[i := d']> col) = Store.count query col.
Proof.
  unfold Store.count. revert i. induction col as [|x col IH]; intros [|i]; simpl; try done.
  - intros [= ->] ->. by destruct (query d).
  - intros Hi Hq. destruct (query x); simpl; by rewrite (IH i Hi Hq).
Qed.

Lemma count_insert_drop (query : Doc.t → bool) (col : list Doc.t) i d d' :
  col !! i = Some d → query d = true → query d' = false →
  S (Store.count query (<[i := d']> col)) = Store.count query col.
Proof.
  unfold Store.count. revert i. induction col as [|x col IH]; intros [|i]; simpl; try done.
  - intros [= ->] -> ->. done.
  - intros Hi Hq Hq'. destruct (query x); simpl; by rewrite <- (IH i Hi Hq Hq').
Qed.

Lemma add_other self payload opts e db c' :
  c' ≠ Queue.col self → docs (Queue.add self payload opts e db).2 c' = docs db c'.
Proof.
  intros Hne. rewrite add_eq. cbv zeta.
  destruct (payloads payload); [done|].
  destruct (Store.insert_each _ _ _) as [[err|] col']; simpl; by rewrite docs_insert_ne.
Qed.

(** When the dead queue has a collection of its own, every forwarding
    finalizes one more message of the queue: a [get] returns within as
    many further calls as the collection has messages not finalized. *)
Lemma get_returns fuel self opts e db :
  (∀ dq, Queue.deadQueue self = Some dq → Queue.col dq ≠ Queue.col self) →
  (undeleted (docs db (Queue.col self)) < fuel)%nat →
  is_Some (Queue.get fuel self opts e db).
Proof.
  intros Hown. revert opts e db.
  induction fuel as [|fuel IH]; intros opts e db Hfuel; [lia|].
  rewrite get_S. unfold Store.findOneAndUpdate.
  destruct (Store.select ById _ _) as [[i d]|] eqn:Hsel; [|by eexists].
  apply select_Some_lookup in Hsel as [Hi [Hdel _]%get_query_true].
  set (d' := get_update e _ d).
  destruct (Queue.deadQueue self) as [dq|] eqn:Hdq; [|by eexists].
  destruct (redirects self (Queue.view d')); [|by eexists].
  assert (Queue.col self ≠ Queue.col dq) as Hne.
  { intros Heq. by apply (Hown dq). }
  pose proof (add_other dq (Obj (Queue.view d')) Opts.none (Env.next e)
    (<[Queue.col self := <[i := d']> (docs db (Queue.col self))]> db) (Queue.col self)
    Hne) as Hsame.
  destruct (Queue.add dq _ _ _ _) as [[?|err] db2]; [|by eexists].
  simpl in Hsame. rewrite docs_insert_eq in Hsame.
  rewrite ack_eq. unfold Store.findOneAndUpdate.
  destruct (Store.select Natural _ _) as [[j x]|] eqn:Hack; [|by eexists].
  apply select_Some_lookup in Hack as [Hj (_ & _ & Hx)%ack_query_true].
  apply IH. rewrite docs_insert_eq. unfold undeleted in *.
  assert (S (Store.count (λ d, is_null (Doc.deleted d))
               (<[j := Doc.set_deleted (Queue.now (Env.next (Env.next e))) x]>
                  (docs db2 (Queue.col self))))
          = Store.count (λ d, is_null (Doc.deleted d)) (docs db (Queue.col self))) as Hdrop.
  { rewrite (count_insert_drop _ _ j x) by (done || by rewrite Hx).
    rewrite Hsame. by apply count_insert_same with (d := d). }
  lia.
Qed.

End termination.

(** ** Batches *)

Section batch_facts.
Implicit Types (d : Doc.t) (db : DB) (e : Env.t) (self : Queue.t).

Lemma insert_each_fresh c (news col : list Doc.t) :
  NoDup (Doc._id <$> news) →
  Forall (λ d, Doc._id d ∉ Doc._id <$> news) col →
  Store.insert_each c news col = (None, col ++ news).
Proof.
  revert col. induction news as [|d news IH]; intros col Hnd Hcol; simpl.
  { by rewrite app_nil_r. }
  rewrite fmap_cons in Hnd. apply NoDup_cons in Hnd as [Hd Hnd].
  rewrite (proj2 (has_id_false (Doc._id d) col)).
  - rewrite IH, <- app_assoc; [done..|].
    apply Forall_app. split.
    + eapply Forall_impl; [exact Hcol|]. intros x Hx Hin. apply Hx.
      rewrite fmap_cons. by apply list_elem_of_further.
    + by apply Forall_singleton.
  - eapply Forall_impl; [exact Hcol|]. intros x Hx Heq. apply Hx.
    rewrite fmap_cons, Heq. apply list_elem_of_here.
Qed.

Lemma insert_each_err c (news col : list Doc.t) err col' :
  Store.insert_each c news col = (Some err, col') →
  ∃ d, d ∈ news ∧ err = DuplicateKey c (Doc._id d) ∧
       Exists (λ x, Doc._id x = Doc._id d) col'.
Proof.
  revert col. induction news as [|d news IH]; intros col; simpl; [done|].
  destruct (Store.has_id (Doc._id d) col) eqn:Hid.
  - intros [= <- <-]. exists d. split_and!; [apply list_elem_of_here | done|].
    by apply has_id_true.
  - intros (d' & Hin & -> & Hex)%IH. exists d'.
    split_and!; [by apply list_elem_of_further | done..].
Qed.

Lemma imap_new_docs (g : nat → ident) visible (ps : list value) o :
  imap (λ k p, Doc.mk (g (o + k)%nat) visible p None None None) ps
  = new_docs (g <$> seq o (length ps)) visible ps.
Proof.
  revert o. induction ps as [|p ps IH]; intros o; [done|].
  rewrite imap_cons. simpl. rewrite Nat.add_0_r. unfold new_docs. simpl. f_equal.
  etrans; [|exact (IH (S o))]. apply imap_ext. intros k x _. simpl.
  by replace (o + S k)%nat with (S (o + k)) by lia.
Qed.

Lemma add_ops e visible (ps : list value) :
  imap (λ k m, m (Env.objectId e k)) (Queue.msg visible <$> ps)
  = new_docs (generated e (length ps)) visible ps.
Proof.
  rewrite imap_fmap. unfold generated.
  rewrite <- (imap_new_docs (Env.objectId e) visible ps 0). by apply imap_ext.
Qed.

Lemma new_docs_ids ids visible (ps : list value) :
  length ids = length ps → Doc._id <$> new_docs ids visible ps = ids.
Proof.
  revert ps. induction ids as [|i ids IH]; intros [|p ps]; simpl; try done.
  intros [= Hlen]. unfold new_docs in *. simpl. by rewrite IH.
Qed.

Lemma generated_length e n : length (generated e n) = n.
Proof. unfold generated. by rewrite length_fmap, length_seq. Qed.

Lemma payloads_nil payload : payloads payload = [] ↔ payload = Arr [].
Proof. destruct payload as [s|[|p ps]|m]; simpl; split; congruence. Qed.

Lemma add_fresh self payload opts e db :
  let c := Queue.col self in
  let visible := Queue.now e + js_or (Opts.delay opts) (Queue.delay self) * 1000 in
  let ps := payloads payload in
  let ids := generated e (length ps) in
  payload ≠ Arr [] →
  NoDup ids →
  Forall (λ d, Doc._id d ∉ ids) (docs db c) →
  Queue.add self payload opts e db =
    (Ok (added_ids payload ids), <[c := docs db c ++ new_docs ids visible ps]> db).
Proof.
  intros c visible ps ids Hne Hnd Hfresh.
  assert (Doc._id <$> new_docs ids visible ps = ids) as Hids
    by apply new_docs_ids, generated_length.
  assert (Store.insert_each c (new_docs ids visible ps) (docs db c)
          = (None, docs db c ++ new_docs ids visible ps)) as Hins.
  { apply insert_each_fresh; by rewrite Hids. }
  rewrite add_eq. cbv zeta. fold c. rewrite add_ops. fold visible ps ids.
  rewrite Hins. unfold added_of, added_ids.
  destruct payload as [s|[|p l]|m]; try done.
  by rewrite Hids.
Qed.

Lemma new_docs_pending ids visible (ps : list value) :
  Forall (pending_at visible) (new_docs ids visible ps).
Proof.
  unfold new_docs. revert ps.
  induction ids as [|i ids IH]; intros [|p ps]; simpl; try constructor; [done|apply IH].
Qed.

End batch_facts.

(** ** Cancelling and cleaning *)

Section cancel_clean_facts.
Implicit Types (d : Doc.t) (db : DB) (e : Env.t) (self : Queue.t).

Lemma cancel_eq self x e db :
  Queue.cancel self x e db =
    match Store.findOneAndUpdate (Queue.col self) (cancel_query x e)
            (Doc.set_deleted (Queue.now e)) Natural db with
    | (None, db') => (Err (UnidentifiedId x), db')
    | (Some _, db') => (Ok tt, db')
    end.
Proof. reflexivity. Qed.

Lemma cancel_query_true x e d :
  cancel_query x e d = true ↔ cancelable x (Queue.now e) d.
Proof.
  unfold cancel_query, cancelable, claimable.
  rewrite !andb_true_iff, Z.eqb_eq, is_null_true, Z.leb_le. tauto.
Qed.

Lemma cancel_query_false x e d :
  cancel_query x e d = false ↔ ¬ cancelable x (Queue.now e) d.
Proof. rewrite <- cancel_query_true. destruct (cancel_query x e d); intuition congruence. Qed.

Lemma kept_true d : kept d = true ↔ ¬ finalized d.
Proof.
  unfold kept, finalized. destruct (Doc.deleted d) as [t|]; simpl.
  - split; [done|]. intros H. destruct H. by eexists.
  - split; [|done]. intros _ [? ?]. done.
Qed.

Lemma clean_eq self db :
  Queue.clean self db =
    (Ok (Store.count (λ d, exists_ (Doc.deleted d)) (docs db (Queue.col self))),
     <[Queue.col self := List.filter kept (docs db (Queue.col self))]> db).
Proof. reflexivity. Qed.

Lemma List_filter_filter (q : Doc.t → bool) (P : Doc.t → Prop) `{∀ d, Decision (P d)}
    (col : list Doc.t) :
  (∀ d, q d = true ↔ P d) → List.filter q col = filter P col.
Proof.
  intros Hq. induction col as [|d col IH]; simpl; [done|].
  rewrite filter_cons. destruct (q d) eqn:Hd.
  - apply Hq in Hd. rewrite decide_True by done. by rewrite IH.
  - rewrite decide_False; [done|]. rewrite <- Hq. congruence.
Qed.

Lemma count_filter_keep (q keep : Doc.t → bool) (col : list Doc.t) :
  (∀ d, q d = true → keep d = true) →
  Store.count q (List.filter keep col) = Store.count q col.
Proof.
  intros Himp. unfold Store.count. induction col as [|d col IH]; simpl; [done|].
  destruct (keep d) eqn:Hk; simpl.
  - destruct (q d); simpl; by rewrite IH.
  - destruct (q d) eqn:Hq; [|done]. apply Himp in Hq. congruence.
Qed.

Lemma count_filter_drop (q : Doc.t → bool) (col : list Doc.t) :
  Store.count q (List.filter (λ d, negb (q d)) col) = O.
Proof.
  unfold Store.count. induction col as [|d col IH]; simpl; [done|].
  destruct (q d) eqn:Hq; simpl; [done|]. by rewrite Hq.
Qed.

Lemma length_filter_split (q : Doc.t → bool) (col : list Doc.t) :
  (length (List.filter (λ d, negb (q d)) col) + Store.count q col = length col)%nat.
Proof.
  unfold Store.count. induction col as [|d col IH]; simpl; [done|].
  destruct (q d); simpl; lia.
Qed.

Lemma filter_kept_idem (col : list Doc.t) :
  List.filter kept (List.filter kept col) = List.filter kept col.
Proof.
  induction col as [|d col IH]; simpl; [done|].
  destruct (kept d) eqn:Hk; simpl; [|done]. by rewrite Hk, IH.
Qed.

(** A query that asks for [deleted] null picks the same document in a
    collection and in what [clean] keeps of it. *)
Lemma select_filter_kept s (q : Doc.t → bool) (col : list Doc.t) :
  (∀ d, q d = true → kept d = true) →
  snd <$> Store.select s q (List.filter kept col) = snd <$> Store.select s q col.
Proof.
  intros Himp. destruct s; simpl.
  - induction col as [|x col IH]; simpl; [done|].
    destruct (kept x) eqn:Hk; simpl.
    + destruct (q x); [done|].
      destruct (Store.first_match q (List.filter kept col)) as [[??]|],
        (Store.first_match q col) as [[??]|]; simpl in *; congruence.
    + destruct (q x) eqn:Hq; [apply Himp in Hq; congruence|].
      rewrite IH. by destruct (Store.first_match q col) as [[??]|].
  - induction col as [|x col IH]; simpl; [done|].
    destruct (kept x) eqn:Hk; simpl.
    + destruct (Store.least_match q (List.filter kept col)) as [[j m]|],
        (Store.least_match q col) as [[j' m']|]; simpl in *;
        destruct (q x); simpl; try done; simplify_eq/=; try done.
      by destruct (Doc._id m' <? Doc._id x).
    + destruct (q x) eqn:Hq; [apply Himp in Hq; congruence|].
      rewrite IH. by destruct (Store.least_match q col) as [[??]|].
Qed.

Lemma findOneAndUpdate_result c q u s db :
  (Store.findOneAndUpdate c q u s db).1 = u <$> (snd <$> Store.select s q (docs db c)).
Proof.
  unfold Store.findOneAndUpdate. by destruct (Store.select s q (docs db c)) as [[??]|].
Qed.

Lemma docs_clean self db c :
  docs (Queue.clean self db).2 c =
    if decide (c = Queue.col self) then List.filter kept (docs db c) else docs db c.
Proof.
  rewrite clean_eq. simpl. destruct (decide (c = Queue.col self)) as [->|Hne].
  - by rewrite docs_insert_eq.
  - by rewrite docs_insert_ne.
Qed.

Lemma select_clean s q self db c :
  (∀ d, q d = true → kept d = true) →
  snd <$> Store.select s q (docs (Queue.clean self db).2 c)
  = snd <$> Store.select s q (docs db c).
Proof.
  intros Himp. rewrite docs_clean. destruct (decide _); [|done].
  by apply select_filter_kept.
Qed.

End cancel_clean_facts.

(** ** What the calls keep *)

#[local] Instance keeps_identity_preorder : PreOrder keeps_identity.
Proof.
  split.
  - intros d. unfold keeps_identity. split_and!; (done || lia).
  - intros d1 d2 d3 (? & ? & ? & ? & ? & ?) (? & ? & ? & ? & ? & ?).
    unfold keeps_identity. split_and!; (congruence || lia || auto).
Qed.

#[local] Instance held_on_preorder : PreOrder held_on.
Proof.
  split.
  - intros d. unfold held_on. split; (done || lia).
  - intros d1 d2 d3 [? ?] [? ?]. unfold held_on. split; (congruence || lia).
Qed.

Lemma respects_keeps_identity : respects keeps_identity.
Proof.
  split_and!.
  - intros e vis d _. unfold keeps_identity, get_update. simpl.
    split_and!; first [done | lia | by eexists].
  - intros now a vis d _. unfold keeps_identity. simpl.
    split_and!; first [done | lia].
  - intros now d _. unfold keeps_identity. simpl.
    split_and!; first [done | lia | by eexists].
Qed.

(** ** The life of an ack token *)

Section token_facts.
Implicit Types (d : Doc.t) (db : DB) (e : Env.t) (self : Queue.t).

Lemma ack_ping_fail self a opts e db :
  Forall (λ d, ¬ leased a (Queue.now e) d) (docs db (Queue.col self)) →
  Queue.ack self a e db = (Err (UnidentifiedAck "ack" a), db)
  ∧ Queue.ping self a opts e db = (Err (UnidentifiedAck "ping" a), db).
Proof.
  intros Hall%leased_none_first_match.
  by rewrite ack_eq, ping_eq, !findOneAndUpdate_None.
Qed.

Lemma findOneAndUpdate_first c query update db m db' :
  Store.findOneAndUpdate c query update Natural db = (Some m, db') →
  ∃ i d, docs db c !! i = Some d ∧ query d = true
         ∧ (∀ j dj, docs db c !! j = Some dj → (j < i)%nat → query dj = false)
         ∧ m = update d ∧ db' = <[c := <[i := update d]> (docs db c)]> db.
Proof.
  unfold Store.findOneAndUpdate. simpl Store.select.
  destruct (Store.first_match _ _) as [[i d]|] eqn:Hm; [|done].
  apply first_match_Some in Hm as (Hi & Hq & Hmin).
  intros [= <- <-]. exists i, d. by split_and!.
Qed.

Lemma ack_Ok self a e db x db' :
  let c := Queue.col self in
  Queue.ack self a e db = (Ok x, db') →
  ∃ i d, docs db c !! i = Some d ∧ leased a (Queue.now e) d
         ∧ (∀ j dj, docs db c !! j = Some dj → (j < i)%nat → ¬ leased a (Queue.now e) dj)
         ∧ x = Doc._id d
         ∧ db' = <[c := <[i := Doc.set_deleted (Queue.now e) d]> (docs db c)]> db.
Proof.
  intros c. rewrite ack_eq.
  destruct (Store.findOneAndUpdate _ _ _ _ _) as [[m|] db1] eqn:Hf; [|done].
  apply findOneAndUpdate_first in Hf as (i & d & Hi & Hq%ack_query_true & Hmin & -> & ->).
  intros [= <- <-]. exists i, d. split_and!; try done.
  intros j dj Hj Hlt. by apply ack_query_false, (Hmin j).
Qed.

Lemma ping_Ok self a opts e db x db' :
  let c := Queue.col self in
  let upto := Queue.now e + js_or (Opts.visibility opts) (Queue.visibility self) * 1000 in
  Queue.ping self a opts e db = (Ok x, db') →
  ∃ i d, docs db c !! i = Some d ∧ leased a (Queue.now e) d
         ∧ (∀ j dj, docs db c !! j = Some dj → (j < i)%nat → ¬ leased a (Queue.now e) dj)
         ∧ x = Doc._id d
         ∧ db' = <[c := <[i := Doc.set_visible upto d]> (docs db c)]> db.
Proof.
  intros c upto. rewrite ping_eq.
  destruct (Store.findOneAndUpdate _ _ _ _ _) as [[m|] db1] eqn:Hf; [|done].
  apply findOneAndUpdate_first in Hf as (i & d & Hi & Hq%ack_query_true & Hmin & -> & ->).
  intros [= <- <-]. exists i, d. split_and!; try done.
  intros j dj Hj Hlt. by apply ack_query_false, (Hmin j).
Qed.

(** When the only document that carries the token is replaced by one
    that is not leased under it, no document is. *)
Lemma no_lease_after tok now (col : list Doc.t) i d d' :
  token_of_one tok col → col !! i = Some d → Doc.ack d = Some tok →
  ¬ leased (Some tok) now d' →
  Forall (λ x, ¬ leased (Some tok) now x) (<[i := d']> col).
Proof.
  intros Hone Hi Hd Hd'. apply Forall_lookup. intros j dj Hj.
  destruct (decide (j = i)) as [->|Hne].
  - rewrite list_lookup_insert_eq in Hj by (by eapply lookup_lt_Some). by injection Hj as <-.
  - rewrite list_lookup_insert_ne in Hj by done.
    intros (Hack & _). apply Hne. by eapply Hone.
Qed.

End token_facts.

(** ** Failures while forwarding *)

Section forward_failures.
Implicit Types (d : Doc.t) (db : DB) (e : Env.t) (self : Queue.t).

Lemma add_one_Err self payload opts e db err db' :
  payloads payload = [payload] →
  Queue.add self payload opts e db = (Err err, db') →
  err = DuplicateKey (Queue.col self) (Env.objectId e O)
  ∧ Exists (λ x, Doc._id x = Env.objectId e O) (docs db (Queue.col self)).
Proof.
  intros Hp. rewrite add_eq. cbv zeta. rewrite Hp. simpl.
  destruct (Store.has_id _ _) eqn:Hid; [|done].
  intros [= <- <-]. split; [done|]. by apply has_id_true.
Qed.

Lemma redirects_true self m :
  redirects self m = true →
  ∃ dq mx n, Queue.deadQueue self = Some dq ∧ Queue.maxRetries self = Some mx
             ∧ Msg.tries m = Some n ∧ mx < n.
Proof.
  unfold redirects, js_gt. destruct (Queue.deadQueue self) as [dq|]; [|done].
  destruct (Msg.tries m) as [n|]; [|done].
  destruct (Queue.maxRetries self) as [mx|]; [|done].
  intros Hlt%Z.ltb_lt. by exists dq, mx, n.
Qed.

Lemma docs_after_dead_add db c cd (col : list Doc.t) news :
  docs (<[cd := docs (<[c := col]> db) cd ++ news]> (<[c := col]> db)) c
    = col ++ (if decide (cd = c) then news else []).
Proof.
  destruct (decide (cd = c)) as [->|Hne].
  - by rewrite !docs_insert_eq.
  - by rewrite docs_insert_ne, docs_insert_eq, app_nil_r.
Qed.

(** In this model of the store, what a failing [get] hands back. *)
Lemma get_Err fuel self opts e db err db' :
  Queue.get fuel self opts e db = Some (Err err, db') →
  ∃ dq mx n,
    Queue.deadQueue self = Some dq ∧ Queue.maxRetries self = Some mx ∧ (n < fuel)%nat
    ∧ (err = DuplicateKey (Queue.col dq) (Env.objectId e (3 * n + 1))
       ∨ err = UnidentifiedAck "ack" (Some (Env.randomBytes e (3 * n)))).
Proof.
  revert opts e db. induction fuel as [|fuel IH]; intros opts e db; [done|].
  rewrite get_S. unfold Store.findOneAndUpdate.
  destruct (Store.select ById _ _) as [[i d]|] eqn:Hsel; [|done].
  set (d' := get_update e _ d).
  destruct (Queue.deadQueue self) as [dq|] eqn:Hdq; [|done].
  destruct (redirects self (Queue.view d')) eqn:Hred; [|done].
  apply redirects_true in Hred as (dq' & mx & _ & Hdq' & Hmx & _).
  assert (dq' = dq) as -> by congruence.
  destruct (Queue.add dq _ _ _ _) as [[?|err2] db2] eqn:Hadd.
  - rewrite ack_eq.
    destruct (Store.findOneAndUpdate _ (ack_query _ _) _ _ _) as [[x|] db3].
    + intros (dq' & mx' & n & Hdq2 & _ & Hn & Herr)%IH.
      exists dq, mx, (S n). split_and!; [done | done | lia |].
      replace (3 * S n + 1)%nat with (S (S (S (3 * n + 1)))) by lia.
      replace (3 * S n)%nat with (S (S (S (3 * n)))) by lia.
      assert (dq' = dq) as -> by congruence. exact Herr.
    + intros [= <- <-]. exists dq, mx, O. split_and!; [done | done | lia |].
      by right.
  - intros [= <- <-]. apply add_one_Err in Hadd as [-> _]; [|done].
    exists dq, mx, O. split_and!; [done | done | lia |]. by left.
Qed.

End forward_failures.

(** ** Counting after an update *)

Section count_facts.
Implicit Types (d : Doc.t) (db : DB) (e : Env.t) (self : Queue.t).

Lemma count_insert_add (query : Doc.t → bool) (col : list Doc.t) i d d' :
  col !! i = Some d → query d = false → query d' = true →
  Store.count query (<[i := d']> col) = S (Store.count query col).
Proof.
  unfold Store.count. revert i. induction col as [|x col IH]; intros [|i]; simpl; try done.
  - intros [= ->] -> ->. done.
  - intros Hi Hq Hq'. destruct (query x); simpl; by rewrite (IH i Hi Hq Hq').
Qed.

(** The four counts before and after the document at place [i] of the
    queue's collection is replaced. *)
Lemma size_insert self e db i d d' :
  let c := Queue.col self in
  let db' := <[c := <[i := d']> (docs db c)]> db in
  docs db c !! i = Some d →
  (claimable (Queue.now e) d → claimable (Queue.now e) d' →
   Queue.size self e db' = Queue.size self e db)
  ∧ (¬ claimable (Queue.now e) d → ¬ claimable (Queue.now e) d' →
     Queue.size self e db' = Queue.size self e db)
  ∧ (claimable (Queue.now e) d → ¬ claimable (Queue.now e) d' →
     ∃ s, Queue.size self e db = Ok (S s) ∧ Queue.size self e db' = Ok s).
Proof.
  intros c db' Hi. unfold Queue.size, db'. fold c. rewrite docs_insert_eq.
  change (λ d0, is_null (Doc.deleted d0) && (Doc.visible d0 <=? Queue.now e))
    with (get_query e).
  split_and!.
  - intros H1%get_query_true H2%get_query_true.
    f_equal. eapply count_insert_same; [done|congruence].
  - intros H1%get_query_false H2%get_query_false.
    f_equal. eapply count_insert_same; [done|congruence].
  - intros H1%get_query_true H2%get_query_false.
    eexists. split; [|done]. f_equal. symmetry. by eapply count_insert_drop.
Qed.

Lemma in_flight_query_true e d :
  exists_ (Doc.ack d) && (Queue.now e <? Doc.visible d) && is_null (Doc.deleted d) = true
  ↔ in_flight (Queue.now e) d.
Proof.
  unfold in_flight. rewrite !andb_true_iff, exists_true, Z.ltb_lt, is_null_true. tauto.
Qed.

Lemma in_flight_query_false e d :
  exists_ (Doc.ack d) && (Queue.now e <? Doc.visible d) && is_null (Doc.deleted d) = false
  ↔ ¬ in_flight (Queue.now e) d.
Proof.
  rewrite <- in_flight_query_true. destruct (_ && _); intuition congruence.
Qed.

Lemma inFlight_insert self e db i d d' :
  let c := Queue.col self in
  let db' := <[c := <[i := d']> (docs db c)]> db in
  docs db c !! i = Some d →
  (in_flight (Queue.now e) d → in_flight (Queue.now e) d' →
   Queue.inFlight self e db' = Queue.inFlight self e db)
  ∧ (¬ in_flight (Queue.now e) d → ¬ in_flight (Queue.now e) d' →
     Queue.inFlight self e db' = Queue.inFlight self e db)
  ∧ (in_flight (Queue.now e) d → ¬ in_flight (Queue.now e) d' →
     ∃ f, Queue.inFlight self e db = Ok (S f) ∧ Queue.inFlight self e db' = Ok f)
  ∧ (¬ in_flight (Queue.now e) d → in_flight (Queue.now e) d' →
     ∃ f, Queue.inFlight self e db = Ok f ∧ Queue.inFlight self e db' = Ok (S f)).
Proof.
  intros c db' Hi. unfold Queue.inFlight, db'. fold c. rewrite docs_insert_eq.
  split_and!.
  - intros H1%in_flight_query_true H2%in_flight_query_true.
    f_equal. eapply count_insert_same; [done|]. simpl. congruence.
  - intros H1%in_flight_query_false H2%in_flight_query_false.
    f_equal. eapply count_insert_same; [done|]. simpl. congruence.
  - intros H1%in_flight_query_true H2%in_flight_query_false.
    eexists. split; [|done]. f_equal. symmetry. by eapply count_insert_drop.
  - intros H1%in_flight_query_false H2%in_flight_query_true.
    eexists. split; [done|]. f_equal. by eapply count_insert_add.
Qed.

Lemma done_insert self db i d d' :
  let c := Queue.col self in
  let db' := <[c := <[i := d']> (docs db c)]> db in
  docs db c !! i = Some d →
  (Doc.deleted d = None → Doc.deleted d' = None → Queue.done self db' = Queue.done self db)
  ∧ (Doc.deleted d = None → is_Some (Doc.deleted d') →
     ∃ n, Queue.done self db = Ok n ∧ Queue.done self db' = Ok (S n)).
Proof.
  intros c db' Hi. unfold Queue.done, db'. fold c. rewrite docs_insert_eq. split.
  - intros H1 H2. f_equal. eapply count_insert_same; [done|]. simpl. by rewrite H1, H2.
  - intros H1 [t H2]. eexists. split; [done|]. f_equal.
    eapply count_insert_add; [done|..]; simpl; by rewrite ?H1, ?H2.
Qed.

Lemma total_insert self db i d d' :
  let c := Queue.col self in
  docs db c !! i = Some d →
  Queue.total self (<[c := <[i := d']> (docs db c)]> db) = Queue.total self db.
Proof.
  intros c Hi. unfold Queue.total. fold c. rewrite docs_insert_eq.
  f_equal. by eapply count_insert_same.
Qed.

End count_facts.

Lemma cancel_Ok self x e db r db' :
  let c := Queue.col self in
  Queue.cancel self x e db = (Ok r, db') →
  ∃ i d, docs db c !! i = Some d ∧ cancelable x (Queue.now e) d
         ∧ db' = <[c := <[i := Doc.set_deleted (Queue.now e) d]> (docs db c)]> db.
Proof.
  intros c. rewrite cancel_eq.
  destruct (Store.findOneAndUpdate _ _ _ _ _) as [[m|] db1] eqn:Hf; [|done].
  apply findOneAndUpdate_first in Hf as (i & d & Hi & Hq%cancel_query_true & _ & -> & ->).
  intros [= <-]. by exists i, d.
Qed.

(** ** Properties of every document *)

Section all_docs_facts.
Context (P : Doc.t → Prop).
Implicit Types (d : Doc.t) (db : DB) (e : Env.t) (self : Queue.t).

Lemma all_docs_insert db c (col : list Doc.t) :
  all_docs P db → Forall P col → all_docs P (<[c := col]> db).
Proof.
  intros Hall Hcol c'. destruct (decide (c = c')) as [<-|Hne].
  - by rewrite docs_insert_eq.
  - rewrite docs_insert_ne by done. apply Hall.
Qed.

Lemma findOneAndUpdate_all c query update s db :
  (∀ d, P d → P (update d)) →
  all_docs P db → all_docs P (Store.findOneAndUpdate c query update s db).2.
Proof.
  intros Hup Hall. unfold Store.findOneAndUpdate.
  destruct (Store.select s query (docs db c)) as [[i d]|] eqn:Hsel; simpl; [|done].
  apply select_Some_lookup in Hsel as [Hi _].
  apply all_docs_insert; [done|]. apply Forall_insert; [apply Hall|].
  apply Hup. by eapply (Forall_lookup_1 _ _ _ _ (Hall c)).
Qed.

Lemma add_all self payload opts e db :
  stable P → all_docs P db → all_docs P (Queue.add self payload opts e db).2.
Proof.
  intros (Hnew & _) Hall c'.
  destruct (decide (c' = Queue.col self)) as [->|Hne]; [|by rewrite add_other].
  destruct (add_appends self payload opts e db) as (news & -> & Hnews & _).
  apply Forall_app. split; [apply Hall|].
  eapply Forall_impl; [exact Hnews|]. intros d [(_ & ? & ? & ?) _]. by apply Hnew.
Qed.

Lemma addIfMissing_all self x payload opts e db :
  stable P → all_docs P db → all_docs P (Queue.addIfMissing self x payload opts e db).2.
Proof.
  intros (Hnew & _) Hall. rewrite addIfMissing_eq. cbv zeta.
  destruct (Store.first_match _ _); simpl; [done|].
  apply all_docs_insert; [done|]. apply Forall_app. split; [apply Hall|].
  apply Forall_singleton. by apply Hnew.
Qed.

Lemma ping_all self a opts e db :
  stable P → all_docs P db → all_docs P (Queue.ping self a opts e db).2.
Proof.
  intros (_ & _ & Hvis & _) Hall. rewrite ping_eq.
  pose proof (findOneAndUpdate_all (Queue.col self) (ack_query a e)
    (Doc.set_visible (Queue.nowPlusSecs e (js_or (Opts.visibility opts) (Queue.visibility self))))
    Natural db (Hvis _) Hall) as H.
  by destruct (Store.findOneAndUpdate _ _ _ _ _) as [[m|] db1].
Qed.

Lemma ack_all self a e db :
  stable P → all_docs P db → all_docs P (Queue.ack self a e db).2.
Proof.
  intros (_ & _ & _ & Hdel) Hall. rewrite ack_eq.
  pose proof (findOneAndUpdate_all (Queue.col self) (ack_query a e)
    (Doc.set_deleted (Queue.now e)) Natural db (Hdel _) Hall) as H.
  by destruct (Store.findOneAndUpdate _ _ _ _ _) as [[m|] db1].
Qed.

Lemma cancel_all self x e db :
  stable P → all_docs P db → all_docs P (Queue.cancel self x e db).2.
Proof.
  intros (_ & _ & _ & Hdel) Hall. rewrite cancel_eq.
  pose proof (findOneAndUpdate_all (Queue.col self) (cancel_query x e)
    (Doc.set_deleted (Queue.now e)) Natural db (Hdel _) Hall) as H.
  by destruct (Store.findOneAndUpdate _ _ _ _ _) as [[m|] db1].
Qed.

Lemma clean_all self db :
  all_docs P db → all_docs P (Queue.clean self db).2.
Proof.
  intros Hall c. rewrite docs_clean. destruct (decide _); [|apply Hall].
  apply Forall_forall. intros d Hin%list_elem_of_In.
  apply filter_In in Hin as [Hin%list_elem_of_In _].
  by apply (proj1 (Forall_forall _ _) (Hall c)).
Qed.

Lemma get_all fuel self opts e db r db' :
  stable P → all_docs P db →
  Queue.get fuel self opts e db = Some (r, db') → all_docs P db'.
Proof.
  intros Hst. pose proof Hst as (_ & Hclaim & _).
  revert opts e db. induction fuel as [|fuel IH]; intros opts e db Hall; [done|].
  rewrite get_S.
  pose proof (findOneAndUpdate_all (Queue.col self) (get_query e)
    (get_update e (js_or (Opts.visibility opts) (Queue.visibility self))) ById db
    (Hclaim _ _) Hall) as H1.
  destruct (Store.findOneAndUpdate _ _ _ _ _) as [[doc|] db1]; simpl in H1;
    [|by intros [= <- <-]].
  assert (Some (Ok (Some (Queue.view doc)), db1) = Some (r, db') → all_docs P db')
    as Hdirect by (by intros [= <- <-]).
  destruct (Queue.deadQueue self) as [dq|]; [|done].
  destruct (redirects self (Queue.view doc)); [|done].
  pose proof (add_all dq (Obj (Queue.view doc)) Opts.none (Env.next e) db1 Hst H1) as H2.
  destruct (Queue.add dq _ _ _ _) as [[?|err] db2]; simpl in H2; [|by intros [= <- <-]].
  pose proof (ack_all self (Doc.ack doc) (Env.next (Env.next e)) db2 Hst H2) as H3.
  destruct (Queue.ack self _ _ _) as [[?|err] db3]; simpl in H3; [|by intros [= <- <-]].
  by apply IH.
Qed.

Lemma run_all k e db db' :
  stable P → all_docs P db → run k e db = Some db' → all_docs P db'.
Proof.
  intros Hst Hall. destruct k; simpl.
  - intros [= <-]. by apply add_all.
  - intros [= <-]. by apply addIfMissing_all.
  - destruct (Queue.get _ _ _ _ _) as [[r db1]|] eqn:Hget; [|done].
    intros [= <-]. by eapply get_all.
  - intros [= <-]. by apply ping_all.
  - intros [= <-]. by apply ack_all.
  - intros [= <-]. by apply cancel_all.
  - intros [= <-]. by apply clean_all.
Qed.

Lemma reachable_all db : stable P → reachable db → all_docs P db.
Proof.
  intros Hst. induction 1 as [|k e db db' _ IH Hrun].
  - intros c. rewrite docs_empty. constructor.
  - by eapply run_all.
Qed.

End all_docs_facts.

Lemma stable_claimed_shape : stable claimed_shape.
Proof.
  unfold claimed_shape. split_and!.
  - by intros d -> ->.
  - intros e vis d. simpl. destruct (Doc.ack d), (Doc.tries d); simpl; (done || lia).
  - done.
  - done.
Qed.

(** ** Counting after an insertion *)

Section count_app_facts.
Implicit Types (d : Doc.t) (db : DB) (e : Env.t) (self : Queue.t).

Lemma count_app (query : Doc.t → bool) (col news : list Doc.t) :
  Store.count query (col ++ news) = (Store.count query col + Store.count query news)%nat.
Proof. unfold Store.count. by rewrite List.filter_app, length_app. Qed.

Lemma count_all (query : Doc.t → bool) (col : list Doc.t) :
  Forall (λ d, query d = true) col → Store.count query col = length col.
Proof.
  unfold Store.count. induction 1 as [|d col Hd _ IH]; simpl; [done|].
  rewrite Hd. simpl. by rewrite IH.
Qed.

Lemma count_none (query : Doc.t → bool) (col : list Doc.t) :
  Forall (λ d, query d = false) col → Store.count query col = O.
Proof.
  unfold Store.count. induction 1 as [|d col Hd _ IH]; simpl; [done|].
  by rewrite Hd.
Qed.

End count_app_facts.

(** * Properties of the queue *)

(** ** The claim made by [get] *)

(** C1. [get] selects, among the messages with [deleted] null and
    [visible <= now], the one with the least identifier, and in the same
    store operation adds one to [tries], sets a fresh [ack] and sets
    [visible] to [now + visibility], where the visibility is the call's
    option or else the queue's; no other document changes. Without such a
    message it returns nothing and no error, and leaves the store as it is.
    The message returned is the view made of [id], [ack], [payload] and
    [tries]. (The forwarding of an over-retried message is the matter of
    [get_forwards_over_retried].) *)
Theorem get_claims_least_claimable fuel self opts e db :
  let c := Queue.col self in
  let now := Queue.now e in
  let visibility := js_or (Opts.visibility opts) (Queue.visibility self) in
  (Opts.visibility opts = None → visibility = Queue.visibility self)
  ∧ (Forall (λ d, ¬ claimable now d) (docs db c) →
       Queue.get (S fuel) self opts e db = Some (Ok None, db))
  ∧ (Exists (claimable now) (docs db c) →
       ∃ i d,
         docs db c !! i = Some d ∧ claimable now d ∧
         Forall (λ d', claimable now d' → Doc._id d ≤ Doc._id d') (docs db c) ∧
         (Queue.deadQueue self = None ∨
          js_gt (Some (default 0 (Doc.tries d) + 1)) (Queue.maxRetries self) = false →
          Queue.get (S fuel) self opts e db =
            Some (Ok (Some (Msg.mk (Doc._id d) (Some (Env.randomBytes e O))
                              (Doc.payload d) (Some (default 0 (Doc.tries d) + 1)))),
                  <[c := <[i := Doc.mk (Doc._id d) (now + visibility * 1000)
                                  (Doc.payload d) (Some (Env.randomBytes e O))
                                  (Some (default 0 (Doc.tries d) + 1)) None]>
                           (docs db c)]> db))).
Proof.
  intros c now visibility. split_and!.
  - intros Hnone. unfold visibility. by rewrite Hnone.
  - apply get_none.
  - intros Hex.
    destruct (Store.least_match (get_query e) (docs db c)) as [[i d]|] eqn:Hsel.
    2:{ apply least_match_None in Hsel. apply Exists_exists in Hex as (d & Hin & Hd).
        rewrite Forall_forall in Hsel. specialize (Hsel d Hin). simpl in Hsel.
        apply get_query_false in Hsel. done. }
    pose proof Hsel as (Hi & Hq & Hleast)%least_match_Some.
    apply get_query_true in Hq. exists i, d. split_and!; [done..| |].
    + apply Forall_lookup. intros j d' Hj Hd'.
      apply get_query_true in Hd'. by destruct (Hleast _ _ Hj Hd').
    + intros Hno. destruct Hq as [Hdel _].
      rewrite (get_direct fuel self opts e db i d Hsel).
      * unfold Queue.view, get_update, Doc.set_visible, Doc.set_ack, Doc.inc_tries,
          Queue.nowPlusSecs, Queue.id. simpl. by rewrite Hdel.
      * unfold redirects. simpl. destruct Hno as [-> | Hgt]; [done|].
        by destruct (Queue.deadQueue self).
Qed.

Lemma get_claims_least_claimable_witness :
  Queue.get 1 Sample.capped (Sample.visibility 60) (Sample.env 5000) Sample.twice =
    Some (Ok (Some (Msg.mk 101 (Some "t") (Atom "b") (Some 1))),
          {[ "jobs" := [Doc.mk 100 70000 (Atom "a") (Some "s") (Some 2) None;
                        Doc.mk 101 65000 (Atom "b") (Some "t") (Some 1) None] ]})
  ∧ Queue.get 1 Sample.capped Opts.none (Sample.env 0) ∅ = Some (Ok None, ∅).
Proof.
  split.
  - destruct (get_claims_least_claimable O Sample.capped (Sample.visibility 60)
                (Sample.env 5000) Sample.twice) as (_ & _ & Hsome).
    change (docs Sample.twice (Queue.col Sample.capped))
      with [Doc.mk 100 70000 (Atom "a") (Some "s") (Some 2) None;
            Doc.mk 101 0 (Atom "b") None None None] in Hsome.
    destruct Hsome as (i & d & Hi & [_ Hvis] & _ & Hget).
    { apply Exists_cons_tl, Exists_cons_hd. split; [done | simpl; lia]. }
    destruct i as [|[|i]]; simpl in Hi; [| |done].
    + injection Hi as <-. simpl in Hvis. lia.
    + injection Hi as <-. rewrite Hget; [|by right]. vm_compute. reflexivity.
  - destruct (get_claims_least_claimable O Sample.capped Opts.none (Sample.env 0) ∅)
      as (_ & Hnone & _).
    apply Hnone. rewrite docs_empty. constructor.
Defined.

(** ** Forwarding to the dead queue *)

(** C2. On a queue with a dead queue [dq] and a retry ceiling [mx]:
    [get] never returns a message whose [tries] exceeds the ceiling; it
    returns, when the dead queue has a collection of its own, within as
    many calls of itself as the queue has messages not finalized; and
    when the message it claims, the least claimable one, has [tries] above
    the ceiling, then (the lease outlasting the two calls that follow, the
    ack token being new to the collection and the generated identifier
    new to the dead queue's) the view of the message is added as the
    payload of a new message of the dead queue, by the dead queue's own
    [add] and so under its delay, the claimed message is finalized by
    [ack], and the result of [get] is that of a further [get], without
    options, on the store so left. *)
Theorem get_forwards_over_retried fuel self dq mx opts e db i d :
  let c := Queue.col self in
  let cd := Queue.col dq in
  let e1 := Env.next e in
  let e2 := Env.next e1 in
  let e3 := Env.next e2 in
  let visibility := js_or (Opts.visibility opts) (Queue.visibility self) in
  let tok := Env.randomBytes e O in
  let n := default 0 (Doc.tries d) + 1 in
  let d' := Doc.mk (Doc._id d) (Queue.now e + visibility * 1000) (Doc.payload d)
              (Some tok) (Some n) None in
  let m := Msg.mk (Doc._id d) (Some tok) (Doc.payload d) (Some n) in
  let dead_doc := Doc.mk (Env.objectId e1 O) (Queue.now e1 + Queue.delay dq * 1000)
                    (Obj m) None None None in
  let db1 := <[c := <[i := d']> (docs db c)]> db in
  let db2 := <[cd := docs db1 cd ++ [dead_doc]]> db1 in
  let db3 := <[c := <[i := Doc.set_deleted (Queue.now e2) d']> (docs db2 c)]> db2 in
  Queue.deadQueue self = Some dq →
  Queue.maxRetries self = Some mx →
  (∀ fuel' opts' e' db' m' db'',
     Queue.get fuel' self opts' e' db' = Some (Ok (Some m'), db'') →
     ∃ n', Msg.tries m' = Some n' ∧ n' ≤ mx)
  ∧ (∀ fuel' opts' e' db',
       cd ≠ c → (undeleted (docs db' c) < fuel')%nat →
       is_Some (Queue.get fuel' self opts' e' db'))
  ∧ (least (get_query e) (docs db c) i d →
     mx < n →
     Queue.now e2 < Queue.now e + visibility * 1000 →
     Forall (λ x, Doc.ack x ≠ Some tok) (docs db c) →
     Forall (λ x, Doc._id x ≠ Env.objectId e1 O) (docs db1 cd) →
     Queue.get (S fuel) self opts e db = Queue.get fuel self Opts.none e3 db3
     ∧ (cd ≠ c →
        docs db3 c = <[i := Doc.set_deleted (Queue.now e2) d']> (docs db c)
        ∧ docs db3 cd = docs db cd ++ [dead_doc])).
Proof.
  intros c cd e1 e2 e3 visibility tok n d' m dead_doc db1 db2 db3 Hdq Hmx. split_and!.
  { intros fuel' opts' e' db' m' db''.
    intros (j & dj & k & vis & _ & <- & _ & [n' Hn'] & Hred & _)%get_returned.
    exists n'. split; [done|]. unfold redirects in Hred.
    rewrite Hdq, Hmx in Hred. simpl in Hred. rewrite Hn' in Hred. simpl in Hred.
    by apply Z.ltb_ge in Hred. }
  { intros fuel' opts' e' db' Hne Hfuel. apply get_returns; [|done].
    intros dq' Hdq'. by assert (dq' = dq) as -> by congruence. }
  intros Hleast Hover Hvis Htok Hoid.
  pose proof Hleast as (Hi & [Hdel Hvisible]%get_query_true & _).
  assert (get_update e visibility d = d') as Hd'.
  { unfold get_update, Doc.set_visible, Doc.set_ack, Doc.inc_tries, d'. simpl.
    by rewrite Hdel. }
  assert (i < length (docs db c))%nat as Hlen by (by eapply lookup_lt_Some).
  apply least_match_Some in Hleast.
  destruct (get_redirect fuel self opts e db i d Hleast) as (dq' & Hdq' & ->).
  { unfold redirects. fold visibility. rewrite Hd', Hdq, Hmx. simpl.
    by apply Z.ltb_lt. }
  assert (dq' = dq) as -> by congruence.
  fold visibility c e1 e2 e3. rewrite Hd'. fold db1. change (Queue.view d') with m.
  rewrite add_one; [|done|done]. fold cd dead_doc db2.
  change (Doc.ack d') with (Some tok).
  assert (Store.first_match (ack_query (Some tok) e2) (docs db2 c) = Some (i, d'))
    as Hmatch.
  { apply first_match_Some. split_and!.
    - unfold db2, db1. rewrite lookup_after_dead_add by (by rewrite length_insert).
      by apply list_lookup_insert_eq.
    - apply ack_query_true. by split_and!.
    - intros j x Hj Hji. apply ack_query_false. intros (Hack & _).
      unfold db2, db1 in Hj.
      rewrite lookup_after_dead_add in Hj by (rewrite length_insert; lia).
      rewrite list_lookup_insert_ne in Hj by lia.
      rewrite Forall_lookup in Htok. by apply (Htok j x). }
  rewrite ack_eq, (findOneAndUpdate_Some _ _ _ Natural _ i d' Hmatch). fold c db3.
  split; [done|]. intros Hne. unfold db3, db2, db1. split.
  - by rewrite docs_insert_eq, (docs_insert_ne _ _ _ _ Hne), docs_insert_eq,
      list_insert_insert_eq.
  - rewrite (docs_insert_ne _ c cd) by done.
    by rewrite docs_insert_eq, (docs_insert_ne _ c cd).
Qed.

(** A run: at instant 80000 a [get] holding its messages for sixty
    seconds finds the first message claimed twice already; the calls it
    chains come a millisecond apart. *)
Lemma get_forwards_over_retried_scenario :
  Queue.get 2 Sample.capped (Sample.visibility 60) (Sample.env 80000) Sample.twice =
    Some (Ok (Some (Msg.mk 101 (Some "t'''") (Atom "b") (Some 1))),
          {[ "jobs" := [Doc.mk 100 140000 (Atom "a") (Some "t") (Some 3) (Some 80002);
                        Doc.mk 101 110003 (Atom "b") (Some "t'''") (Some 1) None];
             "dead" := [Doc.mk 101 80001
                          (Obj (Msg.mk 100 (Some "t") (Atom "a") (Some 3)))
                          None None None] ]}).
Proof. vm_compute. reflexivity. Qed.

Lemma get_forwards_over_retried_witness :
  Queue.get 2 Sample.capped (Sample.visibility 60) (Sample.env 80000) Sample.twice =
    Some (Ok (Some (Msg.mk 101 (Some "t'''") (Atom "b") (Some 1))),
          {[ "jobs" := [Doc.mk 100 140000 (Atom "a") (Some "t") (Some 3) (Some 80002);
                        Doc.mk 101 110003 (Atom "b") (Some "t'''") (Some 1) None];
             "dead" := [Doc.mk 101 80001
                          (Obj (Msg.mk 100 (Some "t") (Atom "a") (Some 3)))
                          None None None] ]}).
Proof.
  destruct (get_forwards_over_retried 1 Sample.capped Sample.dead 2
              (Sample.visibility 60) (Sample.env 80000) Sample.twice O
              (Doc.mk 100 70000 (Atom "a") (Some "s") (Some 2) None)
              eq_refl eq_refl) as (_ & _ & Hforward).
  destruct Hforward as [-> _].
  - change (docs Sample.twice (Queue.col Sample.capped))
      with [Doc.mk 100 70000 (Atom "a") (Some "s") (Some 2) None;
            Doc.mk 101 0 (Atom "b") None None None].
    split_and!; [done..|].
    intros [|[|j]] x; simpl; [| |done]; intros [= <-] _; simpl; split; intros; lia.
  - simpl. lia.
  - simpl. lia.
  - repeat (apply Forall_cons; split; [done|]). constructor.
  - constructor.
  - vm_compute. reflexivity.
Defined.

(** ** Extending and finalizing a lease *)

(** The claim as the specification words it fails where it calls the
    instant [ping] sets a later one: a message claimed at instant 0 for
    the queue's thirty seconds and pinged a second later with
    [visibility = 10] is visible again at 11000, before the 30000 its
    lease ran to. *)
Lemma ping_sets_earlier_visible :
  docs Sample.held "jobs" = [Doc.mk 100 30000 (Atom "a") (Some "t") (Some 1) None]
  ∧ Queue.ping Sample.plain (Some "t") (Sample.visibility 10) (Sample.env 1000) Sample.held =
      (Ok 100, {[ "jobs" := [Doc.mk 100 11000 (Atom "a") (Some "t") (Some 1) None] ]})
  ∧ 11000 < 30000.
Proof. split_and!; [vm_compute; reflexivity..|lia]. Qed.

(** C3, amended. [ping] and [ack] succeed exactly when some message
    carries the given ack token with [deleted] null and [visible > now].
    On success [ping] sets [visible] of that message to
    [now + visibility], an instant after [now] for a positive visibility
    (whether or not after the instant it replaces), [ack] sets its
    [deleted] to [now], neither changes another field or another
    message, and each returns the identifier of the message. Otherwise
    each fails with its "Unidentified ack" error, whether the token is
    unknown or its lease has run out, and the store is left as it was. *)
Theorem ping_ack_match_or_fail self a opts e db :
  let c := Queue.col self in
  let now := Queue.now e in
  let visibility := js_or (Opts.visibility opts) (Queue.visibility self) in
  (Forall (λ d, ¬ leased a now d) (docs db c) →
     Queue.ping self a opts e db = (Err (UnidentifiedAck "ping" a), db) ∧
     Queue.ack self a e db = (Err (UnidentifiedAck "ack" a), db))
  ∧ (Exists (leased a now) (docs db c) →
     ∃ i d,
       let pinged := Doc.mk (Doc._id d) (now + visibility * 1000) (Doc.payload d)
                       (Doc.ack d) (Doc.tries d) (Doc.deleted d) in
       let acked := Doc.mk (Doc._id d) (Doc.visible d) (Doc.payload d)
                      (Doc.ack d) (Doc.tries d) (Some now) in
       docs db c !! i = Some d ∧ leased a now d ∧
       Queue.ping self a opts e db =
         (Ok (Doc._id d), <[c := <[i := pinged]> (docs db c)]> db) ∧
       (0 < visibility → now < Doc.visible pinged) ∧
       Queue.ack self a e db =
         (Ok (Doc._id d), <[c := <[i := acked]> (docs db c)]> db))
  ∧ ((∃ i db', Queue.ping self a opts e db = (Ok i, db')) ↔
       Exists (leased a now) (docs db c))
  ∧ ((∃ i db', Queue.ack self a e db = (Ok i, db')) ↔
       Exists (leased a now) (docs db c)).
Proof.
  intros c now visibility.
  assert (Forall (λ d, ¬ leased a now d) (docs db c) →
     Queue.ping self a opts e db = (Err (UnidentifiedAck "ping" a), db) ∧
     Queue.ack self a e db = (Err (UnidentifiedAck "ack" a), db)) as Hfail.
  { intros Hall%leased_none_first_match.
    rewrite ping_eq, ack_eq, !findOneAndUpdate_None; done. }
  assert (Exists (leased a now) (docs db c) →
     ∃ i d,
       docs db c !! i = Some d ∧ leased a now d ∧
       Queue.ping self a opts e db =
         (Ok (Doc._id d),
          <[c := <[i := Doc.mk (Doc._id d) (now + visibility * 1000) (Doc.payload d)
                          (Doc.ack d) (Doc.tries d) (Doc.deleted d)]> (docs db c)]> db) ∧
       Queue.ack self a e db =
         (Ok (Doc._id d),
          <[c := <[i := Doc.mk (Doc._id d) (Doc.visible d) (Doc.payload d)
                          (Doc.ack d) (Doc.tries d) (Some now)]> (docs db c)]> db))
    as Hok.
  { intros (i & d & Hm)%leased_some_first_match. exists i, d.
    pose proof Hm as (Hi & Hq%ack_query_true & _)%first_match_Some.
    split_and!; [done..| |].
    - by rewrite ping_eq, (findOneAndUpdate_Some _ _ _ Natural _ i d Hm).
    - by rewrite ack_eq, (findOneAndUpdate_Some _ _ _ Natural _ i d Hm). }
  split_and!; [done| | |].
  - intros (i & d & Hi & Hd & Hping & Hack)%Hok. exists i, d. cbv zeta.
    split_and!; [done..| |done]. simpl. lia.
  - split.
    + intros (i & db' & Hp).
      destruct (leased_dichotomy a now (docs db c)) as [Hn|Hex]; [|done].
      destruct (Hfail Hn) as [Hp' _]. congruence.
    + intros (i & d & _ & _ & Hp & _)%Hok. eauto.
  - split.
    + intros (i & db' & Hp).
      destruct (leased_dichotomy a now (docs db c)) as [Hn|Hex]; [|done].
      destruct (Hfail Hn) as [_ Hp']. congruence.
    + intros (i & d & _ & _ & _ & Hp)%Hok. eauto.
Qed.

Lemma ping_ack_match_or_fail_witness :
  Queue.ping Sample.plain (Some "t") Opts.none (Sample.env 1000) Sample.held =
    (Ok 100, {[ "jobs" := [Doc.mk 100 31000 (Atom "a") (Some "t") (Some 1) None] ]})
  ∧ Queue.ack Sample.plain (Some "t") (Sample.env 1000) Sample.held =
    (Ok 100, {[ "jobs" := [Doc.mk 100 30000 (Atom "a") (Some "t") (Some 1) (Some 1000)] ]})
  ∧ Queue.ack Sample.plain (Some "t") (Sample.env 40000) Sample.held =
    (Err (UnidentifiedAck "ack" (Some "t")), Sample.held).
Proof.
  split_and!.
  - destruct (ping_ack_match_or_fail Sample.plain (Some "t") Opts.none
                (Sample.env 1000) Sample.held) as (_ & Hok & _).
    change (docs Sample.held (Queue.col Sample.plain))
      with [Doc.mk 100 30000 (Atom "a") (Some "t") (Some 1) None] in Hok.
    destruct Hok as (i & d & Hi & _ & Hping & _).
    { apply Exists_cons_hd. split_and!; [done | simpl; lia | done]. }
    destruct i as [|i]; simpl in Hi; [|done].
    injection Hi as <-. rewrite Hping. vm_compute. reflexivity.
  - destruct (ping_ack_match_or_fail Sample.plain (Some "t") Opts.none
                (Sample.env 1000) Sample.held) as (_ & Hok & _).
    change (docs Sample.held (Queue.col Sample.plain))
      with [Doc.mk 100 30000 (Atom "a") (Some "t") (Some 1) None] in Hok.
    destruct Hok as (i & d & Hi & _ & _ & _ & Hack).
    { apply Exists_cons_hd. split_and!; [done | simpl; lia | done]. }
    destruct i as [|i]; simpl in Hi; [|done].
    injection Hi as <-. rewrite Hack. vm_compute. reflexivity.
  - destruct (ping_ack_match_or_fail Sample.plain (Some "t") Opts.none
                (Sample.env 40000) Sample.held) as (Hfail & _).
    apply Hfail.
    change (docs Sample.held (Queue.col Sample.plain))
      with [Doc.mk 100 30000 (Atom "a") (Some "t") (Some 1) None].
    apply Forall_cons. split; [|constructor]. intros (_ & Hlt & _). simpl in Hlt. lia.
Defined.

(** ** Idempotent insertion *)

(** C4. [addIfMissing] stores at most one message per identifier, and
    hands back no identifier. On a queue without a message [x] it inserts
    one message with the payload, at the end of the collection; a
    following [addIfMissing] of [x], whatever its payload and options,
    leaves the store as it is, so that [x] names exactly one message, the
    first one; more generally the call changes nothing whenever [x] is
    taken. What it hands back is null in every case, after an insertion
    too, where [x] is expected: the property it reads, [nUpserted], is
    none of the result of [updateOne], whose [upsertedCount] is the one
    that tells an insertion. *)
Theorem addIfMissing_idempotent self x payload payload2 opts opts2 e e2 db :
  let c := Queue.col self in
  let delay := js_or (Opts.delay opts) (Queue.delay self) in
  let m := Doc.mk x (Queue.now e + delay * 1000) payload None None None in
  let db1 := <[c := docs db c ++ [m]]> db in
  let result := (Store.updateOne c (λ d, Doc._id d =? x) m db).1 in
  (Forall (λ d, Doc._id d ≠ x) (docs db c) →
     Queue.addIfMissing self x payload opts e db = (Ok None, db1)
     ∧ Store.prop result "nUpserted" = None
     ∧ Store.is_one (Store.prop result "upsertedCount") = true
     ∧ Queue.addIfMissing self x payload2 opts2 e2 db1 = (Ok None, db1)
     ∧ List.filter (λ d, Doc._id d =? x) (docs db1 c) = [m])
  ∧ (Exists (λ d, Doc._id d = x) (docs db c) →
     Queue.addIfMissing self x payload opts e db = (Ok None, db)).
Proof.
  intros c delay m db1 result.
  assert (∀ p o e' db', Exists (λ d, Doc._id d = x) (docs db' c) →
            Queue.addIfMissing self x p o e' db' = (Ok None, db')) as Htaken.
  { intros p o e' db' [r Hr]%first_match_id_Some.
    rewrite addIfMissing_eq. fold c. simpl. by rewrite Hr. }
  split; [|apply Htaken].
  intros Hfresh. split_and!.
  - rewrite addIfMissing_eq. fold c. simpl.
    by rewrite (proj2 (first_match_id_None x (docs db c)) Hfresh).
  - done.
  - unfold result, Store.updateOne.
    by rewrite (proj2 (first_match_id_None x (docs db c)) Hfresh).
  - apply Htaken. unfold db1. rewrite docs_insert_eq.
    apply Exists_app. right. by apply Exists_cons_hd.
  - unfold db1. rewrite docs_insert_eq, List.filter_app, filter_id_absent by done.
    simpl. by rewrite Z.eqb_refl.
Qed.

Lemma addIfMissing_idempotent_witness :
  Queue.addIfMissing Sample.plain 7 (Atom "x") Opts.none (Sample.env 0) Sample.one =
    (Ok None,
     {[ "jobs" := [Doc.mk 100 0 (Atom "a") None None None;
                   Doc.mk 7 0 (Atom "x") None None None] ]})
  ∧ Queue.addIfMissing Sample.plain 100 (Atom "y") (Sample.delay 5) (Sample.env 9)
      Sample.one = (Ok None, Sample.one).
Proof.
  destruct (addIfMissing_idempotent Sample.plain 7 (Atom "x") (Atom "y") Opts.none
              Opts.none (Sample.env 0) (Sample.env 0) Sample.one) as [Hnew _].
  destruct (addIfMissing_idempotent Sample.plain 100 (Atom "y") (Atom "y")
              (Sample.delay 5) Opts.none (Sample.env 9) (Sample.env 9) Sample.one)
    as [_ Hold].
  split.
  - destruct Hnew as (-> & _).
    + apply Forall_cons. split; [simpl; lia | constructor].
    + vm_compute. reflexivity.
  - apply Hold. by apply Exists_cons_hd.
Defined.

(** ** Finalized messages *)

(** C5. In every reachable store and for every call of [add],
    [addIfMissing], [get], [ping], [ack] and [cancel], of any queue, a
    message with [deleted] set is the same document at the same place
    after the call, and a [get] on its queue does not return it. *)
Theorem finalized_never_touched k e db db' c i d :
  reachable db →
  is_clean k = false →
  run k e db = Some db' →
  docs db c !! i = Some d →
  is_Some (Doc.deleted d) →
  docs db' c !! i = Some d
  ∧ (∀ fuel self opts m,
       k = Get fuel self opts → c = Queue.col self →
       Queue.get fuel self opts e db = Some (Ok (Some m), db') →
       Msg.id m ≠ Doc._id d).
Proof.
  intros Hreach Hk Hrun Hi Hd.
  pose proof (reachable_wf _ Hreach) as Hwf.
  destruct (run_inv keeps_finalized k e db db' respects_keeps_finalized Hrun)
    as [Hev Hwf'].
  destruct (Hev Hk c i d Hi) as (d' & Hi' & Hkeep).
  rewrite (Hkeep Hd) in Hi'. split; [done|].
  intros fuel self opts m -> -> (j & dj & n & vis & Hj & <- & Hdj & _)%get_returned Hid.
  specialize (Hwf' Hwf (Queue.col self)).
  assert (i = j) as ->.
  { eapply NoDup_lookup; [exact Hwf' | |].
    - by rewrite list_lookup_fmap, Hi'.
    - rewrite list_lookup_fmap, Hj. simpl. f_equal. done. }
  destruct Hd as [t Ht]. congruence.
Qed.

Lemma finalized_never_touched_witness :
  let acked := Doc.mk 100 30000 (Atom "a") (Some "t") (Some 1) (Some 1000) in
  let db' : DB := {[ "jobs" := [acked; Doc.mk 101 32000 (Atom "b") (Some "t") (Some 1) None] ]} in
  Queue.get 1 Sample.plain Opts.none (Sample.env 2000) Sample.pair_acked =
    Some (Ok (Some (Msg.mk 101 (Some "t") (Atom "b") (Some 1))), db')
  ∧ docs db' "jobs" !! O = Some acked
  ∧ 101 ≠ 100.
Proof.
  intros acked db'.
  assert (reachable Sample.pair_acked) as Hreach.
  { apply (reachable_step (Ack Sample.plain (Some "t")) (Sample.env 1000) Sample.pair_held);
      [|vm_compute; reflexivity].
    apply (reachable_step (Get 1 Sample.plain Opts.none) (Sample.env 0) Sample.pair);
      [|vm_compute; reflexivity].
    apply (reachable_step (Add Sample.plain (Arr [Atom "a"; Atom "b"]) Opts.none)
             (Sample.env 0) ∅); [|vm_compute; reflexivity].
    apply reachable_empty. }
  assert (Queue.get 1 Sample.plain Opts.none (Sample.env 2000) Sample.pair_acked =
            Some (Ok (Some (Msg.mk 101 (Some "t") (Atom "b") (Some 1))), db')) as Hget.
  { vm_compute. reflexivity. }
  destruct (finalized_never_touched (Get 1 Sample.plain Opts.none) (Sample.env 2000)
              Sample.pair_acked db' "jobs" O acked Hreach) as [Hkept Hnot].
  - reflexivity.
  - unfold run. by rewrite Hget.
  - reflexivity.
  - by eexists.
  - split_and!; [done..|].
    apply (Hnot 1%nat Sample.plain Opts.none _ eq_refl eq_refl Hget).
Defined.

(** ** Counts *)

(** C6. The count operations count what they name: [total] every
    message, [size] the claimable ones, [inFlight] the ones held under a
    token, [done] the finalized ones. The three states exclude one another,
    so at every instant and in every store [size + inFlight + done] is at
    most [total]. After [add] of one message without delay into an empty
    queue, at the instant of the [add] or later, [size] is 1 and
    [inFlight] and [done] are 0. *)
Theorem counts_partition self e db :
  let c := Queue.col self in
  let now := Queue.now e in
  Queue.total self db = Ok (length (docs db c))
  ∧ Queue.size self e db = Ok (length (filter (claimable now) (docs db c)))
  ∧ Queue.inFlight self e db = Ok (length (filter (in_flight now) (docs db c)))
  ∧ Queue.done self db = Ok (length (filter finalized (docs db c)))
  ∧ (∀ d, ¬ (claimable now d ∧ in_flight now d) ∧ ¬ (claimable now d ∧ finalized d)
          ∧ ¬ (in_flight now d ∧ finalized d))
  ∧ (length (filter (claimable now) (docs db c))
     + length (filter (in_flight now) (docs db c))
     + length (filter finalized (docs db c)) ≤ length (docs db c))%nat
  ∧ (∀ payload opts e',
       docs db c = [] →
       length (payloads payload) = 1%nat →
       js_or (Opts.delay opts) (Queue.delay self) = 0 →
       now ≤ Queue.now e' →
       let r := Queue.add self payload opts e db in
       (∃ a, r.1 = Ok a) ∧ Queue.total self r.2 = Ok 1%nat ∧
       Queue.size self e' r.2 = Ok 1%nat ∧ Queue.inFlight self e' r.2 = Ok 0%nat ∧
       Queue.done self r.2 = Ok 0%nat).
Proof.
  intros c now.
  assert (∀ e0 db0, Queue.size self e0 db0 =
            Ok (length (filter (claimable (Queue.now e0)) (docs db0 c)))) as Hsize.
  { intros. unfold Queue.size. f_equal. apply count_filter. apply get_query_true. }
  assert (∀ e0 db0, Queue.inFlight self e0 db0 =
            Ok (length (filter (in_flight (Queue.now e0)) (docs db0 c)))) as Hfly.
  { intros e0 db0. unfold Queue.inFlight. f_equal. apply count_filter. intros d.
    unfold in_flight, Queue.now.
    rewrite !andb_true_iff, exists_true, Z.ltb_lt, is_null_true. tauto. }
  assert (∀ db0, Queue.done self db0 = Ok (length (filter finalized (docs db0 c))))
    as Hdone.
  { intros. unfold Queue.done. f_equal. apply count_filter. intros d. apply exists_true. }
  assert (∀ db0, Queue.total self db0 = Ok (length (docs db0 c))) as Htotal.
  { intros. unfold Queue.total, Store.count, c. f_equal.
    induction (docs db0 (Queue.col self)) as [|x l IH]; simpl; [done | by rewrite IH]. }
  assert (∀ d, ¬ (claimable now d ∧ in_flight now d) ∧ ¬ (claimable now d ∧ finalized d)
          ∧ ¬ (in_flight now d ∧ finalized d)) as Hdisj.
  { intros d. unfold claimable, in_flight, finalized. split_and!.
    - intros [[_ ?] (_ & ? & _)]. lia.
    - intros [[Hd _] [t Ht]]. congruence.
    - intros [(_ & _ & Hd) [t Ht]]. congruence. }
  split_and!; [done..| | |].
  - done.
  - apply three_way_count; intros d; apply Hdisj.
  - intros payload opts e' Hempty Hone Hdelay Hlater r.
    assert (∃ a p, r = (Ok a, <[c := [Doc.mk (Env.objectId e O) now p None None None]]> db))
      as (a & p & Hr).
    { unfold r. rewrite add_eq. fold c. rewrite Hempty, Hdelay. simpl.
      destruct (payloads payload) as [|p [|??]]; simplify_eq/=.
      rewrite Z.add_0_r. eauto. }
    rewrite Hr. simpl. split; [by eauto|].
    rewrite Htotal, Hsize, Hfly, Hdone, docs_insert_eq.
    rewrite !filter_cons, !filter_nil.
    rewrite decide_True by (split; simpl; [done | lia]).
    rewrite decide_False by (intros ([? Hs] & _); simpl in Hs; done).
    rewrite decide_False by (intros [? Hs]; simpl in Hs; done).
    done.
Qed.

Lemma counts_partition_witness :
  let r := Queue.add Sample.plain (Atom "a") Opts.none (Sample.env 0) ∅ in
  r = (Ok (One 100), Sample.one)
  ∧ Queue.size Sample.plain (Sample.env 0) r.2 = Ok 1%nat
  ∧ Queue.inFlight Sample.plain (Sample.env 0) r.2 = Ok 0%nat
  ∧ Queue.done Sample.plain r.2 = Ok 0%nat.
Proof.
  intros r.
  destruct (counts_partition Sample.plain (Sample.env 0) ∅) as (_ & _ & _ & _ & _ & _ & Hadd).
  destruct (Hadd (Atom "a") Opts.none (Sample.env 0)) as (_ & _ & Hs & Hf & Hd).
  - apply docs_empty.
  - reflexivity.
  - reflexivity.
  - simpl. lia.
  - split; [vm_compute; reflexivity|]. done.
Defined.

(** ** The instant a message becomes visible *)

(** The claim as the specification words it fails for [ping]: a lease of
    sixty seconds taken at instant 0 and extended one second later for the
    thirty seconds of the queue ends at 31000 instead of 60000. *)
Lemma ping_moves_visible_back :
  let held : DB := {[ "jobs" := [Doc.mk 100 60000 (Atom "a") (Some "t") (Some 1) None] ]} in
  let pinged : DB := {[ "jobs" := [Doc.mk 100 31000 (Atom "a") (Some "t") (Some 1) None] ]} in
  Queue.get 1 Sample.plain (Sample.visibility 60) (Sample.env 0) Sample.one =
    Some (Ok (Some (Msg.mk 100 (Some "t") (Atom "a") (Some 1))), held)
  ∧ Queue.ping Sample.plain (Some "t") Opts.none (Sample.env 1000) held = (Ok 100, pinged)
  ∧ ¬ moves_forward held (Queue.ping Sample.plain (Some "t") Opts.none (Sample.env 1000) held).2.
Proof.
  intros held pinged.
  assert (Queue.ping Sample.plain (Some "t") Opts.none (Sample.env 1000) held
          = (Ok 100, pinged)) as Hping by (vm_compute; reflexivity).
  split_and!; [vm_compute; reflexivity | done |].
  rewrite Hping. intros Hforward.
  specialize (Hforward "jobs" O _ _ eq_refl eq_refl). simpl in Hforward. lia.
Qed.

(** C7, amended. A [get] whose visibilities, the call's and the queue's,
    are positive only moves [visible] forward, at every call it chains:
    the instant a claim replaces is at most the instant of the claim, the
    one it sets is after it. A [ping] that succeeds sets [visible] of the
    message it names to [now + visibility], after [now] for a positive
    visibility, and leaves every other document as it is; the instant it
    sets is not compared with the one it replaces. *)
Theorem visible_after_claim_and_ping self opts e db :
  let c := Queue.col self in
  let now := Queue.now e in
  let visibility := js_or (Opts.visibility opts) (Queue.visibility self) in
  (∀ fuel r db',
     0 < visibility → 0 < Queue.visibility self →
     Queue.get fuel self opts e db = Some (r, db') →
     moves_forward db db')
  ∧ (∀ m db',
       0 < visibility →
       Queue.get 1 self opts e db = Some (Ok (Some m), db') →
       ∃ i d d',
         docs db c !! i = Some d ∧ docs db' c !! i = Some d' ∧ Queue.view d' = m ∧
         Doc.visible d ≤ now ∧ Doc.visible d' = now + visibility * 1000)
  ∧ (∀ a x db',
       Queue.ping self a opts e db = (Ok x, db') →
       ∃ i d,
         docs db c !! i = Some d ∧ leased a now d ∧ Doc._id d = x ∧
         db' = <[c := <[i := Doc.set_visible (now + visibility * 1000) d]> (docs db c)]> db ∧
         (0 < visibility → now < Doc.visible (Doc.set_visible (now + visibility * 1000) d))).
Proof.
  intros c now visibility. split_and!.
  - intros fuel r db' Hpos Hqpos Hget.
    eapply (get_inv not_earlier) in Hget as [Hev _].
    + intros c' i d d' Hi Hi' Hne. destruct (Hev c' i d Hi) as (d2 & Hi2 & Hle).
      assert (d2 = d') as -> by congruence. unfold not_earlier in Hle. lia.
    + intros e' vis d Hvis [_ Hd]. unfold not_earlier.
      rewrite get_update_visible. fold visibility in Hvis.
      destruct Hvis as [-> | ->]; lia.
    + intros t a d _. unfold not_earlier. simpl. lia.
  - intros m db' Hpos (i & d & (Hi & [_ Hd]%get_query_true & _) & -> & ->)%get_1_returned.
    eexists i, d, _. fold c.
    rewrite docs_insert_eq, list_lookup_insert_eq by (by eapply lookup_lt_Some).
    by split_and!.
  - intros a x db'. rewrite ping_eq. unfold Store.findOneAndUpdate.
    destruct (Store.select Natural _ _) as [[i d]|] eqn:Hsel; [|done].
    apply select_Some_lookup in Hsel as [Hi Hq%ack_query_true].
    intros [= <- <-]. exists i, d. split_and!; [done..|]. simpl. lia.
Qed.

Lemma visible_after_claim_and_ping_witness :
  moves_forward Sample.one
    {[ "jobs" := [Doc.mk 100 60000 (Atom "a") (Some "t") (Some 1) None] ]}.
Proof.
  destruct (visible_after_claim_and_ping Sample.plain (Sample.visibility 60)
              (Sample.env 0) Sample.one) as [Hget _].
  eapply Hget with (fuel := 1%nat).
  - simpl. lia.
  - simpl. lia.
  - vm_compute. reflexivity.
Defined.

(** ** Options of a call *)

(** The claim as the specification words it fails for an option of
    zero: on a queue built with a delay of five seconds, [add] with
    [delay = 0] at instant 1000 makes a message visible at 6000, not at
    1000. *)
Lemma zero_delay_option_keeps_queue_delay :
  let slow := Queue.mk "jobs" "jobs" 30 5 None None in
  Queue.new true "jobs" (Sample.delay 5) = Ok slow
  ∧ Opts.delay (Sample.delay 0) = Some 0
  ∧ Queue.add slow (Atom "a") (Sample.delay 0) (Sample.env 1000) ∅ =
      (Ok (One 100), {[ "jobs" := [Doc.mk 100 6000 (Atom "a") None None None] ]})
  ∧ 6000 ≠ 1000 + 0 * 1000.
Proof. split_and!; [vm_compute; reflexivity..|lia]. Qed.

(** C8, amended. An option of a call that is not zero overrides the
    setting of the queue, whatever that is: with [delay = s], every
    message [add] or [addIfMissing] inserts is visible at [now + s]; with
    [visibility = v], the message a [get] claims and returns, and the
    message a [ping] extends, is visible again at [now + v]. *)
Theorem nonzero_call_option_overrides self e db :
  let c := Queue.col self in
  let now := Queue.now e in
  (∀ payload opts s,
     Opts.delay opts = Some s → s ≠ 0 →
     let r := Queue.add self payload opts e db in
     ∃ news,
       docs r.2 c = docs db c ++ news
       ∧ Forall (λ m, Doc.visible m = now + s * 1000) news
       ∧ (is_ok r.1 = true → length news = length (payloads payload) ∧ news ≠ []))
  ∧ (∀ x payload opts s,
       Opts.delay opts = Some s → s ≠ 0 →
       Forall (λ d, Doc._id d ≠ x) (docs db c) →
       let r := Queue.addIfMissing self x payload opts e db in
       ∃ m, docs r.2 c = docs db c ++ [m] ∧ Doc._id m = x ∧
            Doc.visible m = now + s * 1000)
  ∧ (∀ opts v m db',
       Opts.visibility opts = Some v → v ≠ 0 →
       Queue.get 1 self opts e db = Some (Ok (Some m), db') →
       (∀ fuel, Queue.get (S fuel) self opts e db = Some (Ok (Some m), db'))
       ∧ ∃ i d', docs db' c !! i = Some d' ∧ Queue.view d' = m ∧
                 Doc.visible d' = now + v * 1000)
  ∧ (∀ a opts v x db',
       Opts.visibility opts = Some v → v ≠ 0 →
       Queue.ping self a opts e db = (Ok x, db') →
       ∃ i d', docs db' c !! i = Some d' ∧ Doc._id d' = x ∧
               Doc.visible d' = now + v * 1000).
Proof.
  intros c now. split_and!.
  - intros payload opts s Hs Hnz r.
    destruct (add_appends self payload opts e db) as (news & Hdocs & Hall & Hlen).
    exists news. split_and!; [done| |done].
    eapply Forall_impl; [exact Hall|]. intros m [(Hvis & _) _]. simpl in Hvis.
    by rewrite Hvis, Hs, js_or_Some.
  - intros x payload opts s Hs Hnz Hfresh r. unfold r.
    rewrite addIfMissing_eq. fold c. cbv zeta.
    rewrite (proj2 (first_match_id_None x (docs db c)) Hfresh). simpl.
    eexists. rewrite docs_insert_eq. split_and!; [done..|]. simpl.
    by rewrite Hs, js_or_Some.
  - intros opts v m db' Hv Hnz Hget. split.
    + intros fuel. eapply get_fuel_mono; [|exact Hget]. lia.
    + apply get_1_returned in Hget as (i & d & (Hi & _) & -> & ->).
      eexists i, _. fold c.
      rewrite docs_insert_eq, list_lookup_insert_eq by (by eapply lookup_lt_Some).
      split_and!; [done..|]. rewrite get_update_visible. by rewrite Hv, js_or_Some.
  - intros a opts v x db' Hv Hnz. rewrite ping_eq. unfold Store.findOneAndUpdate.
    destruct (Store.select Natural _ _) as [[i d]|] eqn:Hsel; [|done].
    apply select_Some_lookup in Hsel as [Hi _].
    intros [= <- <-]. eexists i, _. fold c.
    rewrite docs_insert_eq, list_lookup_insert_eq by (by eapply lookup_lt_Some).
    split_and!; [done..|]. simpl. unfold Queue.nowPlusSecs.
    by rewrite Hv, js_or_Some.
Qed.

Lemma nonzero_call_option_overrides_witness :
  let slow := Queue.mk "jobs" "jobs" 30 5 None None in
  ∃ m, docs (Queue.addIfMissing slow 7 (Atom "x") (Sample.delay 2) (Sample.env 1000) ∅).2
         "jobs" = [m]
       ∧ Doc.visible m = 1000 + 2 * 1000.
Proof.
  intros slow.
  destruct (nonzero_call_option_overrides slow (Sample.env 1000) ∅) as (_ & Hadd & _).
  destruct (Hadd 7 (Atom "x") (Sample.delay 2) 2) as (m & Hdocs & _ & Hvis).
  - reflexivity.
  - lia.
  - rewrite docs_empty. constructor.
  - exists m. split; [|done]. rewrite docs_empty in Hdocs. exact Hdocs.
Defined.

(** ** The start of a message *)

(** C9. A message [add] or [addIfMissing] inserts is pending and has no
    [tries], which the store's increment counts as zero, and [add] does
    insert its messages when the identifiers generated for them are
    distinct and new to the collection; no call but [get] changes the
    [tries] of a document; the [get] that claims such a message first,
    unless the queue forwards at a ceiling below one, returns it with
    [tries] 1; and on any queue a message [get] claims and returns has
    one more [tries] than were stored, so 1 at its first claim. *)
Theorem new_message_starts_untried self e db :
  let c := Queue.col self in
  let now := Queue.now e in
  (∀ payload opts,
     let r := Queue.add self payload opts e db in
     let visible := now + js_or (Opts.delay opts) (Queue.delay self) * 1000 in
     ∃ news,
       docs r.2 c = docs db c ++ news
       ∧ Forall (λ m, pending_at visible m ∧ default 0 (Doc.tries m) = 0) news
       ∧ (is_ok r.1 = true → length news = length (payloads payload) ∧ news ≠ []))
  ∧ (∀ payload opts,
       let visible := now + js_or (Opts.delay opts) (Queue.delay self) * 1000 in
       let ps := payloads payload in
       let ids := generated e (length ps) in
       let news := new_docs ids visible ps in
       payload ≠ Arr [] →
       NoDup ids →
       Forall (λ d, Doc._id d ∉ ids) (docs db c) →
       Queue.add self payload opts e db =
         (Ok (added_ids payload ids), <[c := docs db c ++ news]> db)
       ∧ length news = length ps
       ∧ Forall (λ m, pending_at visible m ∧ default 0 (Doc.tries m) = 0) news)
  ∧ (∀ x payload opts,
       Forall (λ d, Doc._id d ≠ x) (docs db c) →
       let r := Queue.addIfMissing self x payload opts e db in
       let visible := now + js_or (Opts.delay opts) (Queue.delay self) * 1000 in
       ∃ m, docs r.2 c = docs db c ++ [m] ∧ Doc._id m = x ∧
            pending_at visible m ∧ default 0 (Doc.tries m) = 0)
  ∧ (∀ k db',
       is_get k = false → is_clean k = false → run k e db = Some db' →
       ∀ c' i d, docs db c' !! i = Some d →
         ∃ d', docs db' c' !! i = Some d' ∧ Doc.tries d' = Doc.tries d)
  ∧ (∀ fuel opts i d,
       least (get_query e) (docs db c) i d →
       Doc.tries d = None →
       Queue.deadQueue self = None ∨ js_gt (Some 1) (Queue.maxRetries self) = false →
       ∃ db',
         Queue.get (S fuel) self opts e db =
           Some (Ok (Some (Msg.mk (Doc._id d) (Some (Env.randomBytes e O))
                             (Doc.payload d) (Some 1))), db')
         ∧ ∃ d', docs db' c !! i = Some d' ∧ Doc.tries d' = Some 1)
  ∧ (∀ opts m db',
       Queue.get 1 self opts e db = Some (Ok (Some m), db') →
       ∃ i d,
         least (get_query e) (docs db c) i d ∧ Msg.id m = Doc._id d ∧
         Msg.tries m = Some (default 0 (Doc.tries d) + 1) ∧
         (Doc.tries d = None → Msg.tries m = Some 1)).
Proof.
  intros c now. split_and!.
  - intros payload opts r visible.
    destruct (add_appends self payload opts e db) as (news & Hdocs & Hall & Hlen).
    exists news. split_and!; [done| |done].
    eapply Forall_impl; [exact Hall|]. intros m [Hp _]. split; [done|].
    destruct Hp as (_ & _ & -> & _). done.
  - intros payload opts visible ps ids news Hne Hnd Hfresh. split_and!.
    + by apply add_fresh.
    + unfold news. rewrite <- (length_fmap Doc._id), new_docs_ids; apply generated_length.
    + eapply Forall_impl; [apply new_docs_pending|].
      intros m Hp. split; [done|]. destruct Hp as (_ & _ & -> & _). done.
  - intros x payload opts Hfresh r visible. unfold r.
    rewrite addIfMissing_eq. fold c. cbv zeta.
    rewrite (proj2 (first_match_id_None x (docs db c)) Hfresh). simpl.
    eexists. rewrite docs_insert_eq. by split_and!.
  - intros k db' Hget Hclean Hrun. apply (run_same_tries k e db db'); [|done].
    by destruct k.
  - intros fuel opts i d Hleast Htries Hno.
    pose proof Hleast as (Hi & _).
    apply least_match_Some in Hleast. eexists.
    rewrite (get_direct fuel self opts e db i d Hleast).
    + unfold Queue.view, get_update. simpl. rewrite Htries. simpl.
      split; [done|]. fold c.
      rewrite docs_insert_eq, list_lookup_insert_eq by (by eapply lookup_lt_Some).
      eexists. split; [done|]. simpl. by rewrite Htries.
    + unfold redirects. simpl. rewrite Htries. simpl.
      destruct Hno as [-> | Hgt]; [done|]. by destruct (Queue.deadQueue self).
  - intros opts m db' (i & d & Hleast & -> & _)%get_1_returned.
    exists i, d. split_and!; [done..|]. simpl. by intros ->.
Qed.

Lemma new_message_starts_untried_witness :
  Queue.add Sample.capped (Atom "a") Opts.none (Sample.env 0) ∅ = (Ok (One 100), Sample.one)
  ∧ ∃ db',
      Queue.get 1 Sample.capped Opts.none (Sample.env 5) Sample.one =
        Some (Ok (Some (Msg.mk 100 (Some "t") (Atom "a") (Some 1))), db').
Proof.
  split.
  - destruct (new_message_starts_untried Sample.capped (Sample.env 0) ∅)
      as (_ & Hadd & _).
    destruct (Hadd (Atom "a") Opts.none) as (-> & _).
    + done.
    + compute_done.
    + rewrite docs_empty. constructor.
    + vm_compute. reflexivity.
  - destruct (new_message_starts_untried Sample.capped (Sample.env 5) Sample.one)
      as (_ & _ & _ & _ & Hget & _).
    destruct (Hget O Opts.none O (Doc.mk 100 0 (Atom "a") None None None))
      as (db' & Heq & _).
    + change (docs Sample.one (Queue.col Sample.capped))
        with [Doc.mk 100 0 (Atom "a") None None None].
      split_and!; [done..|].
      intros [|k] x; simpl; [|done]; intros [= <-] _; simpl; split; intros; lia.
    + reflexivity.
    + by right.
    + by exists db'.
Defined.

(** ** Options and forwarding *)

(** C10. When [get] is called with a visibility option and forwards the
    first message it claims, the result comes from a further [get] that
    is given no options: the message returned to the caller is held for
    the visibility of the queue, counted from the instant of a chained
    call, not for the visibility of the call. *)
Theorem forwarded_get_uses_queue_visibility fuel self dq mx opts v e db i d m db' :
  let c := Queue.col self in
  Opts.visibility opts = Some v →
  Queue.deadQueue self = Some dq →
  Queue.maxRetries self = Some mx →
  least (get_query e) (docs db c) i d →
  mx < default 0 (Doc.tries d) + 1 →
  Queue.get fuel self opts e db = Some (Ok (Some m), db') →
  (∃ fuel' db3,
     fuel = S fuel' ∧
     Queue.get fuel' self Opts.none (Env.next (Env.next (Env.next e))) db3 =
       Some (Ok (Some m), db'))
  ∧ (∃ j d' k,
       docs db' c !! j = Some d' ∧ Queue.view d' = m ∧ k ≠ O ∧
       Doc.visible d' = Env.clock e k + Queue.visibility self * 1000).
Proof.
  intros c Hv Hdq Hmx Hleast%least_match_Some Hover Hget.
  destruct fuel as [|fuel]; [done|].
  destruct (get_redirect fuel self opts e db i d Hleast) as (dq' & _ & Heq).
  { unfold redirects. rewrite Hdq, Hmx. simpl. by apply Z.ltb_lt. }
  rewrite Heq in Hget. clear Heq.
  destruct (Queue.add dq' _ _ _ _) as [[?|err] db2]; [|done].
  destruct (Queue.ack self _ _ _) as [[?|err] db3]; [|done].
  split; [by exists fuel, db3|].
  apply get_returned in Hget
    as (j & d' & k & vis & Hj & Hview & _ & _ & _ & Hvis & Hor & _).
  exists j, d', (3 + k)%nat. split_and!; [done..|lia|].
  rewrite Hvis. simpl in Hor. by destruct Hor as [[_ ->] | [_ ->]].
Qed.

Lemma forwarded_get_uses_queue_visibility_witness :
  let db' : DB :=
    {[ "jobs" := [Doc.mk 100 140000 (Atom "a") (Some "t") (Some 3) (Some 80002);
                  Doc.mk 101 110003 (Atom "b") (Some "t'''") (Some 1) None];
       "dead" := [Doc.mk 101 80001 (Obj (Msg.mk 100 (Some "t") (Atom "a") (Some 3)))
                    None None None] ]} in
  ∃ j d' k,
    docs db' "jobs" !! j = Some d'
    ∧ Queue.view d' = Msg.mk 101 (Some "t'''") (Atom "b") (Some 1)
    ∧ k ≠ O
    ∧ Doc.visible d' = Env.clock (Sample.env 80000) k + 30 * 1000.
Proof.
  intros db'.
  eapply proj2,
    (forwarded_get_uses_queue_visibility 2 Sample.capped Sample.dead 2
       (Sample.visibility 60) 60 (Sample.env 80000) Sample.twice O
       (Doc.mk 100 70000 (Atom "a") (Some "s") (Some 2) None)
       (Msg.mk 101 (Some "t'''") (Atom "b") (Some 1)) db' eq_refl eq_refl eq_refl).
  - change (docs Sample.twice (Queue.col Sample.capped))
      with [Doc.mk 100 70000 (Atom "a") (Some "s") (Some 2) None;
            Doc.mk 101 0 (Atom "b") None None None].
    split_and!; [done..|].
    intros [|[|k]] x; simpl; [| |done]; intros [= <-] _; simpl; split; intros; lia.
  - simpl. lia.
  - exact get_forwards_over_retried_scenario.
Defined.

(** * Further properties of the code *)

(** ** The constructor *)

(** X1. The constructor refuses a missing client, and then a missing
    name. A queue it builds uses the named collection; its visibility is
    never zero (zero and a missing option give 30), so no call, whatever
    its options, takes a lease of zero seconds; it has a retry ceiling
    exactly when it has a dead queue, and that ceiling is never zero
    (zero and a missing option give 5). *)
Theorem new_checks_and_defaults mongoDbClient name opts :
  (mongoDbClient = false → Queue.new mongoDbClient name opts = Err ProvideClient)
  ∧ (mongoDbClient = true → name = "" → Queue.new mongoDbClient name opts = Err ProvideName)
  ∧ (mongoDbClient = true → name ≠ "" →
       ∃ q, Queue.new mongoDbClient name opts = Ok q
         ∧ Queue.name q = name ∧ Queue.col q = name
         ∧ Queue.visibility q ≠ 0
         ∧ (Opts.visibility opts = None → Queue.visibility q = 30)
         ∧ (∀ o : Opts.t Queue.t, js_or (Opts.visibility o) (Queue.visibility q) ≠ 0)
         ∧ (Opts.delay opts = None → Queue.delay q = 0)
         ∧ Queue.deadQueue q = Opts.deadQueue opts
         ∧ (Queue.deadQueue q = None ↔ Queue.maxRetries q = None)
         ∧ (∀ mx, Queue.maxRetries q = Some mx →
              mx ≠ 0 ∧ (Opts.maxRetries opts = None → mx = 5))).
Proof.
  assert (∀ a b, b ≠ 0 → js_or a b ≠ 0) as Hnz.
  { intros [v|] b Hb; simpl; [|done]. by destruct (v =? 0) eqn:Hv; [|apply Z.eqb_neq]. }
  split_and!.
  - by intros ->.
  - by intros -> ->.
  - intros -> Hname. unfold Queue.new. simpl.
    rewrite bool_decide_eq_false_2 by done. eexists. split; [done|]. simpl.
    split_and!; try done.
    + by apply Hnz.
    + by intros ->.
    + intros o. by apply Hnz, Hnz.
    + by intros ->.
    + by destruct (Opts.deadQueue opts).
    + intros mx. destruct (Opts.deadQueue opts); [|done]. intros [= <-]. split.
      * by apply Hnz.
      * by intros ->.
Qed.

Lemma new_checks_and_defaults_witness :
  Queue.new true "jobs" (Opts.mk (Some 0) None (Some Sample.dead) (Some 0))
    = Ok (Queue.mk "jobs" "jobs" 30 0 (Some Sample.dead) (Some 5))
  ∧ Queue.new false "" Opts.none = Err ProvideClient.
Proof.
  destruct (new_checks_and_defaults false "" Opts.none) as (Hclient & _).
  destruct (new_checks_and_defaults true "jobs"
              (Opts.mk (Some 0) None (Some Sample.dead) (Some 0))) as (_ & _ & Hok).
  split; [|by apply Hclient].
  destruct Hok as (q & Heq & _); [done..|].
  rewrite Heq. vm_compute in Heq. injection Heq as <-. reflexivity.
Defined.

(** ** Errors and batches of [add] *)

(** X2. [add] fails with its own error exactly when the payload is an
    empty Array, and then it writes nothing. *)
Theorem add_errors self payload opts e db :
  (payload = Arr [] → Queue.add self payload opts e db = (Err ArrayPayloadEmpty, db))
  ∧ (∀ db',
       Queue.add self payload opts e db = (Err ArrayPayloadEmpty, db') →
       payload = Arr [] ∧ db' = db).
Proof.
  split.
  - by intros ->.
  - intros db'. rewrite add_eq. cbv zeta.
    destruct (payloads payload) as [|p ps] eqn:Hp.
    { intros [= <-]. by apply payloads_nil in Hp. }
    destruct (Store.insert_each _ _ _) as [[err'|] col'] eqn:Hins; [|done].
    apply insert_each_err in Hins as (d & _ & -> & _). done.
Qed.

Lemma add_errors_witness :
  Queue.add Sample.plain (Arr []) Opts.none (Sample.env 0) Sample.one
    = (Err ArrayPayloadEmpty, Sample.one).
Proof.
  destruct (add_errors Sample.plain (Arr []) Opts.none (Sample.env 0) Sample.one)
    as [Hempty _].
  by apply Hempty.
Defined.

(** X3. When the identifiers generated for a call are distinct and new
    to the collection, [add] of a payload, or of a non-empty Array of
    payloads, succeeds: it appends one pending message per payload, in
    the order of the payloads, each under its generated identifier and
    visible at [now + delay], and hands back that identifier, or for an
    Array the identifiers in the same order. *)
Theorem add_batch_in_order self payload opts e db :
  let c := Queue.col self in
  let visible := Queue.now e + js_or (Opts.delay opts) (Queue.delay self) * 1000 in
  let ps := payloads payload in
  let ids := generated e (length ps) in
  payload ≠ Arr [] →
  NoDup ids →
  Forall (λ d, Doc._id d ∉ ids) (docs db c) →
  Queue.add self payload opts e db =
    (Ok (added_ids payload ids), <[c := docs db c ++ new_docs ids visible ps]> db)
  ∧ length (new_docs ids visible ps) = length ps
  ∧ Doc._id <$> new_docs ids visible ps = ids
  ∧ Doc.payload <$> new_docs ids visible ps = ps.
Proof.
  intros c visible ps ids Hne Hnd Hfresh.
  assert (length ids = length ps) as Hlen by apply generated_length.
  assert (Doc._id <$> new_docs ids visible ps = ids) as Hids by by apply new_docs_ids.
  split_and!; [|by rewrite <- (length_fmap Doc._id), Hids|done|].
  - assert (Store.insert_each c (new_docs ids visible ps) (docs db c)
            = (None, docs db c ++ new_docs ids visible ps)) as Hins.
    { apply insert_each_fresh; by rewrite Hids. }
    rewrite add_eq. cbv zeta. fold c. rewrite add_ops. fold visible ps ids.
    rewrite Hins. unfold added_of, added_ids.
    destruct payload as [s|[|p l]|m]; try done.
    by rewrite Hids.
  - clear Hfresh Hnd Hids. revert Hlen. generalize ids. clear ids.
    induction ps as [|p ps' IH]; intros [|i ids]; simpl; try done.
    intros [= Hlen]. unfold new_docs in *. simpl. by rewrite IH.
Qed.

Lemma add_batch_in_order_witness :
  Queue.add Sample.plain (Arr [Atom "a"; Atom "b"]) Opts.none (Sample.env 0) ∅
    = (Ok (Many [100; 101]), Sample.pair).
Proof.
  destruct (add_batch_in_order Sample.plain (Arr [Atom "a"; Atom "b"]) Opts.none
              (Sample.env 0) ∅) as (-> & _).
  - done.
  - compute_done.
  - rewrite docs_empty. constructor.
  - vm_compute. reflexivity.
Defined.

(** ** Cancelling *)

(** X4. [cancel] succeeds exactly when a message with the identifier has
    [deleted] null and [visible <= now]: it then sets [deleted] of that
    message to [now] and changes nothing else. Otherwise it fails with
    "Unidentified id" and leaves the store as it is; so it does, where
    identifiers are unique, for a message that is finalized already, or
    that is leased or delayed ([visible > now]). *)
Theorem cancel_match_or_fail self x e db :
  let c := Queue.col self in
  let now := Queue.now e in
  (Forall (λ d, ¬ cancelable x now d) (docs db c) →
     Queue.cancel self x e db = (Err (UnidentifiedId x), db))
  ∧ (Exists (cancelable x now) (docs db c) →
     ∃ i d,
       docs db c !! i = Some d ∧ cancelable x now d ∧
       Queue.cancel self x e db =
         (Ok tt, <[c := <[i := Doc.set_deleted now d]> (docs db c)]> db))
  ∧ (∀ i d,
       NoDup (Doc._id <$> docs db c) →
       docs db c !! i = Some d → Doc._id d = x →
       finalized d ∨ now < Doc.visible d →
       Queue.cancel self x e db = (Err (UnidentifiedId x), db)).
Proof.
  intros c now.
  assert (Forall (λ d, ¬ cancelable x now d) (docs db c) →
     Queue.cancel self x e db = (Err (UnidentifiedId x), db)) as Hfail.
  { intros Hall. rewrite cancel_eq, findOneAndUpdate_None; [done|].
    eapply Forall_impl; [exact Hall|]. intros d. apply cancel_query_false. }
  split_and!; [done| |].
  - intros Hex.
    destruct (Store.first_match (cancel_query x e) (docs db c)) as [[i d]|] eqn:Hm.
    + pose proof Hm as (Hi & Hq%cancel_query_true & _)%first_match_Some.
      exists i, d. split_and!; [done..|].
      by rewrite cancel_eq, (findOneAndUpdate_Some _ _ _ Natural _ i d Hm).
    + apply first_match_None in Hm. apply Exists_exists in Hex as (d & Hin & Hd).
      rewrite Forall_forall in Hm. specialize (Hm d Hin). simpl in Hm.
      by apply cancel_query_false in Hm.
  - intros i d Hnd Hi Hid Hnot. apply Hfail, Forall_lookup. intros j dj Hj [Hidj [Hdel Hvis]].
    assert (j = i) as ->.
    { eapply NoDup_lookup; [exact Hnd|..]; rewrite list_lookup_fmap.
      - by rewrite Hj.
      - rewrite Hi. simpl. congruence. }
    assert (dj = d) as -> by congruence.
    destruct Hnot as [[t Ht]|Hlt]; [congruence | lia].
Qed.

Lemma cancel_match_or_fail_witness :
  Queue.cancel Sample.plain 101 (Sample.env 5) Sample.pair_held =
    (Ok tt, {[ "jobs" := [Doc.mk 100 30000 (Atom "a") (Some "t") (Some 1) None;
                          Doc.mk 101 0 (Atom "b") None None (Some 5)] ]})
  ∧ Queue.cancel Sample.plain 100 (Sample.env 5) Sample.pair_held =
    (Err (UnidentifiedId 100), Sample.pair_held).
Proof.
  destruct (cancel_match_or_fail Sample.plain 101 (Sample.env 5) Sample.pair_held)
    as (_ & Hok & _).
  destruct (cancel_match_or_fail Sample.plain 100 (Sample.env 5) Sample.pair_held)
    as (_ & _ & Hheld).
  change (docs Sample.pair_held (Queue.col Sample.plain))
    with [Doc.mk 100 30000 (Atom "a") (Some "t") (Some 1) None;
          Doc.mk 101 0 (Atom "b") None None None] in Hok, Hheld.
  split.
  - destruct Hok as (i & d & Hi & [Hid _] & ->).
    { apply Exists_cons_tl, Exists_cons_hd. split; [done|]. split; [done | simpl; lia]. }
    destruct i as [|[|i]]; simpl in Hi; [| |done]; injection Hi as <-; [done|].
    vm_compute. reflexivity.
  - apply (Hheld O (Doc.mk 100 30000 (Atom "a") (Some "t") (Some 1) None)).
    + compute_done.
    + done.
    + done.
    + right. simpl. lia.
Defined.

(** ** Cleaning *)

(** X5. [clean] removes from the queue's collection the finalized
    messages and nothing else: what it keeps stays in order, other
    collections are untouched, and the number it hands back is what
    [done] counted. Afterwards [done] is zero, [size] and [inFlight] are
    what they were, [total] has dropped by the number removed, and a
    second [clean] removes nothing. *)
Theorem clean_removes_finalized self e db :
  let c := Queue.col self in
  let r := Queue.clean self db in
  r.1 = Ok (length (filter finalized (docs db c)))
  ∧ Queue.done self db = r.1
  ∧ r.2 = <[c := filter (λ d, ¬ finalized d) (docs db c)]> db
  ∧ Queue.done self r.2 = Ok O
  ∧ Queue.size self e r.2 = Queue.size self e db
  ∧ Queue.inFlight self e r.2 = Queue.inFlight self e db
  ∧ (∃ t, Queue.total self r.2 = Ok t ∧
          Queue.total self db = Ok (t + length (filter finalized (docs db c)))%nat)
  ∧ Queue.clean self r.2 = (Ok O, r.2).
Proof.
  intros c r. unfold r. rewrite clean_eq. fold c. simpl.
  assert (Store.count (λ d, exists_ (Doc.deleted d)) (docs db c)
          = length (filter finalized (docs db c))) as Hdone.
  { apply count_filter. intros d. apply exists_true. }
  split_and!.
  - by rewrite Hdone.
  - done.
  - f_equal. apply List_filter_filter. apply kept_true.
  - unfold Queue.done. fold c. rewrite docs_insert_eq. f_equal.
    apply (count_filter_drop (λ d, exists_ (Doc.deleted d))).
  - unfold Queue.size. fold c. rewrite docs_insert_eq. f_equal.
    apply count_filter_keep. intros d [Hd _]%andb_true_iff.
    unfold kept. apply is_null_true in Hd. by rewrite Hd.
  - unfold Queue.inFlight. fold c. rewrite docs_insert_eq. f_equal.
    apply count_filter_keep. intros d [_ Hd]%andb_true_iff.
    unfold kept. apply is_null_true in Hd. by rewrite Hd.
  - eexists. unfold Queue.total. fold c. rewrite docs_insert_eq. split; [done|].
    f_equal. rewrite <- Hdone.
    assert (∀ l : list Doc.t, Store.count (λ _, true) l = length l) as Hall.
    { intros l. unfold Store.count. induction l; simpl; congruence. }
    rewrite !Hall. symmetry. apply (length_filter_split (λ d, exists_ (Doc.deleted d))).
  - rewrite clean_eq. fold c. rewrite docs_insert_eq, filter_kept_idem, insert_insert_eq.
    f_equal. f_equal. apply (count_filter_drop (λ d, exists_ (Doc.deleted d))).
Qed.

(** X6. [clean], run through any queue, does not show in what the other
    calls hand back: on the cleaned store [ping], [ack] and [cancel]
    succeed or fail as on the store before, with the same identifier, a
    [get] that does not forward returns the same message, and [size] and
    [inFlight] count the same. *)
Theorem clean_is_invisible self cleaner a x opts e db :
  let db' := (Queue.clean cleaner db).2 in
  (Queue.ping self a opts e db').1 = (Queue.ping self a opts e db).1
  ∧ (Queue.ack self a e db').1 = (Queue.ack self a e db).1
  ∧ (Queue.cancel self x e db').1 = (Queue.cancel self x e db).1
  ∧ (Queue.deadQueue self = None →
     ∀ fuel, fst <$> Queue.get fuel self opts e db' = fst <$> Queue.get fuel self opts e db)
  ∧ Queue.size self e db' = Queue.size self e db
  ∧ Queue.inFlight self e db' = Queue.inFlight self e db.
Proof.
  intros db'.
  assert (∀ d, ack_query a e d = true → kept d = true) as Hack.
  { intros d (_ & _ & Hd)%ack_query_true. unfold kept. by rewrite Hd. }
  assert (∀ d, get_query e d = true → kept d = true) as Hget.
  { intros d [Hd _]%get_query_true. unfold kept. by rewrite Hd. }
  assert (∀ (q : Doc.t → bool), (∀ d, q d = true → kept d = true) →
            Store.count q (docs db' (Queue.col self))
            = Store.count q (docs db (Queue.col self))) as Hcount.
  { intros q Hq. unfold db'. rewrite docs_clean. destruct (decide _); [|done].
    by apply count_filter_keep. }
  split_and!.
  - rewrite !ping_eq.
    pose proof (findOneAndUpdate_result (Queue.col self) (ack_query a e)
      (Doc.set_visible (Queue.nowPlusSecs e
         (js_or (Opts.visibility opts) (Queue.visibility self)))) Natural) as Hres.
    pose proof (Hres db) as H1. pose proof (Hres db') as H2.
    unfold db' in H2. rewrite select_clean in H2 by done. rewrite <- H1 in H2.
    fold db' in H2.
    destruct (Store.findOneAndUpdate _ _ _ _ db') as [[?|] ?],
      (Store.findOneAndUpdate _ _ _ _ db) as [[?|] ?]; simpl in *; congruence.
  - rewrite !ack_eq.
    pose proof (findOneAndUpdate_result (Queue.col self) (ack_query a e)
      (Doc.set_deleted (Queue.now e)) Natural) as Hres.
    pose proof (Hres db) as H1. pose proof (Hres db') as H2.
    unfold db' in H2. rewrite select_clean in H2 by done. rewrite <- H1 in H2.
    fold db' in H2.
    destruct (Store.findOneAndUpdate _ _ _ _ db') as [[?|] ?],
      (Store.findOneAndUpdate _ _ _ _ db) as [[?|] ?]; simpl in *; congruence.
  - rewrite !cancel_eq.
    pose proof (findOneAndUpdate_result (Queue.col self) (cancel_query x e)
      (Doc.set_deleted (Queue.now e)) Natural) as Hres.
    pose proof (Hres db) as H1. pose proof (Hres db') as H2.
    unfold db' in H2. rewrite select_clean in H2.
    2:{ intros d (_ & Hd & _)%cancel_query_true. unfold kept. by rewrite Hd. }
    rewrite <- H1 in H2. fold db' in H2.
    destruct (Store.findOneAndUpdate _ _ _ _ db') as [[?|] ?],
      (Store.findOneAndUpdate _ _ _ _ db) as [[?|] ?]; simpl in *; congruence.
  - intros Hdq [|fuel]; [done|]. rewrite !get_S, Hdq.
    pose proof (findOneAndUpdate_result (Queue.col self) (get_query e)
      (get_update e (js_or (Opts.visibility opts) (Queue.visibility self))) ById) as Hres.
    pose proof (Hres db) as H1. pose proof (Hres db') as H2.
    unfold db' in H2. rewrite select_clean in H2 by done. rewrite <- H1 in H2.
    fold db' in H2.
    destruct (Store.findOneAndUpdate _ _ _ _ db') as [[?|] ?],
      (Store.findOneAndUpdate _ _ _ _ db) as [[?|] ?]; simpl in *; congruence.
  - unfold Queue.size. f_equal. apply Hcount. intros d Hd. by apply Hget.
  - unfold Queue.inFlight. f_equal. apply Hcount.
    intros d [_ Hd]%andb_true_iff. unfold kept. apply is_null_true in Hd. by rewrite Hd.
Qed.

Lemma clean_is_invisible_witness :
  fst <$> Queue.get 1 Sample.plain Opts.none (Sample.env 2000)
            (Queue.clean Sample.plain Sample.pair_acked).2
    = Some (Ok (Some (Msg.mk 101 (Some "t") (Atom "b") (Some 1)))).
Proof.
  destruct (clean_is_invisible Sample.plain Sample.plain None 0 Opts.none
              (Sample.env 2000) Sample.pair_acked) as (_ & _ & _ & Hget & _).
  rewrite (Hget eq_refl 1%nat). vm_compute. reflexivity.
Defined.

(** ** What every call keeps *)

(** X7. Whatever the call ([clean] apart, which removes documents), a
    stored message stays at its place with its identifier and its
    payload; its [tries] never decreases; and its [ack] token, its
    [tries] and its [deleted] mark, once set, are never unset. *)
Theorem stored_message_keeps_identity k e db db' c i d :
  is_clean k = false →
  run k e db = Some db' →
  docs db c !! i = Some d →
  ∃ d', docs db' c !! i = Some d' ∧ keeps_identity d d'.
Proof.
  intros Hk Hrun Hi.
  destruct (run_inv keeps_identity k e db db' respects_keeps_identity Hrun) as [Hev _].
  by apply Hev.
Qed.

Lemma stored_message_keeps_identity_witness :
  ∃ d', docs {[ "jobs" := [Doc.mk 100 30000 (Atom "a") (Some "t") (Some 1) None;
                           Doc.mk 101 0 (Atom "b") None None None] ]} "jobs" !! O = Some d'
        ∧ Doc.payload d' = Atom "a" ∧ 0 ≤ default 0 (Doc.tries d').
Proof.
  destruct (stored_message_keeps_identity (Get 1 Sample.plain Opts.none) (Sample.env 0)
              Sample.pair Sample.pair_held "jobs" O
              (Doc.mk 100 0 (Atom "a") None None None))
    as (d' & Hd' & _ & Hp & Ht & _).
  - reflexivity.
  - vm_compute. reflexivity.
  - reflexivity.
  - exists d'. by split_and!.
Defined.

(** ** Messages hidden from [get] *)

(** X8. Where identifiers are unique, a message whose [visible] lies
    after every instant at which a [get] and the calls it chains read the
    clock (three readings for each attempt: the claim, the dead queue's
    [add], the [ack]) is not returned by that [get], whatever else the
    [get] claims or forwards: a message under lease, or a delayed one,
    stays hidden. *)
Theorem hidden_message_not_returned fuel self opts e db i d T m db' :
  let c := Queue.col self in
  wf db →
  docs db c !! i = Some d →
  T ≤ Doc.visible d →
  (∀ k, (k < 3 * fuel)%nat → Env.clock e k < T) →
  Queue.get fuel self opts e db = Some (Ok (Some m), db') →
  Msg.id m ≠ Doc._id d.
Proof.
  intros c. revert opts e db d.
  induction fuel as [|fuel IH]; intros opts e db d Hwf Hi HT Hclock; [done|].
  rewrite get_S. unfold Store.findOneAndUpdate.
  destruct (Store.select ById _ _) as [[j dj]|] eqn:Hsel; [|done].
  apply select_Some_lookup in Hsel as [Hj [Hdel Hvis]%get_query_true]. fold c in Hj.
  assert (j ≠ i) as Hne.
  { intros ->. assert (dj = d) as -> by congruence.
    specialize (Hclock O ltac:(lia)). unfold Queue.now in Hvis. lia. }
  set (d' := get_update e _ dj). fold c.
  set (db1 := <[c := <[j := d']> (docs db c)]> db).
  assert (wf db1) as Hwf1 by (by eapply wf_update).
  assert (docs db1 c !! i = Some d) as Hi1.
  { unfold db1. by rewrite docs_insert_eq, list_lookup_insert_ne. }
  assert (Some (Ok (Some (Queue.view d')), db1) = Some (Ok (Some m), db') →
          Msg.id m ≠ Doc._id d) as Hdirect.
  { intros [= <- <-] Heq. apply Hne.
    eapply NoDup_lookup; [exact (Hwf c)|..]; rewrite list_lookup_fmap.
    - by rewrite Hj.
    - rewrite Hi. simpl. f_equal. done. }
  destruct (Queue.deadQueue self) as [dq|]; [|done].
  destruct (redirects self (Queue.view d')); [|done].
  pose proof (add_inv held_on dq (Obj (Queue.view d')) Opts.none (Env.next e) db1)
    as [Hev2 Hwf2].
  destruct (Queue.add dq _ _ _ _) as [[?|err] db2]; [|done]. simpl in Hev2, Hwf2.
  pose proof (ack_inv held_on self (Doc.ack d') (Env.next (Env.next e)) db2) as [Hev3 Hwf3].
  { intros x _. unfold held_on. simpl. split; (done || lia). }
  destruct (Queue.ack self _ _ _) as [[?|err] db3]; [|done]. simpl in Hev3, Hwf3.
  destruct (Hev2 c i d Hi1) as (d2 & Hi2 & Hid2 & Hvis2).
  destruct (Hev3 c i d2 Hi2) as (d3 & Hi3 & Hid3 & Hvis3).
  intros Hget. rewrite <- Hid2, <- Hid3.
  eapply (IH _ _ db3 d3); [by auto | done | lia | | exact Hget].
  intros k Hk. apply (Hclock (3 + k)%nat). lia.
Qed.

Lemma hidden_message_not_returned_witness :
  let m := Msg.mk 101 (Some "t'") (Atom "b") (Some 1) in
  let db' : DB :=
    {[ "jobs" := [Doc.mk 100 30000 (Atom "a") (Some "t") (Some 1) None;
                  Doc.mk 101 32000 (Atom "b") (Some "t'") (Some 1) None] ]} in
  Queue.get 1 Sample.plain Opts.none (Env.next (Sample.env 1999)) Sample.pair_held
    = Some (Ok (Some m), db')
  ∧ Msg.id m ≠ 100.
Proof.
  intros m db'.
  assert (Queue.get 1 Sample.plain Opts.none (Env.next (Sample.env 1999)) Sample.pair_held
          = Some (Ok (Some m), db')) as Hget by (vm_compute; reflexivity).
  split; [exact Hget|].
  apply (hidden_message_not_returned 1 Sample.plain Opts.none (Env.next (Sample.env 1999))
           Sample.pair_held O (Doc.mk 100 30000 (Atom "a") (Some "t") (Some 1) None)
           30000 m db').
  - intros c. destruct (decide (c = "jobs")) as [->|Hne].
    + compute_done.
    + unfold docs, Sample.pair_held. rewrite lookup_singleton_ne by done. constructor.
  - reflexivity.
  - simpl. lia.
  - intros k Hk. simpl. lia.
  - exact Hget.
Defined.

(** ** The life of an ack token *)

(** X9. An acknowledgement is final: where the token is carried by one
    document only, once [ack] has succeeded with it, every later [ack]
    and [ping] with the same token fails, whenever it is made, and
    leaves the store as it is. *)
Theorem ack_is_final self tok e db x db' :
  let c := Queue.col self in
  token_of_one tok (docs db c) →
  Queue.ack self (Some tok) e db = (Ok x, db') →
  ∀ e' opts,
    Queue.ack self (Some tok) e' db' = (Err (UnidentifiedAck "ack" (Some tok)), db')
    ∧ Queue.ping self (Some tok) opts e' db' = (Err (UnidentifiedAck "ping" (Some tok)), db').
Proof.
  intros c Hone (i & d & Hi & (Hack & _) & _ & _ & ->)%ack_Ok e' opts.
  apply ack_ping_fail. fold c. rewrite docs_insert_eq.
  eapply no_lease_after; [done..|]. by intros (_ & _ & ?).
Qed.

Lemma ack_is_final_witness :
  Queue.ack Sample.plain (Some "t") (Sample.env 2000) Sample.pair_acked
    = (Err (UnidentifiedAck "ack" (Some "t")), Sample.pair_acked)
  ∧ Queue.ping Sample.plain (Some "t") (Sample.visibility 60) (Sample.env 2000)
      Sample.pair_acked
    = (Err (UnidentifiedAck "ping" (Some "t")), Sample.pair_acked).
Proof.
  apply (ack_is_final Sample.plain "t" (Sample.env 1000) Sample.pair_held 100).
  - intros [|[|j1]] [|[|j2]] d1 d2 H1 H2; try done; simpl in H1, H2.
    + injection H2 as <-. done.
    + injection H1 as <-. done.
  - vm_compute. reflexivity.
Defined.

(** X10. [ping] gives the lease it promises: after a successful [ping]
    at instant [now], an [ack] or a further [ping] with the same token,
    made from then on and before [now] plus the visibility, succeeds
    and names the same message. *)
Theorem ping_extends_lease self a opts e db x db1 :
  let upto := Queue.now e + js_or (Opts.visibility opts) (Queue.visibility self) * 1000 in
  Queue.ping self a opts e db = (Ok x, db1) →
  ∀ e' opts', Queue.now e ≤ Queue.now e' → Queue.now e' < upto →
    (∃ db2, Queue.ack self a e' db1 = (Ok x, db2))
    ∧ (∃ db2, Queue.ping self a opts' e' db1 = (Ok x, db2)).
Proof.
  intros upto (i & d & Hi & (Hack & Hvis & Hdel) & Hmin & -> & ->)%ping_Ok e' opts' Hle Hlt.
  fold upto.
  assert (Store.select Natural (ack_query a e')
            (docs (<[Queue.col self := <[i := Doc.set_visible upto d]>
                                         (docs db (Queue.col self))]> db) (Queue.col self))
          = Some (i, Doc.set_visible upto d)) as Hsel.
  { rewrite docs_insert_eq. simpl. apply first_match_Some. split_and!.
    - apply list_lookup_insert_eq. by eapply lookup_lt_Some.
    - apply ack_query_true. by split_and!.
    - intros j dj Hj Hji. rewrite list_lookup_insert_ne in Hj by lia.
      apply ack_query_false. intros (Ha & Hv & Hn).
      apply (Hmin j dj Hj Hji). split_and!; [done | lia | done]. }
  split; eexists.
  - rewrite ack_eq, (findOneAndUpdate_Some _ _ _ _ _ _ _ Hsel). done.
  - rewrite ping_eq, (findOneAndUpdate_Some _ _ _ _ _ _ _ Hsel). done.
Qed.

Lemma ping_extends_lease_witness :
  (∃ db2, Queue.ack Sample.plain (Some "t") (Sample.env 80000)
            {[ "jobs" := [Doc.mk 100 89000 (Atom "a") (Some "t") (Some 1) None] ]}
          = (Ok 100, db2))
  ∧ (∃ db2, Queue.ping Sample.plain (Some "t") Opts.none (Sample.env 80000)
              {[ "jobs" := [Doc.mk 100 89000 (Atom "a") (Some "t") (Some 1) None] ]}
            = (Ok 100, db2)).
Proof.
  apply (ping_extends_lease Sample.plain (Some "t") (Sample.visibility 60)
           (Sample.env 29000) Sample.held 100).
  - vm_compute. reflexivity.
  - simpl. lia.
  - simpl. lia.
Defined.

(** X11. A claim takes the message from its previous holder: the
    message a [get] returns without forwarding is the least claimable
    one, under the token just drawn and with one try more than stored;
    and when that token is a new one, a token that only this message
    carried is rejected from then on by [ack] and [ping], which leave
    the store as it is. *)
Theorem claim_invalidates_old_token self opts e db old m db' :
  let c := Queue.col self in
  token_of_one old (docs db c) →
  Queue.id e ≠ old →
  Queue.get 1 self opts e db = Some (Ok (Some m), db') →
  ∃ i d,
    least (get_query e) (docs db c) i d
    ∧ Msg.id m = Doc._id d ∧ Msg.payload m = Doc.payload d
    ∧ Msg.ack m = Some (Queue.id e)
    ∧ Msg.tries m = Some (default 0 (Doc.tries d) + 1)
    ∧ (Doc.ack d = Some old →
       ∀ e' opts',
         Queue.ack self (Some old) e' db' = (Err (UnidentifiedAck "ack" (Some old)), db')
         ∧ Queue.ping self (Some old) opts' e' db'
           = (Err (UnidentifiedAck "ping" (Some old)), db')).
Proof.
  intros c Hone Hnew (i & d & Hleast & -> & ->)%get_1_returned.
  exists i, d. split_and!; try done.
  intros Hold e' opts'. apply ack_ping_fail. fold c. rewrite docs_insert_eq.
  destruct Hleast as (Hi & _).
  eapply no_lease_after; [done..|]. intros (Hack & _). simpl in Hack. congruence.
Qed.

Lemma claim_invalidates_old_token_witness :
  Queue.ack Sample.plain (Some "s") (Sample.env 71000)
    {[ "jobs" := [Doc.mk 100 100000 (Atom "a") (Some "t") (Some 3) None;
                  Doc.mk 101 0 (Atom "b") None None None] ]}
  = (Err (UnidentifiedAck "ack" (Some "s")),
     {[ "jobs" := [Doc.mk 100 100000 (Atom "a") (Some "t") (Some 3) None;
                   Doc.mk 101 0 (Atom "b") None None None] ]}).
Proof.
  destruct (claim_invalidates_old_token Sample.plain Opts.none (Sample.env 70000)
              Sample.twice "s" (Msg.mk 100 (Some "t") (Atom "a") (Some 3))
              {[ "jobs" := [Doc.mk 100 100000 (Atom "a") (Some "t") (Some 3) None;
                            Doc.mk 101 0 (Atom "b") None None None] ]})
    as (i & d & (Hi & _) & Hid & _ & _ & _ & Hfail).
  - intros [|[|j1]] [|[|j2]] d1 d2 H1 H2; try done; simpl in H1, H2.
    + injection H2 as <-. done.
    + injection H1 as <-. done.
  - done.
  - vm_compute. reflexivity.
  - change (docs Sample.twice (Queue.col Sample.plain))
      with [Doc.mk 100 70000 (Atom "a") (Some "s") (Some 2) None;
            Doc.mk 101 0 (Atom "b") None None None] in Hi.
    assert (Doc.ack d = Some "s") as Hd.
    { destruct i as [|[|i]]; simpl in Hi; [| |done].
      - by injection Hi as <-.
      - injection Hi as <-. done. }
    exact (proj1 (Hfail Hd (Sample.env 71000) Opts.none)).
Defined.

(** ** Failures of [get] *)

(** X12. Of the queue's own errors [get] hands back one only, the
    "Unidentified ack" of the [ack] it chains after the dead queue's
    [add], and that on a queue with a dead queue and a retry ceiling, for
    the token [get] has set itself in one of its attempts; never the
    error of [add] for an empty Array (what it forwards is an object),
    nor that of [cancel]. Errors of the store are not the subject here:
    they are handed on as they come. *)
Theorem get_errors_come_from_forwarding fuel self opts e db db' :
  (∀ op a,
     Queue.get fuel self opts e db = Some (Err (UnidentifiedAck op a), db') →
     ∃ dq mx n,
       Queue.deadQueue self = Some dq ∧ Queue.maxRetries self = Some mx ∧ (n < fuel)%nat
       ∧ op = "ack" ∧ a = Some (Env.randomBytes e (3 * n)))
  ∧ Queue.get fuel self opts e db ≠ Some (Err ArrayPayloadEmpty, db')
  ∧ (∀ x, Queue.get fuel self opts e db ≠ Some (Err (UnidentifiedId x), db')).
Proof.
  split_and!.
  - intros op a (dq & mx & n & Hdq & Hmx & Hn & [Herr|Herr])%get_Err; [done|].
    injection Herr as -> ->. by exists dq, mx, n.
  - by intros (dq & mx & n & _ & _ & _ & [Herr|Herr])%get_Err.
  - by intros x (dq & mx & n & _ & _ & _ & [Herr|Herr])%get_Err.
Qed.

Lemma get_errors_come_from_forwarding_witness :
  let slow := Env.mk (λ k, 80000 + 40000 * Z.of_nat k)
                (Env.randomBytes (Sample.env 0)) (Env.objectId (Sample.env 0)) in
  ∃ dq mx n,
    Queue.deadQueue Sample.capped = Some dq ∧ Queue.maxRetries Sample.capped = Some mx
    ∧ (n < 1)%nat ∧ "ack" = "ack" ∧ Some "t" = Some (Env.randomBytes slow (3 * n)).
Proof.
  intros slow.
  destruct (get_errors_come_from_forwarding 1 Sample.capped Opts.none slow Sample.twice
              (<[ "dead" := [Doc.mk 101 120000
                               (Obj (Msg.mk 100 (Some "t") (Atom "a") (Some 3)))
                               None None None] ]>
                 {[ "jobs" := [Doc.mk 100 110000 (Atom "a") (Some "t") (Some 3) None;
                               Doc.mk 101 0 (Atom "b") None None None] ]}))
    as (Hack & _).
  apply (Hack "ack" (Some "t")). vm_compute. reflexivity.
Defined.

(** X13. Forwarding is not atomic. When the message [get] claims has
    [tries] above the ceiling and its lease has run out by the time the
    chained [ack] reads the clock, [get] fails with the error of [ack],
    after the dead queue's [add] has stored the copy: the message is in
    the dead queue and, claimed but not finalized, still in the queue,
    where a later [get] will claim it again. *)
Theorem forward_fails_when_lease_expired fuel self dq mx opts e db i d :
  let c := Queue.col self in
  let cd := Queue.col dq in
  let e1 := Env.next e in
  let e2 := Env.next e1 in
  let visibility := js_or (Opts.visibility opts) (Queue.visibility self) in
  let tok := Env.randomBytes e O in
  let n := default 0 (Doc.tries d) + 1 in
  let d' := Doc.mk (Doc._id d) (Queue.now e + visibility * 1000) (Doc.payload d)
              (Some tok) (Some n) None in
  let m := Msg.mk (Doc._id d) (Some tok) (Doc.payload d) (Some n) in
  let dead_doc := Doc.mk (Env.objectId e1 O) (Queue.now e1 + Queue.delay dq * 1000)
                    (Obj m) None None None in
  let db1 := <[c := <[i := d']> (docs db c)]> db in
  let db2 := <[cd := docs db1 cd ++ [dead_doc]]> db1 in
  Queue.deadQueue self = Some dq →
  Queue.maxRetries self = Some mx →
  least (get_query e) (docs db c) i d →
  mx < n →
  Queue.now e + visibility * 1000 ≤ Queue.now e2 →
  Forall (λ x, Doc.ack x ≠ Some tok) (docs db c) →
  Forall (λ x, Doc._id x ≠ Env.objectId e1 O) (docs db1 cd) →
  Queue.get (S fuel) self opts e db = Some (Err (UnidentifiedAck "ack" (Some tok)), db2)
  ∧ dead_doc ∈ docs db2 cd
  ∧ docs db2 c !! i = Some d'
  ∧ claimable (Queue.now e2) d'.
Proof.
  intros c cd e1 e2 visibility tok n d' m dead_doc db1 db2 Hdq Hmx.
  intros Hleast Hover Hvis Htok Hoid.
  pose proof Hleast as (Hi & [Hdel Hvisible]%get_query_true & _).
  assert (get_update e visibility d = d') as Hd'.
  { unfold get_update, Doc.set_visible, Doc.set_ack, Doc.inc_tries, d'. simpl.
    by rewrite Hdel. }
  assert (i < length (docs db c))%nat as Hlen by (by eapply lookup_lt_Some).
  apply least_match_Some in Hleast.
  destruct (get_redirect fuel self opts e db i d Hleast) as (dq' & Hdq' & ->).
  { unfold redirects. fold visibility. rewrite Hd', Hdq, Hmx. simpl.
    by apply Z.ltb_lt. }
  assert (dq' = dq) as -> by congruence.
  fold visibility c e1 e2. rewrite Hd'. fold db1. change (Queue.view d') with m.
  rewrite add_one; [|done|done]. fold cd dead_doc db2.
  change (Doc.ack d') with (Some tok).
  assert (docs db2 c = <[i := d']> (docs db c) ++ (if decide (cd = c) then [dead_doc] else []))
    as Hdocs by apply docs_after_dead_add.
  destruct (ack_ping_fail self (Some tok) Opts.none e2 db2) as [-> _].
  { fold c. rewrite Hdocs. apply Forall_app. split.
    - apply Forall_insert.
      + eapply Forall_impl; [exact Htok|]. intros x Hx (Hack & _). done.
      + intros (_ & Hlt & _).
        change (Queue.now e2 < Queue.now e + visibility * 1000) in Hlt. lia.
    - destruct (decide (cd = c)); [|constructor].
      apply Forall_singleton. by intros (Hack & _). }
  split_and!.
  - done.
  - unfold db2. rewrite docs_insert_eq. apply elem_of_app. right. apply list_elem_of_here.
  - rewrite Hdocs, lookup_app_l by (by rewrite length_insert).
    by apply list_lookup_insert_eq.
  - split; [done|]. exact Hvis.
Qed.

Lemma forward_fails_when_lease_expired_witness :
  let slow := Env.mk (λ k, 80000 + 40000 * Z.of_nat k)
                (Env.randomBytes (Sample.env 0)) (Env.objectId (Sample.env 0)) in
  Queue.get 1 Sample.capped Opts.none slow Sample.twice
  = Some (Err (UnidentifiedAck "ack" (Some "t")),
          <[ "dead" := [Doc.mk 101 120000
                          (Obj (Msg.mk 100 (Some "t") (Atom "a") (Some 3))) None None None] ]>
            {[ "jobs" := [Doc.mk 100 110000 (Atom "a") (Some "t") (Some 3) None;
                          Doc.mk 101 0 (Atom "b") None None None] ]}).
Proof.
  intros slow.
  destruct (forward_fails_when_lease_expired O Sample.capped Sample.dead 2 Opts.none slow
              Sample.twice O (Doc.mk 100 70000 (Atom "a") (Some "s") (Some 2) None))
    as (Hget & _).
  - reflexivity.
  - reflexivity.
  - split_and!; [reflexivity | reflexivity |].
    intros j x Hx Hq.
    change (docs Sample.twice (Queue.col Sample.capped))
      with [Doc.mk 100 70000 (Atom "a") (Some "s") (Some 2) None;
            Doc.mk 101 0 (Atom "b") None None None] in Hx.
    destruct j as [|[|j]]; simpl in Hx; [| |done].
    + injection Hx as <-. simpl. split; [lia | done].
    + injection Hx as <-. simpl. split; [lia | intros; lia].
  - simpl. lia.
  - simpl. lia.
  - change (docs Sample.twice (Queue.col Sample.capped))
      with [Doc.mk 100 70000 (Atom "a") (Some "s") (Some 2) None;
            Doc.mk 101 0 (Atom "b") None None None].
    repeat constructor; done.
  - constructor.
  - rewrite Hget. vm_compute. reflexivity.
Defined.

(** ** The counts along the life of a message *)

(** X14. Read at the instant of the call, the four counts follow the
    life cycle. A [get] that returns a message (without forwarding, for a
    positive visibility) moves one message from [size] to [inFlight]; an
    [ack] with a token moves one from [inFlight] to [done]; a [cancel]
    moves one from [size] to [done]; a [ping] for a positive visibility
    changes none; and [total] is the same after each. *)
Theorem counts_follow_life_cycle self e db :
  (∀ opts m db',
     0 < js_or (Opts.visibility opts) (Queue.visibility self) →
     Queue.get 1 self opts e db = Some (Ok (Some m), db') →
     (∃ s, Queue.size self e db = Ok (S s) ∧ Queue.size self e db' = Ok s)
     ∧ (∃ f, Queue.inFlight self e db = Ok f ∧ Queue.inFlight self e db' = Ok (S f))
     ∧ Queue.done self db' = Queue.done self db
     ∧ Queue.total self db' = Queue.total self db)
  ∧ (∀ tok x db',
       Queue.ack self (Some tok) e db = (Ok x, db') →
       (∃ f, Queue.inFlight self e db = Ok (S f) ∧ Queue.inFlight self e db' = Ok f)
       ∧ (∃ n, Queue.done self db = Ok n ∧ Queue.done self db' = Ok (S n))
       ∧ Queue.size self e db' = Queue.size self e db
       ∧ Queue.total self db' = Queue.total self db)
  ∧ (∀ x db',
       Queue.cancel self x e db = (Ok tt, db') →
       (∃ s, Queue.size self e db = Ok (S s) ∧ Queue.size self e db' = Ok s)
       ∧ (∃ n, Queue.done self db = Ok n ∧ Queue.done self db' = Ok (S n))
       ∧ Queue.inFlight self e db' = Queue.inFlight self e db
       ∧ Queue.total self db' = Queue.total self db)
  ∧ (∀ a opts x db',
       0 < js_or (Opts.visibility opts) (Queue.visibility self) →
       Queue.ping self a opts e db = (Ok x, db') →
       Queue.size self e db' = Queue.size self e db
       ∧ Queue.inFlight self e db' = Queue.inFlight self e db
       ∧ Queue.done self db' = Queue.done self db
       ∧ Queue.total self db' = Queue.total self db).
Proof.
  split_and!.
  - intros opts m db' Hpos (i & d & (Hi & [Hdel Hvis]%get_query_true & _) & -> & ->)%get_1_returned.
    set (d' := get_update e _ d).
    assert (Doc.deleted d' = None) as Hdel' by done.
    assert (Queue.now e < Doc.visible d') as Hvis'.
    { unfold d', get_update, Queue.nowPlusSecs. simpl. fold (Queue.now e). lia. }
    split_and!.
    + apply (size_insert self e db i d d' Hi); [done|]. intros [_ ?]. lia.
    + apply (inFlight_insert self e db i d d' Hi).
      * intros (_ & ? & _). lia.
      * split_and!; [by eexists | done..].
    + by apply (done_insert self db i d d' Hi).
    + by apply (total_insert self db i d d').
  - intros tok x db' (i & d & Hi & (Hack & Hvis & Hdel) & _ & -> & ->)%ack_Ok.
    set (d' := Doc.set_deleted (Queue.now e) d).
    split_and!.
    + apply (inFlight_insert self e db i d d' Hi).
      * split_and!; [by rewrite Hack | done..].
      * by intros (_ & _ & ?).
    + apply (done_insert self db i d d' Hi); [done | by eexists].
    + apply (size_insert self e db i d d' Hi).
      * intros [_ ?]. lia.
      * by intros [? _].
    + by apply (total_insert self db i d d').
  - intros x db' (i & d & Hi & (_ & Hdel & Hvis) & ->)%cancel_Ok.
    set (d' := Doc.set_deleted (Queue.now e) d).
    split_and!.
    + apply (size_insert self e db i d d' Hi); [done|]. by intros [? _].
    + apply (done_insert self db i d d' Hi); [done | by eexists].
    + apply (inFlight_insert self e db i d d' Hi).
      * intros (_ & ? & _). lia.
      * by intros (_ & _ & ?).
    + by apply (total_insert self db i d d').
  - intros a opts x db' Hpos (i & d & Hi & (Hack & Hvis & Hdel) & _ & -> & ->)%ping_Ok.
    set (d' := Doc.set_visible _ d).
    assert (Queue.now e < Doc.visible d') as Hvis' by (simpl; lia).
    split_and!.
    + apply (size_insert self e db i d d' Hi).
      * intros [_ ?]. lia.
      * intros [_ ?]. lia.
    + destruct (inFlight_insert self e db i d d' Hi) as (Hin & Hout & _).
      destruct (Doc.ack d) as [t|] eqn:Ht.
      * apply Hin; (split_and!; [|done..]).
        -- rewrite Ht. by eexists.
        -- simpl. rewrite Ht. by eexists.
      * apply Hout.
        -- intros ([? ?] & _). congruence.
        -- intros ([? Hx] & _). simpl in Hx. congruence.
    + by apply (done_insert self db i d d' Hi).
    + by apply (total_insert self db i d d').
Qed.

Lemma counts_follow_life_cycle_witness :
  let db' : DB := {[ "jobs" := [Doc.mk 100 30000 (Atom "a") (Some "t") (Some 1) None;
                                Doc.mk 101 0 (Atom "b") None None None] ]} in
  (∃ s, Queue.size Sample.plain (Sample.env 0) Sample.pair = Ok (S s)
        ∧ Queue.size Sample.plain (Sample.env 0) db' = Ok s)
  ∧ (∃ f, Queue.inFlight Sample.plain (Sample.env 0) Sample.pair = Ok f
          ∧ Queue.inFlight Sample.plain (Sample.env 0) db' = Ok (S f))
  ∧ Queue.done Sample.plain db' = Queue.done Sample.plain Sample.pair
  ∧ Queue.total Sample.plain db' = Queue.total Sample.plain Sample.pair.
Proof.
  intros db'.
  destruct (counts_follow_life_cycle Sample.plain (Sample.env 0) Sample.pair) as [Hget _].
  apply (Hget Opts.none (Msg.mk 100 (Some "t") (Atom "a") (Some 1)) db').
  - simpl. lia.
  - vm_compute. reflexivity.
Defined.

(** ** What holds of every store the calls lead to *)

(** X15. In every store reached from the empty database by calls of the
    interface, of any queues, in any order and at any instants:
    identifiers are unique within a collection, and every document has
    either no ack token and no [tries] (it was never claimed) or both,
    with [tries] at least one. *)
Theorem reachable_store_shape db c :
  reachable db →
  NoDup (Doc._id <$> docs db c) ∧ Forall claimed_shape (docs db c).
Proof.
  intros Hr. split.
  - by apply reachable_wf.
  - by apply (reachable_all claimed_shape db stable_claimed_shape).
Qed.

Lemma reachable_store_shape_witness :
  NoDup (Doc._id <$> docs Sample.pair_held "jobs")
  ∧ Forall claimed_shape (docs Sample.pair_held "jobs").
Proof.
  apply reachable_store_shape.
  apply (reachable_step (Get 1 Sample.plain Opts.none) (Sample.env 0) Sample.pair);
    [|vm_compute; reflexivity].
  apply (reachable_step (Add Sample.plain (Arr [Atom "a"; Atom "b"]) Opts.none)
           (Sample.env 0) ∅); [|vm_compute; reflexivity].
  apply reachable_empty.
Defined.

(** ** From [add] to [get] *)

(** X16. What is added comes back as it was, and not before its delay
    has passed. After [add] of a payload that is not an Array, under a
    generated identifier new to the collection, into a collection with
    nothing else to claim: a [get] made before [now + delay] returns no
    message and leaves the store as it is; a [get] made from then on
    returns the payload unchanged, under the identifier [add] handed
    back, with the token just drawn and [tries] one (unless the queue
    forwards a message at its first try). *)
Theorem add_then_get self payload opts e db :
  let c := Queue.col self in
  let visible := Queue.now e + js_or (Opts.delay opts) (Queue.delay self) * 1000 in
  let x := Env.objectId e O in
  let db1 := (Queue.add self payload opts e db).2 in
  (∀ items, payload ≠ Arr items) →
  Forall (λ d, Doc._id d ≠ x) (docs db c) →
  (Queue.add self payload opts e db).1 = Ok (One x)
  ∧ ∀ fuel opts' e',
      let m := Msg.mk x (Some (Queue.id e')) payload (Some 1) in
      Forall (λ d, ¬ claimable (Queue.now e') d) (docs db c) →
      (Queue.now e' < visible →
       Queue.get (S fuel) self opts' e' db1 = Some (Ok None, db1))
      ∧ (visible ≤ Queue.now e' → redirects self m = false →
         ∃ db2, Queue.get (S fuel) self opts' e' db1 = Some (Ok (Some m), db2)).
Proof.
  intros c visible x db1 Hnot Hfresh.
  set (doc := Doc.mk x visible payload None None None).
  assert (Queue.add self payload opts e db = (Ok (One x), <[c := docs db c ++ [doc]]> db))
    as Hadd.
  { rewrite add_eq. cbv zeta. fold c visible.
    assert (payloads payload = [payload]) as ->.
    { destruct payload as [s|items|o]; try done. by destruct (Hnot items). }
    simpl. fold x. rewrite (proj2 (has_id_false _ _) Hfresh).
    destruct payload as [s|items|o]; try done. by destruct (Hnot items). }
  unfold db1. rewrite Hadd. cbn [fst snd]. split; [done|].
  intros fuel opts' e'. cbv zeta. intros Hnone.
  set (m := Msg.mk x (Some (Queue.id e')) payload (Some 1)).
  assert (docs (<[c := docs db c ++ [doc]]> db) (Queue.col self) = docs db c ++ [doc])
    as Hdocs by apply docs_insert_eq.
  split.
  - intros Hearly. apply get_none. rewrite Hdocs. apply Forall_app. split; [done|].
    apply Forall_singleton. intros [_ Hv]. simpl in Hv. lia.
  - intros Hlate Hred.
    assert (Store.least_match (get_query e') (docs (<[c := docs db c ++ [doc]]> db)
                                                (Queue.col self))
            = Some (length (docs db c), doc)) as Hsel.
    { rewrite Hdocs. apply least_match_Some. split_and!.
      - by rewrite lookup_app_r, Nat.sub_diag.
      - apply get_query_true. by split.
      - intros j d' Hj Hq%get_query_true.
        destruct (decide (j < length (docs db c))%nat) as [Hlt|Hge].
        + rewrite lookup_app_l in Hj by done.
          by destruct (proj1 (Forall_lookup _ _) Hnone j d' Hj).
        + rewrite lookup_app_r in Hj by lia.
          destruct (j - length (docs db c))%nat as [|k] eqn:Hk; [|by destruct k].
          injection Hj as <-. split; [done|]. intros _. lia. }
    eexists. by apply (get_direct fuel self opts' e' _ _ doc Hsel).
Qed.

Lemma add_then_get_witness :
  let e := Env.next (Sample.env 0) in
  let db1 : DB :=
    {[ "jobs" := [Doc.mk 100 30000 (Atom "a") (Some "t") (Some 1) None;
                  Doc.mk 101 5001 (Atom "c") None None None] ]} in
  Queue.add Sample.plain (Atom "c") (Sample.delay 5) e Sample.held = (Ok (One 101), db1)
  ∧ Queue.get 1 Sample.plain Opts.none (Sample.env 5000) db1 = Some (Ok None, db1)
  ∧ ∃ db2, Queue.get 1 Sample.plain Opts.none (Env.next (Sample.env 5000)) db1
           = Some (Ok (Some (Msg.mk 101 (Some "t'") (Atom "c") (Some 1))), db2).
Proof.
  intros e db1.
  destruct (add_then_get Sample.plain (Atom "c") (Sample.delay 5) e Sample.held)
    as [Hadd Hget].
  - done.
  - repeat constructor. done.
  - assert ((Queue.add Sample.plain (Atom "c") (Sample.delay 5) e Sample.held).2 = db1)
      as Hdb by (vm_compute; reflexivity).
    rewrite Hdb in Hget. split_and!.
    + rewrite (surjective_pairing (Queue.add _ _ _ _ _)), Hadd, Hdb. done.
    + apply (Hget O Opts.none (Sample.env 5000)).
      * repeat constructor. intros [_ Hv]. simpl in Hv. lia.
      * simpl. lia.
    + apply (Hget O Opts.none (Env.next (Sample.env 5000))).
      * repeat constructor. intros [_ Hv]. simpl in Hv. lia.
      * simpl. lia.
      * done.
Defined.

(** X17. [add] and the counts. After a successful [add], [total] has
    grown by the number of payloads; [size], read at any instant, counts
    the new messages from [now + delay] on and not before; [inFlight]
    and [done] are as they were. *)
Theorem counts_after_add self payload opts e db r db' :
  let visible := Queue.now e + js_or (Opts.delay opts) (Queue.delay self) * 1000 in
  let n := length (payloads payload) in
  Queue.add self payload opts e db = (Ok r, db') →
  (∃ t, Queue.total self db = Ok t ∧ Queue.total self db' = Ok (t + n)%nat)
  ∧ (∀ e', ∃ s, Queue.size self e' db = Ok s
                ∧ (visible ≤ Queue.now e' → Queue.size self e' db' = Ok (s + n)%nat)
                ∧ (Queue.now e' < visible → Queue.size self e' db' = Ok s))
  ∧ (∀ e', Queue.inFlight self e' db' = Queue.inFlight self e' db)
  ∧ Queue.done self db' = Queue.done self db.
Proof.
  intros visible n Hadd.
  destruct (add_appends self payload opts e db) as (news & Hdocs & Hnews & Hlen).
  rewrite Hadd in Hdocs, Hlen. cbn [fst snd] in Hdocs, Hlen. fold visible in Hnews.
  destruct (Hlen eq_refl) as [Hn _]. fold n in Hn.
  unfold Queue.total, Queue.size, Queue.inFlight, Queue.done.
  rewrite Hdocs. split_and!.
  - eexists. split; [done|]. rewrite count_app. do 2 f_equal.
    rewrite (count_all _ news), Hn; [done|]. by eapply Forall_impl.
  - intros e'. eexists. split_and!; [done|..]; intros Hv; rewrite count_app; f_equal.
    + f_equal. rewrite (count_all _ news), Hn; [done|].
      eapply Forall_impl; [exact Hnews|]. intros d [(Hvis & _ & _ & Hdel) _]. simpl.
      rewrite Hdel, Hvis. simpl. by apply Z.leb_le.
    + rewrite (count_none _ news), Nat.add_0_r; [done|].
      eapply Forall_impl; [exact Hnews|]. intros d [(Hvis & _ & _ & Hdel) _]. simpl.
      rewrite Hdel, Hvis. simpl. apply Z.leb_gt. lia.
  - intros e'. f_equal. rewrite count_app, (count_none _ news), Nat.add_0_r; [done|].
    eapply Forall_impl; [exact Hnews|]. intros d [(_ & Hack & _) _]. simpl.
    by rewrite Hack.
  - f_equal. rewrite count_app, (count_none _ news), Nat.add_0_r; [done|].
    eapply Forall_impl; [exact Hnews|]. intros d [(_ & _ & _ & Hdel) _]. simpl.
    by rewrite Hdel.
Qed.

Lemma counts_after_add_witness :
  let db' : DB := {[ "jobs" := [Doc.mk 100 5000 (Atom "a") None None None;
                                Doc.mk 101 5000 (Atom "b") None None None] ]} in
  Queue.total Sample.plain db' = Ok 2%nat
  ∧ Queue.size Sample.plain (Sample.env 4000) db' = Ok 0%nat
  ∧ Queue.size Sample.plain (Sample.env 5000) db' = Ok 2%nat.
Proof.
  intros db'.
  destruct (counts_after_add Sample.plain (Arr [Atom "a"; Atom "b"]) (Sample.delay 5)
              (Sample.env 0) ∅ (Many [100; 101]) db')
    as ((t & Ht & Ht') & Hsize & _).
  - vm_compute. reflexivity.
  - split_and!.
    + rewrite Ht'. vm_compute in Ht. by injection Ht as <-.
    + destruct (Hsize (Sample.env 4000)) as (s & Hs & _ & Hearly).
      rewrite Hearly by (simpl; lia). vm_compute in Hs. by injection Hs as <-.
    + destruct (Hsize (Sample.env 5000)) as (s & Hs & Hlate & _).
      rewrite Hlate by (simpl; lia). vm_compute in Hs. by injection Hs as <-.
Defined.

(** ** The identifier of a finalized message *)

(** X18. A finalized message keeps its identifier taken until [clean]
    removes it: where identifiers are unique, [addIfMissing] of the
    identifier of a finalized message leaves the store as it is, and
    after [clean] it inserts the message anew, at the end of the
    collection. *)
Theorem addIfMissing_after_clean self x payload opts e db i d :
  let c := Queue.col self in
  let db' := (Queue.clean self db).2 in
  let m := Doc.mk x (Queue.now e + js_or (Opts.delay opts) (Queue.delay self) * 1000)
             payload None None None in
  NoDup (Doc._id <$> docs db c) →
  docs db c !! i = Some d → Doc._id d = x → finalized d →
  (Queue.addIfMissing self x payload opts e db).2 = db
  ∧ (Queue.addIfMissing self x payload opts e db').2 = <[c := docs db' c ++ [m]]> db'.
Proof.
  intros c db' m Hnd Hi Hid Hfin. split.
  - rewrite addIfMissing_eq. fold c. cbv zeta.
    destruct (Store.first_match _ _) eqn:Hm; [done|].
    apply first_match_id_None in Hm.
    by destruct (proj1 (Forall_lookup _ _) Hm i d Hi).
  - rewrite addIfMissing_eq. fold c m. cbv zeta.
    rewrite (proj2 (first_match_id_None x (docs db' c))); [done|].
    unfold db'. rewrite docs_clean, decide_True by done.
    apply Forall_forall. intros d' Hin%list_elem_of_In.
    apply filter_In in Hin as [Hin%list_elem_of_In Hkept%kept_true]. fold c in Hin.
    intros Hx. apply Hkept.
    apply list_elem_of_lookup in Hin as [j Hj].
    assert (j = i) as ->.
    { eapply NoDup_lookup; [exact Hnd|..]; rewrite list_lookup_fmap.
      - by rewrite Hj.
      - rewrite Hi. simpl. congruence. }
    by assert (d' = d) as -> by congruence.
Qed.

Lemma addIfMissing_after_clean_witness :
  (Queue.addIfMissing Sample.plain 100 (Atom "z") Opts.none (Sample.env 2000)
     Sample.pair_acked).2 = Sample.pair_acked
  ∧ (Queue.addIfMissing Sample.plain 100 (Atom "z") Opts.none (Sample.env 2000)
       (Queue.clean Sample.plain Sample.pair_acked).2).2
    = {[ "jobs" := [Doc.mk 101 0 (Atom "b") None None None;
                    Doc.mk 100 2000 (Atom "z") None None None] ]}.
Proof.
  destruct (addIfMissing_after_clean Sample.plain 100 (Atom "z") Opts.none (Sample.env 2000)
              Sample.pair_acked O
              (Doc.mk 100 30000 (Atom "a") (Some "t") (Some 1) (Some 1000)))
    as [Hbefore Hafter].
  - compute_done.
  - reflexivity.
  - reflexivity.
  - by eexists.
  - split; [exact Hbefore|]. rewrite Hafter. vm_compute. reflexivity.
Defined.

(** ** Giving a message back *)

(** X19. A [ping] for a visibility that is not positive gives the
    message back: where the token is carried by one document only, after
    such a [ping] has succeeded the message it names is claimable from
    that instant on, and [ack] and [ping] with the token fail and leave
    the store as it is. *)
Theorem ping_not_positive_releases self tok opts e db x db' :
  let c := Queue.col self in
  token_of_one tok (docs db c) →
  js_or (Opts.visibility opts) (Queue.visibility self) ≤ 0 →
  Queue.ping self (Some tok) opts e db = (Ok x, db') →
  ∀ e' opts',
    Queue.now e ≤ Queue.now e' →
    Exists (λ d, Doc._id d = x ∧ claimable (Queue.now e') d) (docs db' c)
    ∧ Queue.ack self (Some tok) e' db' = (Err (UnidentifiedAck "ack" (Some tok)), db')
    ∧ Queue.ping self (Some tok) opts' e' db'
      = (Err (UnidentifiedAck "ping" (Some tok)), db').
Proof.
  intros c Hone Hvis (i & d & Hi & (Hack & _ & Hdel) & _ & -> & ->)%ping_Ok e' opts' Hle.
  fold c. rewrite docs_insert_eq. split.
  - apply Exists_exists. eexists. split.
    + eapply list_elem_of_lookup_2. apply list_lookup_insert_eq. by eapply lookup_lt_Some.
    + split; [done|]. split; [done|]. simpl. lia.
  - apply ack_ping_fail. fold c. rewrite docs_insert_eq.
    eapply no_lease_after; [done..|]. intros (_ & Hlt & _). simpl in Hlt. lia.
Qed.

Lemma ping_not_positive_releases_witness :
  Queue.ack Sample.plain (Some "t") (Sample.env 2000)
    {[ "jobs" := [Doc.mk 100 1000 (Atom "a") (Some "t") (Some 1) None] ]}
  = (Err (UnidentifiedAck "ack" (Some "t")),
     {[ "jobs" := [Doc.mk 100 1000 (Atom "a") (Some "t") (Some 1) None] ]}).
Proof.
  destruct (ping_not_positive_releases Sample.plain "t" (Sample.visibility (-1))
              (Sample.env 2000) Sample.held 100
              {[ "jobs" := [Doc.mk 100 1000 (Atom "a") (Some "t") (Some 1) None] ]})
    with (e' := Sample.env 2000) (opts' := Sample.visibility 60) as (_ & Hack & _).
  - intros [|j1] [|j2] d1 d2 H1 H2; done.
  - simpl. lia.
  - vm_compute. reflexivity.
  - simpl. lia.
  - exact Hack.
Defined.
